(** * The transactional install pipeline of pho (package [commands])

    A shallow embedding of [InstallApps], [Install], [Download],
    [Integrate], [SaveConfig], [Write] and [PrintStatus] of
    commands/install.go, together with the part of the world they act on:
    the file system, the transaction journal, the configuration store and
    the terminal.

    Two revisions of install.go are in the repository.  They differ in
    [Download] only: one stages the asset in a temporary file and renames it
    into place, the other creates the bundle file in place.  (The second one
    also keeps the paths record in a field of [InstallableApp] instead of
    inside the [AppConfig]; the values are the same.)  The embedding takes
    the revision as a parameter, so that every statement says which code it
    is about.

    After the pipeline come the two commands among the sources:
    [SelfUpdateCommand] (commands/self-update.go), which writes a download
    over the running binary, and [InstallGithubCommand]
    (install-github.go), which checks its arguments, asks the user and
    hands one request to [InstallApps].  The functions of [core], [utils]
    and [color] they call are not among the sources; they are parameters
    of the embedding, and nothing is assumed of them. *)

From Stdlib Require Import ZArith Lia Ascii.
From Stdlib.Strings Require Import Byte.
From stdpp Require Import gmap strings list fin_maps.

Local Open Scope Z_scope.
Local Open Scope string_scope.
Local Open Scope list_scope.

(** ** Machine integers *)

(** Go's [int64] (and [int] on the 64-bit targets of pho): arithmetic wraps
    around in two's complement. *)
Definition wrap64 (z : Z) : Z := (z + 2 ^ 63) mod 2 ^ 64 - 2 ^ 63.

(** ** Package [core]: the data the pipeline works on *)

Module core.

(** Modelled from the spec: [core.AppPaths] is declared outside the
    sources at hand.  The locations one installation touches, with the
    fields the pipeline reads. *)
Record AppPaths := mkAppPaths {
  Dir : string;
  Desktop : string;
  AppImage : string;
  Icon : string;
  Config : string;
  SourceConfig : string
}.

(** Modelled from the spec: [core.AppConfig], with the fields the pipeline
    and the install commands use; the paths record is inside it in one
    revision and next to it in the other. *)
Record AppConfig := mkAppConfig {
  Id : string;
  Name : string;
  Version : string;
  Source : string;
  Paths : AppPaths
}.

(** Modelled from the spec: [core.Asset].  [Size] is the size the release
    source declares. *)
Record Asset := mkAsset {
  AssetName : string;
  DownloadUrl : string;
  Size : Z
}.

(** Modelled from the spec: the value stored in [InstallableApp.Source]
    ([any] in Go) is one of the three source descriptors. *)
Inductive SourceValue :=
| GithubSource (UserName RepoName TagName : string) (PreRelease : bool)
| HttpSource (Url : string)
| LocalSource (Path : string).

(** Modelled from the spec: [core.PendingInstallation], with the two fields
    the batch runner fills. *)
Record PendingInstallation := mkPendingInstallation {
  InvolvedDirs : list string;
  InvolvedFiles : list string
}.

End core.

(** ** [InstallableAppStatus] *)

Inductive InstallableAppStatus :=
| InstallableAppFailed
| InstallableAppDownloading
| InstallableAppIntegrating
| InstallableAppInstalled.

(** The [const ( ... = iota ... )] block, in the order it is written. *)
Definition status_constants : list InstallableAppStatus :=
  [InstallableAppFailed; InstallableAppDownloading;
   InstallableAppIntegrating; InstallableAppInstalled].

(** The integer a status constant stands for: its position in the block. *)
Definition status_code (s : InstallableAppStatus) : Z :=
  match s with
  | InstallableAppFailed => 0
  | InstallableAppDownloading => 1
  | InstallableAppIntegrating => 2
  | InstallableAppInstalled => 3
  end.

(** The status an integer denotes, when it denotes one. *)
Definition status_of_code (z : Z) : option InstallableAppStatus :=
  if decide (0 <= z) then status_constants !! Z.to_nat z else None.

(** Go's zero value of [InstallableAppStatus] is the integer 0. *)
Definition zero_status : InstallableAppStatus :=
  default InstallableAppFailed (status_of_code 0).

Global Instance status_eq_dec : EqDecision InstallableAppStatus.
Proof. solve_decision. Defined.

(** ** [InstallableApp] *)

Record InstallableApp := mkInstallableApp {
  App : core.AppConfig;
  Source : core.SourceValue;
  Asset : core.Asset;
  Index : Z;
  Count : Z;
  StartedAt : Z;
  Progress : Z;
  PrintCycle : Z;
  Status : InstallableAppStatus
}.

(** The composite literal [InstallableApp{App: .., Source: .., Asset: ..}]
    the install commands build: every other field has its zero value. *)
Definition new_InstallableApp
    (app : core.AppConfig) (src : core.SourceValue) (asset : core.Asset)
    : InstallableApp :=
  {| App := app; Source := src; Asset := asset;
     Index := 0; Count := 0; StartedAt := 0; Progress := 0; PrintCycle := 0;
     Status := zero_status |}.

Definition set_Index (v : Z) (x : InstallableApp) : InstallableApp :=
  {| App := App x; Source := Source x; Asset := Asset x;
     Index := v; Count := Count x; StartedAt := StartedAt x;
     Progress := Progress x; PrintCycle := PrintCycle x; Status := Status x |}.

Definition set_Count (v : Z) (x : InstallableApp) : InstallableApp :=
  {| App := App x; Source := Source x; Asset := Asset x;
     Index := Index x; Count := v; StartedAt := StartedAt x;
     Progress := Progress x; PrintCycle := PrintCycle x; Status := Status x |}.

Definition set_StartedAt (v : Z) (x : InstallableApp) : InstallableApp :=
  {| App := App x; Source := Source x; Asset := Asset x;
     Index := Index x; Count := Count x; StartedAt := v;
     Progress := Progress x; PrintCycle := PrintCycle x; Status := Status x |}.

Definition set_Progress (v : Z) (x : InstallableApp) : InstallableApp :=
  {| App := App x; Source := Source x; Asset := Asset x;
     Index := Index x; Count := Count x; StartedAt := StartedAt x;
     Progress := v; PrintCycle := PrintCycle x; Status := Status x |}.

Definition set_PrintCycle (v : Z) (x : InstallableApp) : InstallableApp :=
  {| App := App x; Source := Source x; Asset := Asset x;
     Index := Index x; Count := Count x; StartedAt := StartedAt x;
     Progress := Progress x; PrintCycle := v; Status := Status x |}.

Definition set_Status (v : InstallableAppStatus) (x : InstallableApp)
    : InstallableApp :=
  {| App := App x; Source := Source x; Asset := Asset x;
     Index := Index x; Count := Count x; StartedAt := StartedAt x;
     Progress := Progress x; PrintCycle := PrintCycle x; Status := v |}.

Definition paths (x : InstallableApp) : core.AppPaths := core.Paths (App x).
Definition app_id (x : InstallableApp) : string := core.Id (App x).

(** ** The world the pipeline acts on *)

(** A regular file: its bytes and its permission bits. *)
Record File := mkFile { data : list Byte.byte; perm : Z }.

(** The file system: regular files and directories, by path. *)
Record FS := mkFS { files : gmap string File; dirs : gset string }.

(** The calls that leave the program and may fail. *)
Inductive Op :=
| OpMkdirAll (p : string)
| OpMkdir (p : string)
| OpCreateTemp (p : string)
| OpCreate (p : string)
| OpAssetDownload (asset : core.Asset)
| OpRead (asset : core.Asset)
| OpWrite (p : string) (n : nat)
| OpClose (what : string)
| OpRename (src dst : string)
| OpChmod (p : string) (mode : Z)
| OpRemoveAll (p : string)
| OpDeflateAppImage (bundle scratch : string)
| OpExtractMetadata (scratch : string)
| OpCopyIconFile (icon : string)
| OpInstallDesktopFile (desktop : string)
| OpSaveAppConfig (p : string)
| OpSaveSourceConfig (p : string)
| OpReadConfig
| OpSaveConfig.

(** A Go [error] value: the call that failed. *)
Definition error := Op.

(** What [PrintStatus] puts on the terminal, before formatting. *)
Inductive StatusLine :=
| LineFailed (index count : Z) (version : string) (elapsed : Z)
| LineDownloading (index count cycle : Z) (version : string)
    (progress size : Z) (elapsed : Z)
| LineIntegrating (index count cycle : Z) (version : string) (elapsed : Z)
| LineInstalled (index count : Z) (version : string) (elapsed : Z).

(** What an observer of a run can see, in the order it happens.
    [EvStatus] is a ghost event: it records an assignment to [x.Status]. *)
Inductive Event :=
| EvCall (op : Op) (ok : bool)
| EvErase
| EvPrint (line : StatusLine)
| EvLogError (e : error)
| EvUpdateTransactions (after : gmap string core.PendingInstallation)
| EvTickerStart (index : Z)
| EvTickerStop (index : Z)
| EvStatus (index : Z) (s : InstallableAppStatus).

Record World := mkWorld {
  fs : FS;
  (** every earlier state of the file system, the latest first *)
  seen : list FS;
  (** the transaction journal: [Transactions.PendingInstallations] *)
  journal : gmap string core.PendingInstallation;
  (** the per-app config files and source-config files, by path *)
  app_configs : gmap string core.AppConfig;
  source_configs : gmap string core.SourceValue;
  (** the global registry: [Config.Installed] *)
  installed : gmap string string;
  trace : list Event
}.

(** Every state the file system has been in, the latest first. *)
Definition observed (w : World) : list FS := fs w :: seen w.

(** The environment decides what the program cannot: whether the call
    issued after [n] events fails, what the clock reads, which name a new
    temporary file gets, and which bytes a collaborator hands over. *)
Record Env := mkEnv {
  fault : nat → Op → bool;
  clock : nat → Z;
  temp_name : nat → string → string;
  produced : nat → Op → list (list Byte.byte)
}.

(** The receiver [x] of the methods and the world, threaded together. *)
Record Run := mkRun { self : InstallableApp; world : World }.

(** ** Results and the error monad of the pipeline *)

Inductive Res (A : Type) :=
| Ok (a : A)
| Err (e : error).
Arguments Ok {A} a.
Arguments Err {A} e.

Definition is_ok {A} (r : Res A) : bool :=
  match r with Ok _ => true | Err _ => false end.

(** A method that returns [(A, error)]: it stops at the first error. *)
Definition M (A : Type) : Type := Run → Res A * Run.

Global Instance M_ret : MRet M := λ A a st, (Ok a, st).

Global Instance M_bind : MBind M := λ A B k m st,
  match m st with
  | (Ok a, st') => k a st'
  | (Err e, st') => (Err e, st')
  end.

(** [defer cleanup] placed before [body]: [cleanup] runs when the function
    returns, whatever [body] returned. *)
Definition deferring {A} (cleanup : Run → Run) (body : M A) : M A :=
  λ st, let '(r, st') := body st in (r, cleanup st').

(** A step that cannot fail, as a step of the pipeline. *)
Definition lift (f : Run → Run) : M unit := λ st, (Ok tt, f st).

(** ** World updates *)

Definition log (e : Event) (w : World) : World :=
  {| fs := fs w; seen := seen w; journal := journal w;
     app_configs := app_configs w; source_configs := source_configs w;
     installed := installed w; trace := trace w ++ [e] |}.

(** A new file-system state; the old one stays observable in [seen]. *)
Definition upd_fs (f : FS → FS) (w : World) : World :=
  {| fs := f (fs w); seen := fs w :: seen w; journal := journal w;
     app_configs := app_configs w; source_configs := source_configs w;
     installed := installed w; trace := trace w |}.

Definition set_journal (j : gmap string core.PendingInstallation) (w : World)
    : World :=
  {| fs := fs w; seen := seen w; journal := j;
     app_configs := app_configs w; source_configs := source_configs w;
     installed := installed w; trace := trace w |}.

Definition set_app_configs (c : gmap string core.AppConfig) (w : World)
    : World :=
  {| fs := fs w; seen := seen w; journal := journal w;
     app_configs := c; source_configs := source_configs w;
     installed := installed w; trace := trace w |}.

Definition set_source_configs (c : gmap string core.SourceValue) (w : World)
    : World :=
  {| fs := fs w; seen := seen w; journal := journal w;
     app_configs := app_configs w; source_configs := c;
     installed := installed w; trace := trace w |}.

Definition set_installed (c : gmap string string) (w : World) : World :=
  {| fs := fs w; seen := seen w; journal := journal w;
     app_configs := app_configs w; source_configs := source_configs w;
     installed := c; trace := trace w |}.

Definition on_world (f : World → World) (st : Run) : Run :=
  {| self := self st; world := f (world st) |}.

Definition on_self (f : InstallableApp → InstallableApp) (st : Run) : Run :=
  {| self := f (self st); world := world st |}.

(** The number of events so far: the time the environment is asked at. *)
Definition now (st : Run) : nat := length (trace (world st)).

(** ** File-system operations *)

Definition is_file (s : FS) (p : string) : bool :=
  bool_decide (is_Some (files s !! p)).

Definition is_dir (s : FS) (p : string) : bool := bool_decide (p ∈ dirs s).

Definition exists_at (s : FS) (p : string) : bool := is_file s p || is_dir s p.

Definition add_dir (p : string) (s : FS) : FS :=
  {| files := files s; dirs := {[p]} ∪ dirs s |}.

Definition put_file (p : string) (f : File) (s : FS) : FS :=
  {| files := <[p := f]> (files s); dirs := dirs s |}.

Definition append_file (p : string) (chunk : list Byte.byte) (s : FS) : FS :=
  {| files := alter (λ f, {| data := data f ++ chunk; perm := perm f |}) p
                (files s);
     dirs := dirs s |}.

(** [os.Create] opens with O_CREATE|O_TRUNC: an existing file is emptied and
    keeps its mode, a new one gets mode 0666. *)
Definition truncate_file (p : string) (s : FS) : FS :=
  put_file p {| data := [];
                perm := match files s !! p with
                        | Some f => perm f
                        | None => 438
                        end |} s.

Definition move_file (src dst : string) (s : FS) : FS :=
  match files s !! src with
  | Some f => {| files := <[dst := f]> (delete src (files s)); dirs := dirs s |}
  | None => s
  end.

Definition chmod_file (p : string) (mode : Z) (s : FS) : FS :=
  {| files := alter (λ f, {| data := data f; perm := mode |}) p (files s);
     dirs := dirs s |}.

(** [q] is [p] or lies below the directory [p]. *)
Definition under (p q : string) : bool :=
  String.eqb p q || String.prefix (p +:+ "/") q.

Definition remove_all (p : string) (s : FS) : FS :=
  {| files := filter (λ kv, under p kv.1 = false) (files s);
     dirs := filter (λ q, under p q = false) (dirs s) |}.

(** ** Paths: Go's [path.Join] and [path.Dir] *)

Fixpoint drop_while {A} (f : A → bool) (l : list A) : list A :=
  match l with
  | [] => []
  | a :: l' => if f a then drop_while f l' else l
  end.

Definition is_slash (c : ascii) : bool := Ascii.eqb c "/"%char.

(** [path.Dir]: everything before the last element, without the slashes
    that end it; [.] when there is no slash, [/] when nothing else is
    left.  (Go also cleans the result, which changes nothing for the clean
    paths [core.GetAppPaths] hands out.) *)
Definition path_Dir (p : string) : string :=
  let cs := String.list_ascii_of_string p in
  let through_slash := rev (drop_while (λ c, negb (is_slash c)) (rev cs)) in
  let stripped := rev (drop_while is_slash (rev through_slash)) in
  match through_slash, stripped with
  | [], _ => "."
  | _, [] => "/"
  | _, _ => String.string_of_list_ascii stripped
  end.

(** [path.Join] of two elements: empty elements are ignored, the others are
    joined by a slash.  (Cleaning again changes nothing for clean
    elements.) *)
Definition path_Join (a b : string) : string :=
  if String.eqb a "" then b
  else if String.eqb b "" then a
  else a +:+ "/" +:+ b.

(** ** The pipeline *)

(** The two revisions of [Download] in the repository. *)
Inductive Revision :=
| Staged   (** temporary file, then rename *)
| InPlace. (** [os.Create] on the bundle path *)

Definition os_ModePerm : Z := 511.

Section Pipeline.

Variable env : Env.
Variable revision : Revision.

(** One call that may fail: it fails when the environment says so or when
    the state does not allow it ([pre]); otherwise it has its effect. *)
Definition call (op : Op) (pre : World → bool) (eff : World → World)
    : M unit := λ st,
  let ok := negb (fault env (now st) op) && pre (world st) in
  let w1 := log (EvCall op ok) (world st) in
  if ok then (Ok tt, {| self := self st; world := eff w1 |})
  else (Err op, {| self := self st; world := w1 |}).

(** A call whose result the program throws away. *)
Definition call_ (op : Op) (pre : World → bool) (eff : World → World)
    (st : Run) : Run :=
  (call op pre eff st).2.

(** Modelled from the spec: [utils.TimeNowSeconds] reads the clock. *)
Definition utils_TimeNowSeconds (st : Run) : Z := clock env (now st).

(** Go's [os] package: each function fails when the environment refuses it
    or when the file system is not in a state for it. *)
Definition os_MkdirAll (p : string) (mode : Z) : M unit :=
  call (OpMkdirAll p) (λ w, negb (is_file (fs w) p)) (upd_fs (add_dir p)).

Definition os_Mkdir (p : string) (mode : Z) : M unit :=
  call (OpMkdir p) (λ w, negb (exists_at (fs w) p)) (upd_fs (add_dir p)).

(** Modelled from the spec: [utils.CreateTempFile] is not among the
    sources.  It creates a new, empty file colocated with [p]; the system
    picks the name, which is not [p] and names nothing that exists (the
    file is opened exclusively), and the file is private (mode 0600). *)
Definition utils_CreateTempFile (p : string) : M string := λ st,
  let t := temp_name env (now st) p in
  (call (OpCreateTemp p)
     (λ w, negb (String.eqb t p) && negb (exists_at (fs w) t))
     (upd_fs (put_file t {| data := []; perm := 384 |})) ;;
   mret t) st.

Definition os_Create (p : string) : M string :=
  call (OpCreate p) (λ w, negb (is_dir (fs w) p)) (upd_fs (truncate_file p)) ;;
  mret p.

(** [Write] of [os.File]. *)
Definition file_Write (p : string) (chunk : list Byte.byte) : M unit :=
  call (OpWrite p (length chunk)) (λ w, is_file (fs w) p)
    (upd_fs (append_file p chunk)).

(** [Close] of a file or of a stream; the program ignores its result. *)
Definition close (what : string) : Run → Run :=
  call_ (OpClose what) (λ _, true) id.

Definition os_Rename (src dst : string) : M unit :=
  call (OpRename src dst)
    (λ w, is_file (fs w) src && negb (is_dir (fs w) dst))
    (upd_fs (move_file src dst)).

Definition os_Chmod (p : string) (mode : Z) : M unit :=
  call (OpChmod p mode) (λ w, exists_at (fs w) p)
    (upd_fs (chmod_file p mode)).

Definition os_RemoveAll (p : string) : Run → Run :=
  call_ (OpRemoveAll p) (λ _, true) (upd_fs (remove_all p)).

(** Modelled from the spec: [Download] of [core.Asset] opens a streaming
    read of the asset's bytes; the environment decides which chunks the
    stream will deliver. *)
Definition Asset_Download (a : core.Asset) : M (list (list Byte.byte)) :=
  λ st,
  (call (OpAssetDownload a) (λ _, true) id ;;
   mret (produced env (now st) (OpAssetDownload a))) st.

(** [func (x *InstallableApp) Write(data []byte) (n int, err error)]. *)
Definition Write (data : list Byte.byte) : M Z := λ st,
  let l := Z.of_nat (length data) in
  (Ok l, on_self (λ x, set_Progress (wrap64 (Progress x + l)) x) st).

(** [io.MultiWriter(file, x).Write]: the file first, then [x]. *)
Definition MultiWriter_Write (file : string) (chunk : list Byte.byte)
    : M unit :=
  file_Write file chunk ;;
  _ ← Write chunk;
  mret tt.

(** [io.Copy(mw, data)]: every non-empty chunk read is written; the read
    after the last chunk reports the end of the stream, or an error. *)
Fixpoint io_Copy (write : list Byte.byte → M unit) (src : core.Asset)
    (chunks : list (list Byte.byte)) : M unit :=
  match chunks with
  | [] => call (OpRead src) (λ _, true) id
  | c :: rest =>
      (if decide (c = []) then mret tt else write c) ;;
      io_Copy write src rest
  end.

(** [func (x *InstallableApp) Download() error]. *)
Definition Download : M unit := λ st,
  let x := self st in
  let p := paths x in
  (os_MkdirAll (core.Dir p) os_ModePerm ;;
   os_MkdirAll (path_Dir (core.Desktop p)) os_ModePerm ;;
   match revision with
   | Staged =>
       tempFile ← utils_CreateTempFile (core.AppImage p);
       deferring (close tempFile) (
         data ← Asset_Download (Asset x);
         deferring (close (core.DownloadUrl (Asset x))) (
           io_Copy (MultiWriter_Write tempFile) (Asset x) data ;;
           os_Rename tempFile (core.AppImage p) ;;
           os_Chmod (core.AppImage p) 493))
   | InPlace =>
       file ← os_Create (core.AppImage p);
       deferring (close file) (
         data ← Asset_Download (Asset x);
         deferring (close (core.DownloadUrl (Asset x))) (
           io_Copy (MultiWriter_Write file) (Asset x) data ;;
           os_Chmod (core.AppImage p) 493))
   end) st.

(** Modelled from the spec: [core.DeflateAppImage] unpacks the bundle into
    the scratch directory.  It fails when the environment says so or when
    the bundle or the directory is missing. *)
Definition core_DeflateAppImage (bundle scratch : string) : M string :=
  call (OpDeflateAppImage bundle scratch)
    (λ w, is_file (fs w) bundle && is_dir (fs w) scratch) id ;;
  mret scratch.

(** Modelled from the spec: [ExtractMetadata] locates the icon and the
    desktop descriptor in the extracted tree, or fails. *)
Definition ExtractMetadata (deflated : string) : M string :=
  call (OpExtractMetadata deflated) (λ w, is_dir (fs w) deflated) id ;;
  mret deflated.

(** Modelled from the spec: [CopyIconFile] writes the icon to the icon
    path; its bytes are the collaborator's business. *)
Definition CopyIconFile (p : core.AppPaths) : M unit := λ st,
  let op := OpCopyIconFile (core.Icon p) in
  call op (λ _, true)
    (upd_fs (put_file (core.Icon p)
               {| data := concat (produced env (now st) op); perm := 420 |}))
    st.

(** Modelled from the spec: [InstallDesktopFile] writes the desktop entry
    to the desktop-entry path. *)
Definition InstallDesktopFile (p : core.AppPaths) : M unit := λ st,
  let op := OpInstallDesktopFile (core.Desktop p) in
  call op (λ _, true)
    (upd_fs (put_file (core.Desktop p)
               {| data := concat (produced env (now st) op); perm := 420 |}))
    st.

(** [func (x *InstallableApp) Integrate() error]. *)
Definition Integrate : M unit := λ st,
  let p := paths (self st) in
  let tempDir := path_Join (core.Dir p) "temp" in
  (os_Mkdir tempDir os_ModePerm ;;
   deflated ← core_DeflateAppImage (core.AppImage p) tempDir;
   deferring (os_RemoveAll tempDir) (
     metadata ← ExtractMetadata deflated;
     CopyIconFile p ;;
     InstallDesktopFile p)) st.

(** Modelled from the spec: [core.SaveAppConfig] persists the app config
    at its path. *)
Definition core_SaveAppConfig (p : string) (app : core.AppConfig) : M unit :=
  call (OpSaveAppConfig p) (λ _, true)
    (λ w, set_app_configs (<[p := app]> (app_configs w)) w).

(** Modelled from the spec: [core.SaveSourceConfig] ([SaveAppSourceConfig]
    in the other revision) persists the source descriptor at its path. *)
Definition core_SaveSourceConfig (p : string) (src : core.SourceValue)
    : M unit :=
  call (OpSaveSourceConfig p) (λ _, true)
    (λ w, set_source_configs (<[p := src]> (source_configs w)) w).

(** Modelled from the spec: [core.ReadConfig] and [core.SaveConfig] read
    and write the global registry, whose [Installed] field maps app ids to
    directories. *)
Definition core_ReadConfig : M (gmap string string) := λ st,
  (call OpReadConfig (λ _, true) id ;; mret (installed (world st))) st.

(** Modelled from the spec: see [core_ReadConfig]. *)
Definition core_SaveConfig (config : gmap string string) : M unit :=
  call OpSaveConfig (λ _, true) (set_installed config).

(** [func (x *InstallableApp) SaveConfig() error]. *)
Definition SaveConfig : M unit := λ st,
  let x := self st in
  let p := paths x in
  (core_SaveAppConfig (core.Config p) (App x) ;;
   core_SaveSourceConfig (core.SourceConfig p) (Source x) ;;
   config ← core_ReadConfig;
   core_SaveConfig (<[app_id x := core.Dir p]> config)) st.

(** [func (x *InstallableApp) PrintStatus()].  The line is kept
    unformatted; [elapsed] is [utils.TimeNowSeconds() - x.StartedAt]. *)
Definition status_line (x : InstallableApp) (elapsed : Z) : StatusLine :=
  let index := wrap64 (Index x + 1) in
  match Status x with
  | InstallableAppFailed =>
      LineFailed index (Count x) (core.Version (App x)) elapsed
  | InstallableAppDownloading =>
      LineDownloading index (Count x) (PrintCycle x) (core.Version (App x))
        (Progress x) (core.Size (Asset x)) elapsed
  | InstallableAppIntegrating =>
      LineIntegrating index (Count x) (PrintCycle x) (core.Version (App x))
        elapsed
  | InstallableAppInstalled =>
      LineInstalled index (Count x) (core.Version (App x)) elapsed
  end.

Definition PrintStatus (st : Run) : Run :=
  let st := if decide (PrintCycle (self st) > 0)
            then on_world (log EvErase) st else st in
  let st := on_self (λ x, set_PrintCycle (wrap64 (PrintCycle x + 1)) x) st in
  let elapsed := wrap64 (utils_TimeNowSeconds st - StartedAt (self st)) in
  on_world (log (EvPrint (status_line (self st) elapsed))) st.

(** [x.StartStatusTicker()] and the deferred [ticker.Stop()].  The lines
    the ticker prints in between come from a concurrent goroutine and are
    not part of this sequential model. *)
Definition StartStatusTicker (st : Run) : Run :=
  on_world (log (EvTickerStart (Index (self st)))) st.

Definition ticker_Stop (st : Run) : Run :=
  on_world (log (EvTickerStop (Index (self st)))) st.

(** The assignment [x.Status = s]. *)
Definition assign_Status (s : InstallableAppStatus) (st : Run) : Run :=
  on_world (log (EvStatus (Index (self st)) s)) (on_self (set_Status s) st).

(** [func (x *InstallableApp) Install() error]. *)
Definition Install : M unit :=
  lift StartStatusTicker ;;
  deferring ticker_Stop (
    Download ;;
    lift (assign_Status InstallableAppIntegrating) ;;
    Integrate ;;
    SaveConfig).

(** Modelled from the spec: [core.UpdateTransactions] is not among the
    sources.  Within one critical section it decodes the journal, applies
    the mutator and writes the result back.  A journal that cannot be read
    or written is fatal for the process; such runs are not described
    here. *)
Definition core_UpdateTransactions
    (mutator : gmap string core.PendingInstallation →
               gmap string core.PendingInstallation) (st : Run) : Run :=
  let after := mutator (journal (world st)) in
  on_world (λ w, log (EvUpdateTransactions after) (set_journal after w)) st.

(** Modelled from the spec: [utils.LogError] reports the error. *)
Definition utils_LogError (e : error) (st : Run) : Run :=
  on_world (log (EvLogError e)) st.

(** The entry the batch runner registers for [x]. *)
Definition pending_of (x : InstallableApp) : core.PendingInstallation :=
  {| core.InvolvedDirs := [core.Dir (paths x)];
     core.InvolvedFiles := [core.Desktop (paths x)] |}.

(** The statements of the loop body up to the call of [x.Install()]. *)
Definition prelude (i count : Z) (st : Run) : Run :=
  let st := on_self (set_Index i) st in
  let st := on_self (set_Count count) st in
  let st := on_self (set_StartedAt (utils_TimeNowSeconds st)) st in
  let st := assign_Status InstallableAppDownloading st in
  let st := PrintStatus st in
  core_UpdateTransactions
    (λ transactions, <[app_id (self st) := pending_of (self st)]> transactions)
    st.

(** One turn of the loop of [InstallApps] for [x := &apps[i]]; the
    boolean is [false] when the turn ends in [break]. *)
Definition iteration (i count : Z) (x : InstallableApp) (w : World)
    : bool * InstallableApp * World :=
  let st := prelude i count {| self := x; world := w |} in
  match Install st with
  | (Err err, st) =>
      let st := assign_Status InstallableAppFailed st in
      let st := PrintStatus st in
      let st := utils_LogError err st in
      (false, self st, world st)
  | (Ok _, st) =>
      let st := assign_Status InstallableAppInstalled st in
      let st := PrintStatus st in
      let st := core_UpdateTransactions
                  (λ transactions, delete (app_id (self st)) transactions)
                  st in
      (true, self st, world st)
  end.

(** [for i := range apps { ... }] with its counter [success]; the slice
    is updated in place, so the loop returns it. *)
Fixpoint loop (count i success : Z) (apps : list InstallableApp) (w : World)
    : Z * list InstallableApp * World :=
  match apps with
  | [] => (success, [], w)
  | x :: rest =>
      let '(continue, x', w') := iteration i count x w in
      if continue
      then let '(s, rest', w'') := loop count (i + 1) (success + 1) rest w' in
           (s, x' :: rest', w'')
      else (success, x' :: rest, w')
  end.

(** [func InstallApps(apps []InstallableApp) (int, int)]. *)
Definition InstallApps (apps : list InstallableApp) (w : World)
    : (Z * Z) * list InstallableApp * World :=
  let count := Z.of_nat (length apps) in
  let '(success, apps', w') := loop count 0 0 apps w in
  ((success, count - success), apps', w').

End Pipeline.

(** * Notions used in the statements *)

(** ** Relations between the state before and the state after *)

(** [m] takes every state to a state related to it by [R]. *)
Definition respects {A} (R : relation Run) (m : M A) : Prop :=
  ∀ st r st', m st = (r, st') → R st st'.

(** [x'] is [x] up to the progress counter. *)
Definition same_but_Progress (x x' : InstallableApp) : Prop :=
  x' = set_Progress (Progress x') x.

(** A stage of the pipeline keeps the receiver up to its progress counter,
    keeps the journal, and adds to the trace only events accepted by [P]. *)
Definition stage_rel (P : Event → bool) (st st' : Run) : Prop :=
  same_but_Progress (self st) (self st') ∧
  journal (world st') = journal (world st) ∧
  ∃ new, trace (world st') = trace (world st) ++ new ∧
         Forall (λ e, P e = true) new.

(** Calls of the configuration store: what [SaveConfig] is made of. *)
Definition is_config_op (op : Op) : bool :=
  match op with
  | OpSaveAppConfig _ | OpSaveSourceConfig _ | OpReadConfig | OpSaveConfig =>
      true
  | _ => false
  end.

Definition is_call (e : Event) : bool :=
  match e with EvCall _ _ => true | _ => false end.

(** A call, but not one of the configuration store. *)
Definition is_install_call (e : Event) : bool :=
  match e with EvCall op _ => negb (is_config_op op) | _ => false end.

(** The receiver is not written at all. *)
Definition self_rel (st st' : Run) : Prop := self st' = self st.

(** The file at [final] in state [s] is the one of state [s0], or it is a
    complete file with the bytes [D]. *)
Definition old_or_complete (final : string) (D : list Byte.byte) (s0 s : FS)
    : Prop :=
  files s !! final = files s0 !! final ∨
  ∃ f, files s !! final = Some f ∧ data f = D.

(** Between [st] and [st'], every state of the file system showed at
    [final] either what was there in [st] or a complete file. *)
Definition atomic_rel (final : string) (D : list Byte.byte) (st st' : Run)
    : Prop :=
  ∃ news, observed (world st') = news ++ observed (world st) ∧
          Forall (old_or_complete final D (fs (world st))) news.

(** ** The steps of the batch runner *)

(** The scratch directory of [x]. *)
Definition scratch_dir (x : InstallableApp) : string :=
  path_Join (core.Dir (paths x)) "temp".

(** What one call of [PrintStatus] in state [st] shows. *)
Definition print_events env (st : Run) : list Event :=
  (if decide (PrintCycle (self st) > 0) then [EvErase] else []) ++
  [EvPrint (status_line
     (set_PrintCycle (wrap64 (PrintCycle (self st) + 1)) (self st))
     (wrap64 (clock env (length (trace (world st) ++
                 if decide (PrintCycle (self st) > 0) then [EvErase] else []))
              - StartedAt (self st))))].

Definition is_display (e : Event) : bool :=
  match e with EvErase | EvPrint _ => true | _ => false end.

(** Several events at once. *)
Definition logs (l : list Event) (w : World) : World :=
  {| fs := fs w; seen := seen w; journal := journal w;
     app_configs := app_configs w; source_configs := source_configs w;
     installed := installed w; trace := trace w ++ l |}.

(** The requests of [apps] are served in order, from index [i], and the
    [Install] of each one succeeds; the result is the slice and the world
    after the last of them. *)
Fixpoint run_successes env revision (count i : Z)
    (apps : list InstallableApp) (w : World)
    : option (list InstallableApp * World) :=
  match apps with
  | [] => Some ([], w)
  | x :: rest =>
      let '(continue, x', w') := iteration env revision i count x w in
      if continue
      then match run_successes env revision count (i + 1) rest w' with
           | Some (rest', w'') => Some (x' :: rest', w'')
           | None => None
           end
      else None
  end.

(** The events of a run in which [x.Status] is assigned, for the request
    with index [i]. *)
Definition status_written (i : Z) (e : Event) : option InstallableAppStatus :=
  match e with
  | EvStatus j s => if decide (j = i) then Some s else None
  | _ => None
  end.

Definition status_writes (i : Z) (t : list Event)
    : list InstallableAppStatus :=
  omap (status_written i) t.

(** The course of one request's [Status] over a batch, from the assignments
    [ws] made to it: none, when the request was not reached, or else
    [Downloading] first and [Installed] or [Failed] last. *)
Definition status_course (ws : list InstallableAppStatus)
    (x x' : InstallableApp) : Prop :=
  (ws = [] ∧ x' = x) ∨
  (ws = [InstallableAppDownloading; InstallableAppIntegrating;
         InstallableAppInstalled] ∧ Status x' = InstallableAppInstalled) ∨
  (ws = [InstallableAppDownloading; InstallableAppFailed] ∧
   Status x' = InstallableAppFailed) ∨
  (ws = [InstallableAppDownloading; InstallableAppIntegrating;
         InstallableAppFailed] ∧ Status x' = InstallableAppFailed).

(** A call of the configuration store. *)
Definition is_config_call (e : Event) : bool :=
  match e with EvCall op _ => is_config_op op | _ => false end.

(** An event of a turn in which [SaveConfig] is not called and the journal
    is updated only to [registered]. *)
Definition keeps_pending
    (registered : gmap string core.PendingInstallation) (e : Event) : Prop :=
  is_config_call e = false ∧
  ∀ j, e = EvUpdateTransactions j → j = registered.

(** The transitions the spec allows: Downloading to Integrating,
    Integrating to Installed, and either of the two to Failed. *)
Definition allowed_transition (a b : InstallableAppStatus) : bool :=
  match a, b with
  | InstallableAppDownloading, InstallableAppIntegrating
  | InstallableAppIntegrating, InstallableAppInstalled
  | InstallableAppDownloading, InstallableAppFailed
  | InstallableAppIntegrating, InstallableAppFailed => true
  | _, _ => false
  end.

(** Every step of the sequence [l] of statuses is an allowed transition. *)
Fixpoint follows_transitions (l : list InstallableAppStatus) : bool :=
  match l with
  | a :: (b :: _) as rest => allowed_transition a b && follows_transitions rest
  | _ => true
  end.

(** ** Sample requests and environments *)

Definition sample_paths (id : string) : core.AppPaths :=
  {| core.Dir := "apps/" +:+ id;
     core.Desktop := "applications/" +:+ id +:+ ".desktop";
     core.AppImage := "apps/" +:+ id +:+ "/" +:+ id +:+ ".AppImage";
     core.Icon := "apps/" +:+ id +:+ "/" +:+ id +:+ ".png";
     core.Config := "apps/" +:+ id +:+ "/config.json";
     core.SourceConfig := "apps/" +:+ id +:+ "/source.json" |}.

(** A request as the install commands build it, for an asset that declares
    [size] bytes. *)
Definition sample_request (id : string) (size : Z) : InstallableApp :=
  new_InstallableApp
    {| core.Id := id; core.Name := id; core.Version := "v1";
       core.Source := "http"; core.Paths := sample_paths id |}
    (core.HttpSource ("http://host/" +:+ id))
    {| core.AssetName := id +:+ ".AppImage";
       core.DownloadUrl := "http://host/" +:+ id;
       core.Size := size |}.

Definition empty_world : World :=
  {| fs := {| files := ∅; dirs := ∅ |}; seen := [];
     journal := ∅; app_configs := ∅; source_configs := ∅; installed := ∅;
     trace := [] |}.

(** Every stream delivers three bytes, in two chunks. *)
Definition three_bytes : list (list Byte.byte) := [[x01; x02]; [x03]].

(** Nothing fails. *)
Definition quiet : Env :=
  {| fault := λ _ _, false;
     clock := λ n, Z.of_nat n;
     temp_name := λ _ p, p +:+ ".tmp";
     produced := λ _ _, three_bytes |}.

(** [core.DeflateAppImage] fails for the bundle [bundle], nothing else
    does. *)
Definition deflate_fails (bundle : string) : Env :=
  {| fault := λ _ op,
       match op with
       | OpDeflateAppImage b _ => String.eqb b bundle
       | _ => false
       end;
     clock := λ n, Z.of_nat n;
     temp_name := λ _ p, p +:+ ".tmp";
     produced := λ _ _, three_bytes |}.


(** * Notions used in the further properties *)

(** ** What a run keeps *)

(** The part [f] of the world is the same before and after. *)
Definition keeps {A} (f : World → A) (st st' : Run) : Prop :=
  f (world st') = f (world st).

(** The configuration store: the per-app files and the registry. *)
Definition config_store (w : World)
    : gmap string core.AppConfig * gmap string core.SourceValue *
      gmap string string :=
  (app_configs w, source_configs w, installed w).

Definition is_ticker (e : Event) : bool :=
  match e with EvTickerStart _ | EvTickerStop _ => true | _ => false end.

(** ** Handles *)

(** What an event adds to the number of open handles: a successful
    [utils.CreateTempFile], [os.Create] or [Asset.Download] opens one, a
    [Close] gives one back. *)
Definition handle_delta (e : Event) : Z :=
  match e with
  | EvCall (OpCreateTemp _) true
  | EvCall (OpCreate _) true
  | EvCall (OpAssetDownload _) true => 1
  | EvCall (OpClose _) _ => -1
  | _ => 0
  end.

(** The handles opened and not closed in the course of a trace. *)
Definition open_handles (t : list Event) : Z :=
  foldr (λ e n, handle_delta e + n) 0 t.

(** ** More sample environments *)

(** The calls accepted by [bad] fail, nothing else does. *)
Definition failing (bad : Op → bool) : Env :=
  {| fault := λ _ op, bad op;
     clock := λ n, Z.of_nat n;
     temp_name := λ _ p, p +:+ ".tmp";
     produced := λ _ _, three_bytes |}.

Definition is_chmod (op : Op) : bool :=
  match op with OpChmod _ _ => true | _ => false end.

Definition is_read (op : Op) : bool :=
  match op with OpRead _ => true | _ => false end.

(** A world in which the bundle path of the app [id] holds the bundle [old]
    of an earlier installation. *)
Definition world_with_bundle (id : string) (old : list Byte.byte) : World :=
  upd_fs (put_file (core.AppImage (sample_paths id))
            {| data := old; perm := 493 |}) empty_world.

Definition is_desktop_install (op : Op) : bool :=
  match op with OpInstallDesktopFile _ => true | _ => false end.

(** The registry cannot be written, everything else works. *)
Definition registry_write_fails : Env :=
  {| fault := λ _ op, match op with OpSaveConfig => true | _ => false end;
     clock := λ n, Z.of_nat n;
     temp_name := λ _ p, p +:+ ".tmp";
     produced := λ _ _, three_bytes |}.

(** * The commands *)

(** ** What the commands have in common *)

(** [core.GithubApiRelease], with the fields the commands read.  Of a
    release asset ([core.GithubApiReleaseAsset]) they read [Name] and
    [DownloadUrl] and take its [ToAsset()]; it is represented by that
    [core.Asset]. *)
Record GithubApiRelease := mkGithubApiRelease {
  TagName : string;
  Assets : list core.Asset
}.

(** The errors a command returns: the ones it makes itself, the error of a
    call of the world of the pipeline, and the errors its collaborators
    hand up, which are known by their text only. *)
Inductive CommandError :=
| ErrNoUrlSpecified
| ErrExcessiveArguments
| ErrInvalidGithubRepoUrl
| ErrInvalidApplicationId
| ErrNoValidAsset (tag : string)
| ErrNoBinary (tag : string)
| ErrCall (op : Op)
| ErrCollaborator (what : string).

(** What the commands write with [utils.LogDebug], [utils.LogInfo],
    [utils.LogWarning], [utils.LogLn] and a [utils.LogTable]. *)
Inductive Notice :=
| LogDebug (msg : string)
| LogInfo (msg : string)
| LogWarning (msg : string)
| LogLn
| LogTable (rows : list (list string)).

(** [fmt.Sprintf] with the verb for a boolean. *)
Definition fmt_bool (b : bool) : string := if b then "true" else "false".

(** [strings.HasSuffix]. *)
Definition strings_HasSuffix (s suffix : string) : bool :=
  let n := String.length s in
  let m := String.length suffix in
  (m <=? n)%nat && String.eqb (String.substring (n - m) m s) suffix.

(** ** [SelfUpdateCommand] *)

(** The loop [for _, x := range release.Assets] takes the address of its
    variable.  Since Go 1.22 every iteration has a variable of its own;
    before, the loop has one variable that every iteration assigns.  Which
    one holds is decided by the [go] line of the module file, which is not
    among the sources, so both are described. *)
Inductive LoopVarSemantics :=
| PerIteration
| PerLoop.

(** A pointer to the loop variable: the variable of iteration [i], or the
    one variable of the loop. *)
Inductive VarPtr :=
| IterationVar (i : nat)
| TheLoopVar.

(** The loop: [x] is the value the loop variable has, [asset] the pointer
    declared before the loop. *)
Fixpoint range_Assets (sem : LoopVarSemantics) (arch : string) (i : nat)
    (todo : list core.Asset) (asset : option VarPtr) (x : option core.Asset)
    : option VarPtr * option core.Asset :=
  match todo with
  | [] => (asset, x)
  | a :: rest =>
      let asset :=
        if strings_HasSuffix (core.AssetName a) arch
        then Some (match sem with
                   | PerIteration => IterationVar i
                   | PerLoop => TheLoopVar
                   end)
        else asset in
      range_Assets sem arch (S i) rest asset (Some a)
  end.

(** What a pointer to the loop variable points to after the loop. *)
Definition deref (assets : list core.Asset) (x : option core.Asset)
    (p : VarPtr) : option core.Asset :=
  match p with
  | IterationVar i => assets !! i
  | TheLoopVar => x
  end.

(** The asset the command goes on with; [None] when the pointer is nil. *)
Definition selected_asset (sem : LoopVarSemantics) (arch : string)
    (assets : list core.Asset) : option core.Asset :=
  let '(asset, x) := range_Assets sem arch 0 assets None None in
  asset ≫= deref assets x.

Section SelfUpdate.

Variable env : Env.
Variable sem : LoopVarSemantics.
(** [color.CyanString] and [utils.LogTickPrefix]. *)
Variable color_CyanString : string → string.
Variable utils_LogTickPrefix : string.

(** [http.Get] of the asset's URL followed by the reads of the body: the
    streaming read that [Asset.Download] is in the pipeline. *)
Definition http_Get (asset : core.Asset) : M (list (list Byte.byte)) :=
  Asset_Download env asset.

(** The part of the action that acts on the world, from [http.Get] on.
    The deferred calls run in the reverse order: first the file is closed,
    then the body. *)
Definition replace_binary (asset : core.Asset) (argv0 : string) : M unit :=
  data ← http_Get asset;
  deferring (close env (core.DownloadUrl asset)) (
    file ← os_Create env argv0;
    deferring (close env file) (
      io_Copy env (file_Write env file) asset data)).

(** [SelfUpdateCommand.Action].  [latest] is what
    [core.GithubApiFetchLatestRelease] returns (a release, or the text of
    an error), [arch] what
    [utils.GetSystemArch] returns and [argv0] is [os.Args[0]].  The
    command has no receiver: the receiver component of the state is
    neither read nor written. *)
Definition SelfUpdateCommand_Action
    (latest : GithubApiRelease + string) (arch argv0 : string)
    (st : Run) : option CommandError * list Notice * Run :=
  match latest with
  | inr err => (Some (ErrCollaborator err), [], st)
  | inl release =>
      match selected_asset sem arch (Assets release) with
      | None => (Some (ErrNoBinary (TagName release)), [], st)
      | Some asset =>
          let updating :=
            LogInfo ("Updating to version " +:+
                     color_CyanString (TagName release) +:+ "...") in
          match replace_binary asset argv0 st with
          | (Err op, st') => (Some (ErrCall op), [updating], st')
          | (Ok _, st') =>
              (None,
               [updating;
                LogInfo (utils_LogTickPrefix +:+ " Updated to version " +:+
                         color_CyanString (TagName release) +:+
                         " successfully!")],
               st')
          end
      end
  end.

End SelfUpdate.

(** ** [InstallGithubCommand] *)

(** The flags of the command, as [ctx.String] and [ctx.Bool] return
    them. *)
Record Flags := mkFlags {
  flag_id : string;
  flag_name : string;
  flag_tag : string;
  flag_prerelease : bool;
  flag_assume_yes : bool
}.

(** The functions of [core], [utils] and [color] the command calls, which
    are not among the sources.  Nothing is assumed of them.  [Config] is
    [core.Config], [Stdin] the state of the reader on [os.Stdin]; an error
    of a collaborator is given by its text. *)
Record Collaborators := mkCollaborators {
  Config : Type;
  Stdin : Type;
  core_GetConfig : World → (Config + string) * World;
  config_Installed : Config → gmap string string;
  core_ParseGithubRepoUrl : string → bool * string * string;
  core_ConstructAppId : string → string → string;
  utils_CleanId : string → string;
  FetchAptRelease : core.SourceValue → GithubApiRelease + string;
  core_ChooseAptAppImageAsset : list core.Asset → Z * core.Asset;
  core_GetAppPaths : Config → string → string → core.AppPaths;
  utils_PromptYesNoInput : Stdin → string → (bool + string) * Stdin;
  color_CyanString : string → string;
  utils_LogRightArrowPrefix : string;
  utils_LogTickPrefix : string;
  core_GithubSourceId : string
}.

(** How a question to the user ends. *)
Inductive Answer :=
| Proceed
| Aborted
| PromptError (err : CommandError).

Section InstallGithub.

Variable env : Env.
Variable revision : Revision.
Variable c : Collaborators.

(** The block [if !assumeYes { proceed, err := utils.PromptYesNoInput(..)
    .. }], which the action has twice. *)
Definition confirm (assumeYes : bool) (question : string) (stdin : Stdin c)
    : Answer * Stdin c :=
  if assumeYes then (Proceed, stdin)
  else
    match utils_PromptYesNoInput c stdin question with
    | (inr err, stdin) => (PromptError (ErrCollaborator err), stdin)
    | (inl true, stdin) => (Proceed, stdin)
    | (inl false, stdin) => (Aborted, stdin)
    end.

(** The action from the summary table on. *)
Definition install_confirmed (assumeYes : bool) (appId appName : string)
    (source : core.SourceValue) (release : GithubApiRelease)
    (asset : core.Asset) (appPaths : core.AppPaths)
    (out : list Notice) (stdin : Stdin c) (w : World)
    : option CommandError * list Notice * Stdin c * World :=
  let arrow := utils_LogRightArrowPrefix c in
  let summary :=
    [[arrow; "Name"; color_CyanString c appName];
     [arrow; "Identifier"; color_CyanString c appId];
     [arrow; "Version"; color_CyanString c (TagName release)];
     [arrow; "Filename"; color_CyanString c (core.AssetName asset)];
     [arrow; "AppImage"; color_CyanString c (core.AppImage appPaths)];
     [arrow; ".desktop file"; color_CyanString c (core.Desktop appPaths)]] in
  let out := out ++ [LogLn; LogTable summary; LogLn] in
  match confirm assumeYes "Do you want to proceed?" stdin with
  | (PromptError err, stdin) => (Some err, out, stdin, w)
  | (Aborted, stdin) => (None, out ++ [LogWarning "aborted..."], stdin, w)
  | (Proceed, stdin) =>
      let app := {| core.Id := appId; core.Name := appName;
                    core.Version := TagName release;
                    core.Source := core_GithubSourceId c;
                    core.Paths := appPaths |} in
      let out := out ++ [LogLn] in
      let '((installed, _), _, w) :=
        InstallApps env revision [new_InstallableApp app source asset] w in
      if decide (installed ≠ 1) then (None, out, stdin, w)
      else
        (None,
         out ++ [LogLn;
                 LogInfo (utils_LogTickPrefix c +:+ " Installed " +:+
                          color_CyanString c (core.Name app) +:+
                          " successfully!")],
         stdin, w)
  end.

(** [InstallGithubCommand.Action].  [args] is [ctx.Args()].  The action at
    hand is written against the revision of install.go that keeps the
    paths next to the config; here they are inside it, see
    [core.AppConfig]. *)
Definition InstallGithubCommand_Action (args : list string) (flags : Flags)
    (stdin : Stdin c) (w : World)
    : option CommandError * list Notice * Stdin c * World :=
  match core_GetConfig c w with
  | (inr err, w) => (Some (ErrCollaborator err), [], stdin, w)
  | (inl config, w) =>
      match args with
      | [] => (Some ErrNoUrlSpecified, [], stdin, w)
      | _ :: _ :: _ => (Some ErrExcessiveArguments, [], stdin, w)
      | [url] =>
          let appId := flag_id flags in
          let appName := flag_name flags in
          let tagName := flag_tag flags in
          let prerelease := flag_prerelease flags in
          let assumeYes := flag_assume_yes flags in
          let '(isValidUrl, ghUsername, ghReponame) :=
            core_ParseGithubRepoUrl c url in
          let out :=
            [LogDebug ("argument url: " +:+ url);
             LogDebug ("argument id: " +:+ appId);
             LogDebug ("argument name: " +:+ appName);
             LogDebug ("argument tag: " +:+ tagName);
             LogDebug ("argument prerelease: " +:+ fmt_bool prerelease);
             LogDebug ("argument assume-yes: " +:+ fmt_bool assumeYes);
             LogDebug ("parsed github url valid: " +:+ fmt_bool isValidUrl);
             LogDebug ("parsed github owner: " +:+ ghUsername);
             LogDebug ("parsed github repo: " +:+ ghReponame)] in
          if negb isValidUrl then (Some ErrInvalidGithubRepoUrl, out, stdin, w)
          else
            let appName :=
              if String.eqb appName "" then ghReponame else appName in
            let appId :=
              if String.eqb appId ""
              then core_ConstructAppId c ghUsername ghReponame else appId in
            let appId := utils_CleanId c appId in
            if String.eqb appId ""
            then (Some ErrInvalidApplicationId, out, stdin, w)
            else
              let source :=
                core.GithubSource ghUsername ghReponame tagName prerelease in
              match FetchAptRelease c source with
              | inr err => (Some (ErrCollaborator err), out, stdin, w)
              | inl release =>
                  let out :=
                    out ++ [LogDebug ("selected github tag name: " +:+
                                      TagName release)] in
                  let '(matchLevel, asset) :=
                    core_ChooseAptAppImageAsset c (Assets release) in
                  if decide (matchLevel = 0)
                  then (Some (ErrNoValidAsset (TagName release)), out,
                        stdin, w)
                  else
                    let out :=
                      if decide (matchLevel = 1)
                      then out ++ [LogWarning
                        "no architecture specified in the asset name, cannot determine compatibility"]
                      else out in
                    let appPaths := core_GetAppPaths c config appId appName in
                    match config_Installed c config !! appId with
                    | Some _ =>
                        let out :=
                          out ++ [LogWarning ("application with id " +:+
                                              appId +:+ " already exists")] in
                        match confirm assumeYes
                                "Do you want to re-install this application?"
                                stdin with
                        | (PromptError err, stdin) =>
                            (Some err, out, stdin, w)
                        | (Aborted, stdin) =>
                            (None, out ++ [LogWarning "aborted..."], stdin, w)
                        | (Proceed, stdin) =>
                            install_confirmed assumeYes appId appName source
                              release asset appPaths out stdin w
                        end
                    | None =>
                        install_confirmed assumeYes appId appName source
                          release asset appPaths out stdin w
                    end
              end
      end
  end.

End InstallGithub.

(** ** Sample collaborators *)

(** A user who answers every question with [answer], and collaborators
    that accept every URL and find one asset in every release. *)
Definition sample_collaborators (answer : bool) : Collaborators :=
  {| Config := gmap string string;
     Stdin := nat;
     core_GetConfig := λ w, (inl (installed w), w);
     config_Installed := id;
     core_ParseGithubRepoUrl := λ url, (true, "owner", "foo");
     core_ConstructAppId := λ user repo, repo;
     utils_CleanId := id;
     FetchAptRelease := λ _,
       inl {| TagName := "v1";
              Assets := [Asset (sample_request "foo" 3)] |};
     core_ChooseAptAppImageAsset := λ assets,
       (2, default (Asset (sample_request "foo" 3)) (head assets));
     core_GetAppPaths := λ _ id _, sample_paths id;
     utils_PromptYesNoInput := λ asked _, (inl answer, S asked);
     color_CyanString := id;
     utils_LogRightArrowPrefix := "->";
     utils_LogTickPrefix := "ok";
     core_GithubSourceId := "github" |}.

Definition no_flags : Flags :=
  {| flag_id := ""; flag_name := ""; flag_tag := "";
     flag_prerelease := false; flag_assume_yes := false |}.

(** A release of pho itself: a binary for each of two architectures and a
    file of checksums. *)
Definition sample_binary (name : string) : core.Asset :=
  {| core.AssetName := name;
     core.DownloadUrl := "http://host/" +:+ name;
     core.Size := 3 |}.

Definition sample_release : GithubApiRelease :=
  {| TagName := "v2";
     Assets := [sample_binary "pho-amd64"; sample_binary "pho-arm64";
                sample_binary "checksums.txt"] |}.

Definition yes_flags : Flags :=
  {| flag_id := ""; flag_name := ""; flag_tag := "";
     flag_prerelease := false; flag_assume_yes := true |}.

(** * Reasoning about runs *)

(** ** A relational rule for each construct of the pipeline *)

Section Rules.

Context (R : relation Run) (HR : PreOrder R).

Lemma respects_ret {A} (a : A) : respects R (mret a).
Proof. intros st r st' [= _ <-]. reflexivity. Qed.

Lemma respects_bind {A B} (m : M A) (k : A → M B) :
  respects R m → (∀ a, respects R (k a)) → respects R (m ≫= k).
Proof.
  intros Hm Hk st r st' H. unfold mbind, M_bind in H.
  destruct (m st) as [[a|e] st1] eqn:E.
  - transitivity st1; [exact (Hm _ _ _ E) | exact (Hk _ _ _ _ H)].
  - injection H as _ <-. exact (Hm _ _ _ E).
Qed.

Lemma respects_deferring {A} (cleanup : Run → Run) (body : M A) :
  (∀ st, R st (cleanup st)) → respects R body →
  respects R (deferring cleanup body).
Proof.
  intros Hc Hb st r st' H. unfold deferring in H.
  destruct (body st) as [r1 st1] eqn:E. injection H as _ <-.
  transitivity st1; [exact (Hb _ _ _ E) | apply Hc].
Qed.

Lemma respects_lift (f : Run → Run) :
  (∀ st, R st (f st)) → respects R (lift f).
Proof. intros Hf st r st' [= _ <-]. apply Hf. Qed.

Lemma respects_call env op pre eff :
  (∀ st, R st (on_world (log (EvCall op false)) st)) →
  (∀ st, R st (on_world (λ w, eff (log (EvCall op true) w)) st)) →
  respects R (call env op pre eff).
Proof.
  intros Hf Ht st r st' H. unfold call in H.
  destruct (negb (fault env (now st) op) && pre (world st));
    injection H as _ <-; [apply Ht | apply Hf].
Qed.

Lemma respects_call_ env op pre eff st :
  (∀ st, R st (on_world (log (EvCall op false)) st)) →
  (∀ st, R st (on_world (λ w, eff (log (EvCall op true) w)) st)) →
  R st (call_ env op pre eff st).
Proof.
  intros Hf Ht. unfold call_.
  destruct (call env op pre eff st) as [r st'] eqn:E.
  exact (respects_call env op pre eff Hf Ht _ _ _ E).
Qed.

End Rules.

(** What a call returns, and the state it leaves. *)
Lemma call_inv env op pre eff st r st' :
  call env op pre eff st = (r, st') →
  (r = Ok tt ∧ fault env (now st) op = false ∧ pre (world st) = true ∧
   st' = on_world (λ w, eff (log (EvCall op true) w)) st) ∨
  (r = Err op ∧ st' = on_world (log (EvCall op false)) st).
Proof.
  unfold call. intros H.
  destruct (fault env (now st) op), (pre (world st)); simpl in H;
    injection H as <- <-; auto.
Qed.

(** ** What the stages leave alone *)

Global Instance stage_rel_preorder P : PreOrder (stage_rel P).
Proof.
  split.
  - intros st. repeat split.
    + unfold same_but_Progress. by destruct (self st).
    + exists []. by rewrite app_nil_r.
  - intros a b c (Hs1 & Hj1 & n1 & Ht1 & Hf1) (Hs2 & Hj2 & n2 & Ht2 & Hf2).
    repeat split.
    + unfold same_but_Progress in *. rewrite Hs2. rewrite Hs1 at 1.
      by destruct (self a).
    + congruence.
    + exists (n1 ++ n2). rewrite Ht2, Ht1, app_assoc. split; [done |].
      by apply Forall_app.
Qed.

Lemma stage_rel_call P env op pre eff :
  P (EvCall op true) = true → P (EvCall op false) = true →
  (∀ w, journal (eff w) = journal w) → (∀ w, trace (eff w) = trace w) →
  respects (stage_rel P) (call env op pre eff).
Proof.
  intros Pt Pf Hj Ht. apply respects_call; intros st.
  - repeat split.
    + unfold same_but_Progress. simpl. by destruct (self st).
    + exists [EvCall op false]. split; [done | by repeat constructor].
  - repeat split.
    + unfold same_but_Progress. simpl. by destruct (self st).
    + simpl. by rewrite Hj.
    + exists [EvCall op true]. simpl. rewrite Ht. split; [done |].
      by repeat constructor.
Qed.

Lemma stage_rel_call_ P env op pre eff st :
  P (EvCall op true) = true → P (EvCall op false) = true →
  (∀ w, journal (eff w) = journal w) → (∀ w, trace (eff w) = trace w) →
  stage_rel P st (call_ env op pre eff st).
Proof.
  intros Pt Pf Hj Ht. unfold call_.
  destruct (call env op pre eff st) as [r st'] eqn:E.
  exact (stage_rel_call P env op pre eff Pt Pf Hj Ht _ _ _ E).
Qed.

Lemma stage_rel_Write P data : respects (stage_rel P) (Write data).
Proof.
  intros st r st' [= _ <-]. split; [| split].
  - unfold same_but_Progress. simpl. by destruct (self st).
  - done.
  - exists []. by rewrite app_nil_r.
Qed.

Global Instance self_rel_preorder : PreOrder self_rel.
Proof. split; [by intros st | intros a b c; unfold self_rel; congruence]. Qed.

Lemma self_rel_call env op pre eff : respects self_rel (call env op pre eff).
Proof. by apply respects_call. Qed.

Lemma self_rel_call_ env op pre eff st :
  self_rel st (call_ env op pre eff st).
Proof. by apply respects_call_. Qed.

(** Decomposes a goal [respects R m] along the structure of [m]. *)
Ltac stage_step :=
  lazymatch goal with
  | |- respects _ (mret _) => apply respects_ret; apply _
  | |- respects _ (mbind _ _) => apply respects_bind; [apply _ | | intros ?]
  | |- respects _ (deferring _ _) =>
      apply respects_deferring; [apply _ | intros ? |]
  | |- respects _ (lift _) => apply respects_lift; intros ?
  | |- respects (stage_rel _) (call _ _ _ _) => apply stage_rel_call; try done
  | |- respects self_rel (call _ _ _ _) => apply self_rel_call
  | |- respects _ (Write _) => apply stage_rel_Write
  | |- stage_rel _ _ (call_ _ _ _ _ _) => apply stage_rel_call_; try done
  | |- self_rel _ (call_ _ _ _ _ _) => apply self_rel_call_
  | |- respects _ (match ?r with Staged => _ | InPlace => _ end) => destruct r
  | |- respects _ (if ?b then _ else _) => destruct b
  | |- respects ?R (λ st, _) =>
      let st0 := fresh "st" in
      let r0 := fresh "r" in
      let st1 := fresh "st" in
      let H := fresh "H" in
      intros st0 r0 st1 H; cbv beta zeta in H; revert r0 st1 H;
      lazymatch goal with
      | |- ∀ r st', ?m st0 = (r, st') → _ =>
          refine ((_ : respects R m) st0)
      end
  end.

Ltac stage := repeat stage_step.

Lemma io_Copy_stage env file src chunks :
  respects (stage_rel is_install_call)
    (io_Copy env (MultiWriter_Write env file) src chunks).
Proof.
  induction chunks as [|c rest IH]; simpl.
  - stage.
  - apply respects_bind; [apply _ | | intros ?; exact IH].
    destruct (decide (c = [])); unfold MultiWriter_Write, file_Write; stage.
Qed.

Lemma Download_stage env revision :
  respects (stage_rel is_install_call) (Download env revision).
Proof.
  unfold Download, os_MkdirAll, utils_CreateTempFile, os_Create,
    Asset_Download, os_Rename, os_Chmod, close.
  stage; apply io_Copy_stage.
Qed.

Lemma Integrate_stage env :
  respects (stage_rel is_install_call) (Integrate env).
Proof.
  unfold Integrate, os_Mkdir, core_DeflateAppImage, ExtractMetadata,
    CopyIconFile, InstallDesktopFile, os_RemoveAll.
  stage.
Qed.

Lemma SaveConfig_stage env : respects (stage_rel is_call) (SaveConfig env).
Proof.
  unfold SaveConfig, core_SaveAppConfig, core_SaveSourceConfig,
    core_ReadConfig, core_SaveConfig.
  stage.
Qed.

(** Only [Download] writes the receiver: the other stages return it as they
    got it. *)
Lemma Integrate_self env : respects self_rel (Integrate env).
Proof.
  unfold Integrate, os_Mkdir, core_DeflateAppImage, ExtractMetadata,
    CopyIconFile, InstallDesktopFile, os_RemoveAll.
  stage.
Qed.

Lemma SaveConfig_self env : respects self_rel (SaveConfig env).
Proof.
  unfold SaveConfig, core_SaveAppConfig, core_SaveSourceConfig,
    core_ReadConfig, core_SaveConfig.
  stage.
Qed.

(** ** Inversion of the constructs *)

Lemma bind_inv {A B} (m : M A) (k : A → M B) st r st' :
  (m ≫= k) st = (r, st') →
  (∃ a st1, m st = (Ok a, st1) ∧ k a st1 = (r, st')) ∨
  (∃ e, m st = (Err e, st') ∧ r = Err e).
Proof.
  unfold mbind, M_bind. destruct (m st) as [[a|e] st1]; intros H.
  - left. eauto.
  - right. injection H as <- <-. eauto.
Qed.

Lemma deferring_inv {A} cleanup (body : M A) st r st' :
  deferring cleanup body st = (r, st') →
  ∃ st1, body st = (r, st1) ∧ st' = cleanup st1.
Proof.
  unfold deferring. destruct (body st) as [r1 st1]. intros [= <- <-]. eauto.
Qed.

Lemma ret_inv {A} (a : A) st r st' :
  (mret a : M A) st = (r, st') → r = Ok a ∧ st' = st.
Proof. by intros [= <- <-]. Qed.

(** A call whose result is dropped changes the state like the call. *)
Lemma call__cases env op pre eff st :
  call_ env op pre eff st = on_world (λ w, eff (log (EvCall op true) w)) st ∨
  call_ env op pre eff st = on_world (log (EvCall op false)) st.
Proof.
  unfold call_. destruct (call env op pre eff st) as [r st'] eqn:E.
  apply call_inv in E as [(_ & _ & _ & ->)|(_ & ->)]; auto.
Qed.

(** ** Machine arithmetic *)

Lemma wrap64_add_l a b : wrap64 (wrap64 a + b) = wrap64 (a + b).
Proof.
  unfold wrap64. f_equal.
  replace ((a + 2 ^ 63) mod 2 ^ 64 - 2 ^ 63 + b + 2 ^ 63)
    with ((a + 2 ^ 63) mod 2 ^ 64 + b) by lia.
  rewrite Zplus_mod_idemp_l. f_equal. lia.
Qed.

Lemma wrap64_small z : - 2 ^ 63 <= z < 2 ^ 63 → wrap64 z = z.
Proof. intros H. unfold wrap64. rewrite Z.mod_small; lia. Qed.

(** ** The copy loop *)

Lemma lookup_append_file t c s q :
  files (append_file t c s) !! q =
  if decide (t = q)
  then (λ f, {| data := data f ++ c; perm := perm f |}) <$> files s !! q
  else files s !! q.
Proof.
  unfold append_file. simpl. rewrite lookup_alter.
  destruct (decide (t = q)); by subst.
Qed.

Lemma wrap64_range z : - 2 ^ 63 <= wrap64 z < 2 ^ 63.
Proof.
  unfold wrap64. pose proof (Z.mod_pos_bound (z + 2 ^ 63) (2 ^ 64)). lia.
Qed.

(** [io.Copy] into the fan-out writer of file [t]: no other path changes
    in any state on the way, and when the copy succeeds the file has grown
    by all the chunks and the counter, an [int64], by their length. *)
Lemma io_Copy_spec env t src chunks : ∀ st f0 r st',
  files (fs (world st)) !! t = Some f0 →
  io_Copy env (MultiWriter_Write env t) src chunks st = (r, st') →
  (∃ news, observed (world st') = news ++ observed (world st) ∧
     Forall (λ s, ∀ q, q ≠ t → files s !! q = files (fs (world st)) !! q) news) ∧
  (∀ q, q ≠ t → files (fs (world st')) !! q = files (fs (world st)) !! q) ∧
  (r = Ok tt →
     files (fs (world st')) !! t =
       Some {| data := data f0 ++ concat chunks; perm := perm f0 |} ∧
     (- 2 ^ 63 <= Progress (self st) < 2 ^ 63 →
      Progress (self st') =
        wrap64 (Progress (self st) + Z.of_nat (length (concat chunks))))).
Proof.
  induction chunks as [|c rest IH]; intros st f0 r st' Hf H; simpl in H.
  - apply call_inv in H as [(-> & _ & _ & ->)|(-> & ->)]; simpl.
    + split; [exists []; by split |]. split; [done |]. intros _.
      rewrite Hf, app_nil_r. destruct f0. split; [done |]. intros Hp.
      rewrite Z.add_0_r. by rewrite wrap64_small.
    + split; [exists []; by split |]. split; [done |]. discriminate.
  - apply bind_inv in H as [(a & st1 & H1 & H2)|(e & H1 & ->)].
    + destruct (decide (c = [])) as [->|Hc].
      * apply ret_inv in H1 as [_ ->]. simpl.
        exact (IH _ _ _ _ Hf H2).
      * unfold MultiWriter_Write in H1.
        apply bind_inv in H1 as [([] & st2 & W1 & W2)|(e & W1 & ?)];
          [| discriminate].
        apply call_inv in W1 as [(_ & _ & _ & ->)|(? & _)]; [| discriminate].
        simpl in W2. destruct a. injection W2 as <-.
        assert (Hf1 : files (fs (world (on_self
                  (λ x, set_Progress
                     (wrap64 (Progress x + Z.of_nat (length c))) x)
                  (on_world (λ w, upd_fs (append_file t c)
                     (log (EvCall (OpWrite t (length c)) true) w)) st))))
                  !! t = Some {| data := data f0 ++ c; perm := perm f0 |}).
        { simpl. rewrite lookup_alter, decide_True by done. by rewrite Hf. }
        destruct (IH _ _ _ _ Hf1 H2) as ((news & Ho & Hn) & Hq & Hok).
        simpl in Ho, Hn, Hq, Hok.
        assert (Hstep : ∀ q, q ≠ t →
                  files (append_file t c (fs (world st))) !! q =
                  files (fs (world st)) !! q).
        { intros q Hq'. rewrite lookup_append_file, decide_False; done. }
        split; [| split].
        -- exists (news ++ [append_file t c (fs (world st))]).
           split; [by rewrite <- app_assoc |].
           apply Forall_app. split.
           ++ eapply Forall_impl; [exact Hn |]. simpl. intros s Hs q Hq'.
              rewrite (Hs q Hq'). simpl. by apply lookup_alter_ne.
           ++ repeat constructor. exact Hstep.
        -- intros q Hq'. rewrite (Hq q Hq'). simpl. by apply lookup_alter_ne.
        -- intros Hr. destruct (Hok Hr) as [Hd Hp]. split.
           ++ rewrite Hd. simpl. by rewrite app_assoc.
           ++ intros Hrange. rewrite Hp by apply wrap64_range.
              rewrite wrap64_add_l. simpl. rewrite length_app. f_equal. lia.
    + destruct (decide (c = [])) as [->|Hc]; [discriminate |].
      unfold MultiWriter_Write in H1.
      apply bind_inv in H1 as [([] & st2 & W1 & W2)|(e' & W1 & _)];
        [discriminate |].
      apply call_inv in W1 as [(? & _)|(_ & ->)]; [discriminate |].
      simpl. split; [exists []; by split |]. split; [done |]. discriminate.
Qed.

(** ** What an observer sees at one path *)

Lemma atomic_rel_last final D st st' :
  atomic_rel final D st st' →
  old_or_complete final D (fs (world st)) (fs (world st')).
Proof.
  intros (news & Ho & Hn). destruct news as [|s news]; simpl in Ho.
  - injection Ho as -> _. by left.
  - injection Ho as -> _. by inversion Hn.
Qed.

Global Instance atomic_rel_preorder final D : PreOrder (atomic_rel final D).
Proof.
  split.
  - intros st. exists []. by split.
  - intros a b c Hab Hbc. pose proof (atomic_rel_last _ _ _ _ Hab) as Hb.
    destruct Hab as (n1 & Ho1 & Hn1), Hbc as (n2 & Ho2 & Hn2).
    exists (n2 ++ n1). split; [by rewrite Ho2, Ho1, app_assoc |].
    apply Forall_app. split; [| done].
    eapply Forall_impl; [exact Hn2 |]. intros s [Hs|Hs]; [| by right].
    destruct Hb as [Hb|Hb]; [left; congruence | right].
    destruct Hb as (f & Hf & Hd). exists f. split; [congruence | done].
Qed.

(** A step that leaves the file system alone. *)
Lemma atomic_rel_same final D st st' :
  observed (world st') = observed (world st) → atomic_rel final D st st'.
Proof. intros H. exists []. by split. Qed.

(** A step that makes one new state. *)
Lemma atomic_rel_upd final D st f e :
  old_or_complete final D (fs (world st)) (f (fs (world st))) →
  atomic_rel final D st (on_world (λ w, upd_fs f (log e w)) st).
Proof. intros H. exists [f (fs (world st))]. split; [done | by constructor]. Qed.

Lemma atomic_rel_call_ final D env op pre st :
  atomic_rel final D st (call_ env op pre id st).
Proof.
  destruct (call__cases env op pre id st) as [-> | ->];
    by apply atomic_rel_same.
Qed.

Lemma atomic_rel_call_id final D env op pre st r st' :
  call env op pre id st = (r, st') → atomic_rel final D st st'.
Proof.
  intros H. apply call_inv in H as [(_ & _ & _ & ->)|(_ & ->)];
    by apply atomic_rel_same.
Qed.

Lemma atomic_rel_call_upd final D env op pre f st r st' :
  call env op pre (upd_fs f) st = (r, st') →
  (pre (world st) = true →
   old_or_complete final D (fs (world st)) (f (fs (world st)))) →
  atomic_rel final D st st'.
Proof.
  intros H Hf. apply call_inv in H as [(_ & _ & Hp & ->)|(_ & ->)].
  - apply atomic_rel_upd. simpl. auto.
  - by apply atomic_rel_same.
Qed.

(** ** [Download], staged revision *)

(** The part of [Download] after the temporary file [t] exists. *)
Lemma staged_tail_spec env t final asset url m st r st' :
  let D := concat (produced env (now st) (OpAssetDownload asset)) in
  files (fs (world st)) !! t = Some {| data := []; perm := m |} →
  t ≠ final →
  (Asset_Download env asset ≫= λ data,
     deferring (close env url)
       (io_Copy env (MultiWriter_Write env t) asset data ;;
        os_Rename env t final ;;
        os_Chmod env final 493)) st = (r, st') →
  atomic_rel final D st st' ∧
  (r = Ok tt →
     files (fs (world st')) !! final = Some {| data := D; perm := 493 |} ∧
     (- 2 ^ 63 <= Progress (self st) < 2 ^ 63 →
      Progress (self st') =
        wrap64 (Progress (self st) + Z.of_nat (length D)))).
Proof.
  intros D Ht Hne H.
  apply bind_inv in H as [(chunks & st1 & H1 & H)|(e & H1 & ->)]; cycle 1.
  { split; [| discriminate]. unfold Asset_Download in H1.
    apply bind_inv in H1 as [(? & ? & H1 & H2)|(e' & H1 & _)].
    - by apply ret_inv in H2 as [? _].
    - eapply atomic_rel_call_id; exact H1. }
  unfold Asset_Download in H1.
  apply bind_inv in H1 as [([] & st0 & H1 & H2)|(e' & _ & ?)]; [| discriminate].
  apply ret_inv in H2 as [E2 <-]. injection E2 as E2. subst chunks.
  apply call_inv in H1 as [(_ & _ & _ & ->)|(? & _)]; [| discriminate].
  apply deferring_inv in H as (st2 & H & ->).
  set (sa := on_world (λ w, id (log (EvCall (OpAssetDownload asset) true) w)) st)
    in *.
  assert (Hta : files (fs (world sa)) !! t = Some {| data := []; perm := m |})
    by exact Ht.
  assert (Hclose : ∀ s, atomic_rel final D st s →
            atomic_rel final D st (close env url s)).
  { intros s Hs. etransitivity; [exact Hs |]. apply atomic_rel_call_. }
  assert (Hfs : ∀ s, fs (world (close env url s)) = fs (world s)).
  { intros s. unfold close.
    by destruct (call__cases env (OpClose url) (λ _, true) id s) as [-> | ->]. }
  assert (Hself : ∀ s, self (close env url s) = self s).
  { intros s. unfold close.
    by destruct (call__cases env (OpClose url) (λ _, true) id s) as [-> | ->]. }
  apply bind_inv in H as [([] & st3 & H3 & H)|(e & H3 & ->)]; cycle 1.
  { split; [| discriminate]. apply Hclose.
    destruct (io_Copy_spec _ _ _ _ _ _ _ _ Hta H3) as ((news & Ho & Hn) & _).
    exists news. split; [exact Ho |].
    eapply Forall_impl; [exact Hn |]. intros s Hs. left. by apply Hs. }
  destruct (io_Copy_spec _ _ _ _ _ _ _ _ Hta H3) as ((news & Ho & Hn) & Hq & Hok).
  destruct (Hok eq_refl) as [Hd Hp]. simpl in Hd, Hp.
  assert (A3 : atomic_rel final D st st3).
  { exists news. split; [exact Ho |].
    eapply Forall_impl; [exact Hn |]. intros s Hs. left. by apply Hs. }
  apply bind_inv in H as [([] & st4 & H4 & H)|(e & H4 & ->)]; cycle 1.
  { split; [| discriminate]. apply Hclose. etransitivity; [exact A3 |].
    apply call_inv in H4 as [(? & _)|(_ & ->)]; [discriminate |].
    by apply atomic_rel_same. }
  apply call_inv in H4 as [(_ & _ & _ & ->)|(? & _)]; [| discriminate].
  set (moved := move_file t final (fs (world st3))) in *.
  assert (Hm : files moved !! final = Some {| data := D; perm := m |}).
  { unfold moved, move_file. rewrite Hd. simpl. by rewrite lookup_insert_eq. }
  assert (A4 : atomic_rel final D st
                 (on_world (λ w, upd_fs (move_file t final)
                    (log (EvCall (OpRename t final) true) w)) st3)).
  { etransitivity; [exact A3 |]. apply atomic_rel_upd. right. eauto. }
  assert (Hc : files (chmod_file final 493 moved) !! final =
               Some {| data := D; perm := 493 |}).
  { unfold chmod_file. simpl. rewrite lookup_alter, decide_True by done.
    by rewrite Hm. }
  apply call_inv in H as [(-> & _ & _ & ->)|(-> & ->)].
  - split.
    + apply Hclose. etransitivity; [exact A4 |]. apply atomic_rel_upd.
      right. eauto.
    + intros _. rewrite Hfs, Hself. split; [exact Hc |]. exact Hp.
  - split; [| discriminate]. apply Hclose. etransitivity; [exact A4 |].
    by apply atomic_rel_same.
Qed.

(** The same part of the in-place revision, when it succeeds. *)
Lemma inplace_tail_ok env final asset url m st st' :
  let D := concat (produced env (now st) (OpAssetDownload asset)) in
  files (fs (world st)) !! final = Some {| data := []; perm := m |} →
  (Asset_Download env asset ≫= λ data,
     deferring (close env url)
       (io_Copy env (MultiWriter_Write env final) asset data ;;
        os_Chmod env final 493)) st = (Ok tt, st') →
  files (fs (world st')) !! final = Some {| data := D; perm := 493 |} ∧
  (- 2 ^ 63 <= Progress (self st) < 2 ^ 63 →
   Progress (self st') = wrap64 (Progress (self st) + Z.of_nat (length D))).
Proof.
  intros D Ht H.
  apply bind_inv in H as [(chunks & st1 & H1 & H)|(e & _ & ?)]; [| discriminate].
  unfold Asset_Download in H1.
  apply bind_inv in H1 as [([] & st0 & H1 & H2)|(e' & _ & ?)]; [| discriminate].
  apply ret_inv in H2 as [E2 <-]. injection E2 as E2. subst chunks.
  apply call_inv in H1 as [(_ & _ & _ & ->)|(? & _)]; [| discriminate].
  apply deferring_inv in H as (st2 & H & ->).
  set (sa := on_world (λ w, id (log (EvCall (OpAssetDownload asset) true) w)) st)
    in *.
  assert (Hta : files (fs (world sa)) !! final = Some {| data := []; perm := m |})
    by exact Ht.
  apply bind_inv in H as [([] & st3 & H3 & H)|(e & _ & ?)]; [| discriminate].
  destruct (io_Copy_spec _ _ _ _ _ _ _ _ Hta H3) as (_ & _ & Hok).
  destruct (Hok eq_refl) as [Hd Hp]. simpl in Hd, Hp.
  apply call_inv in H as [(_ & _ & _ & ->)|(? & _)]; [| discriminate].
  unfold close.
  destruct (call__cases env (OpClose url) (λ _, true) id
              (on_world (λ w, upd_fs (chmod_file final 493)
                 (log (EvCall (OpChmod final 493) true) w)) st3)) as [-> | ->];
    simpl; (split; [| exact Hp]);
    by rewrite lookup_alter, decide_True, Hd by done.
Qed.

(** [Download] in the staged revision: the bundle path shows its old
    content or the complete bundle in every state, and on success it holds
    the complete bundle, executable, with the counter advanced by its
    length. *)
Lemma Download_staged_spec env st r st' :
  let final := core.AppImage (paths (self st)) in
  let D := concat (produced env (now st + 3)%nat
                     (OpAssetDownload (Asset (self st)))) in
  Download env Staged st = (r, st') →
  atomic_rel final D st st' ∧
  (r = Ok tt →
     files (fs (world st')) !! final = Some {| data := D; perm := 493 |} ∧
     (- 2 ^ 63 <= Progress (self st) < 2 ^ 63 →
      Progress (self st') =
        wrap64 (Progress (self st) + Z.of_nat (length D)))).
Proof.
  intros final D H. unfold Download in H.
  apply bind_inv in H as [([] & st1 & H1 & H)|(e & H1 & ->)]; cycle 1.
  { split; [| discriminate].
    eapply atomic_rel_call_upd; [exact H1 |]. intros _. by left. }
  assert (A1 : atomic_rel final D st st1).
  { eapply atomic_rel_call_upd; [exact H1 |]. intros _. by left. }
  apply call_inv in H1 as [(_ & _ & _ & E1)|(? & _)]; [| discriminate].
  apply bind_inv in H as [([] & st2 & H2 & H)|(e & H2 & ->)]; cycle 1.
  { split; [| discriminate]. etransitivity; [exact A1 |].
    eapply atomic_rel_call_upd; [exact H2 |]. intros _. by left. }
  assert (A2 : atomic_rel final D st st2).
  { etransitivity; [exact A1 |].
    eapply atomic_rel_call_upd; [exact H2 |]. intros _. by left. }
  apply call_inv in H2 as [(_ & _ & _ & E2)|(? & _)]; [| discriminate].
  assert (F2 : files (fs (world st2)) !! final = files (fs (world st)) !! final)
    by (by subst st2 st1).
  assert (N2 : now st2 = (now st + 2)%nat).
  { subst st2 st1. unfold now. simpl. rewrite !length_app. simpl. lia. }
  assert (S2 : self st2 = self st) by (by subst st2 st1).
  clear E1 E2 A1.
  apply bind_inv in H as [(t & st3 & H3 & H)|(e & H3 & ->)]; cycle 1.
  { split; [| discriminate]. etransitivity; [exact A2 |].
    unfold utils_CreateTempFile in H3.
    apply bind_inv in H3 as [(? & ? & H3 & H4)|(e' & H3 & _)].
    - by apply ret_inv in H4 as [? _].
    - apply call_inv in H3 as [(? & _)|(_ & ->)]; [discriminate |].
      by apply atomic_rel_same. }
  unfold utils_CreateTempFile in H3.
  apply bind_inv in H3 as [([] & st0 & H3 & H4)|(e' & _ & ?)]; [| discriminate].
  apply ret_inv in H4 as [E4 <-]. injection E4 as E4. subst t.
  apply call_inv in H3 as [(_ & _ & Hpre & ->)|(? & _)]; [| discriminate].
  set (t := temp_name env (now st2) (core.AppImage (paths (self st)))) in *.
  apply andb_true_iff in Hpre as [Hne _].
  apply negb_true_iff, String.eqb_neq in Hne.
  set (created := on_world (λ w, upd_fs (put_file t {| data := []; perm := 384 |})
                    (log (EvCall (OpCreateTemp (core.AppImage (paths (self st))))
                            true) w)) st2) in *.
  assert (A3 : atomic_rel final D st created).
  { etransitivity; [exact A2 |]. apply atomic_rel_upd. left. simpl.
    by rewrite lookup_insert_ne. }
  assert (Hclose : ∀ s, atomic_rel final D st s →
            atomic_rel final D st (close env t s)).
  { intros s Hs. etransitivity; [exact Hs |]. apply atomic_rel_call_. }
  apply deferring_inv in H as (st4 & H & ->).
  assert (Ht : files (fs (world created)) !! t = Some {| data := []; perm := 384 |}).
  { subst created. simpl. by rewrite lookup_insert_eq. }
  assert (N3 : now created = (now st + 3)%nat).
  { subst created. unfold now in *. simpl. rewrite length_app. simpl. lia. }
  destruct (staged_tail_spec _ _ _ _ _ _ _ _ _ Ht Hne H) as [A4 Hok].
  rewrite N3 in A4, Hok. 
  assert (S3 : self created = self st) by (by subst created).
  rewrite S3 in Hok. 
  split.
  - apply Hclose. etransitivity; [exact A3 |]. exact A4.
  - intros Hr. destruct (Hok Hr) as [Hd Hp]. unfold close.
    destruct (call__cases env (OpClose t) (λ _, true) id st4) as [-> | ->];
      simpl; split; auto.
Qed.

(** A successful [Download], in either revision, leaves the bytes of the
    stream at the bundle path, executable, and has advanced the counter by
    their number. *)
Lemma Download_ok env revision st st' :
  Download env revision st = (Ok tt, st') →
  ∃ D, files (fs (world st')) !! core.AppImage (paths (self st)) =
         Some {| data := D; perm := 493 |} ∧
       (- 2 ^ 63 <= Progress (self st) < 2 ^ 63 →
        Progress (self st') =
          wrap64 (Progress (self st) + Z.of_nat (length D))).
Proof.
  intros H. destruct revision.
  - destruct (Download_staged_spec _ _ _ _ H) as [_ Hok].
    destruct (Hok eq_refl) as [Hd Hp]. eauto.
  - unfold Download in H.
    apply bind_inv in H as [([] & st1 & H1 & H)|(e & _ & ?)]; [| discriminate].
    apply call_inv in H1 as [(_ & _ & _ & ->)|(? & _)]; [| discriminate].
    apply bind_inv in H as [([] & st2 & H2 & H)|(e & _ & ?)]; [| discriminate].
    apply call_inv in H2 as [(_ & _ & _ & ->)|(? & _)]; [| discriminate].
    apply bind_inv in H as [(t & st3 & H3 & H)|(e & _ & ?)]; [| discriminate].
    unfold os_Create in H3.
    apply bind_inv in H3 as [([] & st0 & H3 & H4)|(e' & _ & ?)]; [| discriminate].
    apply ret_inv in H4 as [E4 <-]. injection E4 as E4. subst t.
    apply call_inv in H3 as [(_ & _ & _ & ->)|(? & _)]; [| discriminate].
    apply deferring_inv in H as (st4 & H & ->).
    eapply inplace_tail_ok in H; [| simpl; by rewrite lookup_insert_eq].
    destruct H as [Hd Hp]. eexists. unfold close.
    destruct (call__cases env (OpClose (core.AppImage (paths (self st))))
                (λ _, true) id st4) as [-> | ->]; simpl; split; eauto.
Qed.

(** ** [Install] *)

(** [Install], written out: the ticker is stopped on every way out. *)
Lemma Install_eq env revision st :
  Install env revision st =
  match Download env revision (StartStatusTicker st) with
  | (Err e, st1) => (Err e, ticker_Stop st1)
  | (Ok _, st1) =>
      match Integrate env (assign_Status InstallableAppIntegrating st1) with
      | (Err e, st2) => (Err e, ticker_Stop st2)
      | (Ok _, st2) =>
          let '(r, st3) := SaveConfig env st2 in (r, ticker_Stop st3)
      end
  end.
Proof.
  unfold Install, lift, deferring, mbind, M_bind.
  destruct (Download env revision (StartStatusTicker st)) as [[[]|e] st1];
    [| done].
  destruct (Integrate env (assign_Status InstallableAppIntegrating st1))
    as [[[]|e] st2]; done.
Qed.

(** ** [Integrate] *)

(** A call followed by the value the method returns. *)
Lemma call_ret_inv {A} env op pre eff (a : A) st r st' :
  (call env op pre eff ;; mret a) st = (r, st') →
  (r = Ok a ∧ fault env (now st) op = false ∧ pre (world st) = true ∧
   st' = on_world (λ w, eff (log (EvCall op true) w)) st) ∨
  (r = Err op ∧ st' = on_world (log (EvCall op false)) st).
Proof.
  intros H. apply bind_inv in H as [([] & st1 & H1 & H2)|(e & H1 & ->)].
  - apply ret_inv in H2 as [-> ->].
    apply call_inv in H1 as [(_ & ? & ? & ->)|(? & _)]; [auto | discriminate].
  - apply call_inv in H1 as [(? & _)|(E & ->)]; [discriminate |].
    injection E as ->. auto.
Qed.

Lemma under_refl p : under p p = true.
Proof. unfold under. by rewrite String.eqb_refl. Qed.

Lemma is_dir_remove_all p s : is_dir (remove_all p s) p = false.
Proof.
  unfold is_dir, remove_all. simpl. apply bool_decide_eq_false.
  rewrite elem_of_filter, under_refl. by intros [? _].
Qed.

Lemma lookup_remove_all p s q :
  under p q = false → files (remove_all p s) !! q = files s !! q.
Proof.
  intros Hq. unfold remove_all. simpl.
  destruct (files s !! q) as [f|] eqn:E.
  - apply map_lookup_filter_Some. by split.
  - apply map_lookup_filter_None. left. done.
Qed.

Lemma is_dir_add_dir p s : is_dir (add_dir p s) p = true.
Proof.
  unfold is_dir, add_dir. simpl. apply bool_decide_eq_true. set_solver.
Qed.

(** Where [Integrate] ends, by the call that stopped it. *)
Lemma Integrate_cases env st r st' :
  let p := paths (self st) in
  let tempDir := scratch_dir (self st) in
  let made := on_world (λ w, upd_fs (add_dir tempDir)
                (log (EvCall (OpMkdir tempDir) true) w)) st in
  let deflated := on_world (λ w, id (log (EvCall
                    (OpDeflateAppImage (core.AppImage p) tempDir) true) w))
                    made in
  Integrate env st = (r, st') →
  (r = Err (OpMkdir tempDir) ∧
   st' = on_world (log (EvCall (OpMkdir tempDir) false)) st) ∨
  (r = Err (OpDeflateAppImage (core.AppImage p) tempDir) ∧
   st' = on_world (log (EvCall
           (OpDeflateAppImage (core.AppImage p) tempDir) false)) made) ∨
  (∃ st2,
     (ExtractMetadata env tempDir ≫= λ _,
        CopyIconFile env p ;; InstallDesktopFile env p) deflated = (r, st2) ∧
     st' = os_RemoveAll env tempDir st2).
Proof.
  intros p tempDir made deflated H. unfold Integrate in H.
  apply bind_inv in H as [([] & st1 & H1 & H)|(e & H1 & ->)]; cycle 1.
  { left. apply call_inv in H1 as [(? & _)|(E & ->)]; [discriminate |].
    by injection E as ->. }
  apply call_inv in H1 as [(_ & _ & _ & ->)|(? & _)]; [| discriminate].
  apply bind_inv in H as [(d & st2 & H2 & H)|(e & H2 & ->)]; cycle 1.
  { right. left. unfold core_DeflateAppImage in H2.
    apply call_ret_inv in H2 as [(? & _)|(E & ->)]; [discriminate |].
    by injection E as ->. }
  right. right. unfold core_DeflateAppImage in H2.
  apply call_ret_inv in H2 as [(E & _ & _ & ->)|(? & _)]; [| discriminate].
  injection E as ->.
  apply deferring_inv in H as (st3 & H & ->). eauto.
Qed.

(** On the ways out that come after the [defer], the scratch directory is
    gone unless the removal itself was refused. *)
Lemma Integrate_removes_scratch env st r st' :
  let tempDir := scratch_dir (self st) in
  Integrate env st = (r, st') →
  r ≠ Err (OpMkdir tempDir) →
  r ≠ Err (OpDeflateAppImage (core.AppImage (paths (self st))) tempDir) →
  (∀ n, fault env n (OpRemoveAll tempDir) = false) →
  is_dir (fs (world st')) tempDir = false.
Proof.
  intros tempDir H N1 N2 Hrm.
  apply Integrate_cases in H as [[? _]|[[? _]|(st2 & _ & ->)]]; [done.. |].
  unfold os_RemoveAll, call_, call. rewrite Hrm. simpl.
  apply is_dir_remove_all.
Qed.

Lemma files_os_RemoveAll env p st q :
  under p q = false →
  files (fs (world (os_RemoveAll env p st))) !! q = files (fs (world st)) !! q.
Proof.
  intros Hq. unfold os_RemoveAll.
  destruct (call__cases env (OpRemoveAll p) (λ _, true)
              (upd_fs (remove_all p)) st) as [-> | ->]; simpl; [| done].
  by apply lookup_remove_all.
Qed.

(** A failing [Integrate] leaves the bundle file as it found it. *)
Lemma Integrate_error_keeps_bundle env st e st' :
  let p := paths (self st) in
  core.Icon p ≠ core.AppImage p →
  under (scratch_dir (self st)) (core.AppImage p) = false →
  Integrate env st = (Err e, st') →
  files (fs (world st')) !! core.AppImage p =
  files (fs (world st)) !! core.AppImage p.
Proof.
  intros p Hicon Hunder H.
  apply Integrate_cases in H as [[_ ->]|[[_ ->]|(st2 & H & ->)]]; [done.. |].
  rewrite files_os_RemoveAll by done.
  apply bind_inv in H as [(? & s1 & H1 & H)|(e1 & H1 & _)].
  - unfold ExtractMetadata in H1.
    apply call_ret_inv in H1 as [(_ & _ & _ & ->)|(? & _)]; [| discriminate].
    apply bind_inv in H as [([] & s2 & H2 & H)|(e2 & H2 & _)].
    + unfold CopyIconFile in H2.
      apply call_inv in H2 as [(_ & _ & _ & ->)|(? & _)]; [| discriminate].
      unfold InstallDesktopFile in H.
      apply call_inv in H as [(? & _)|(_ & ->)]; [discriminate |].
      simpl. by rewrite lookup_insert_ne.
    + unfold CopyIconFile in H2.
      by apply call_inv in H2 as [(? & _)|(_ & ->)].
  - unfold ExtractMetadata in H1.
    by apply call_ret_inv in H1 as [(? & _)|(_ & ->)].
Qed.

(** ** The batch runner's own steps *)

Lemma same_but_Progress_fields x x' :
  same_but_Progress x x' →
  App x' = App x ∧ Index x' = Index x ∧ Status x' = Status x ∧
  Asset x' = Asset x.
Proof. unfold same_but_Progress. intros ->. done. Qed.

Lemma print_events_display env st :
  Forall (λ e, is_display e = true) (print_events env st).
Proof.
  unfold print_events. destruct (decide (PrintCycle (self st) > 0));
    by repeat constructor.
Qed.

(** The loop body up to [x.Install()]: the receiver is marked, its line
    is shown, and its entry is in the journal. *)
Lemma prelude_spec env i count x w :
  let st := prelude env i count {| self := x; world := w |} in
  App (self st) = App x ∧ Index (self st) = i ∧
  Status (self st) = InstallableAppDownloading ∧
  Progress (self st) = Progress x ∧
  journal (world st) = <[app_id x := pending_of x]> (journal w) ∧
  observed (world st) = observed w ∧
  ∃ shown, Forall (λ e, is_display e = true) shown ∧
    trace (world st) =
      trace w ++ EvStatus i InstallableAppDownloading :: shown ++
        [EvUpdateTransactions (journal (world st))].
Proof.
  unfold prelude, core_UpdateTransactions, assign_Status, PrintStatus. simpl.
  destruct (decide (PrintCycle x > 0)); simpl; repeat split.
  - eexists [_; _]. split; cycle 1.
    + by rewrite <- !app_assoc.
    + by repeat constructor.
  - eexists [_]. split; cycle 1.
    + by rewrite <- !app_assoc.
    + by repeat constructor.
Qed.

(** The three ways through [Install]: [Download] fails, [Integrate] fails,
    or [SaveConfig] decides.  In each the ticker is started first and
    stopped last, and only the stages reached leave events in between. *)
Lemma Install_cases env revision st r st' :
  let i := Index (self st) in
  Install env revision st = (r, st') →
  App (self st') = App (self st) ∧ Index (self st') = i ∧
  journal (world st') = journal (world st) ∧
  ((∃ e st1 m1,
      Download env revision (StartStatusTicker st) = (Err e, st1) ∧
      r = Err e ∧ st' = ticker_Stop st1 ∧
      Status (self st') = Status (self st) ∧
      Forall (λ ev, is_install_call ev = true) m1 ∧
      trace (world st') =
        trace (world st) ++ EvTickerStart i :: m1 ++ [EvTickerStop i]) ∨
   (∃ e st1 st2 m1 m2,
      Download env revision (StartStatusTicker st) = (Ok tt, st1) ∧
      Integrate env (assign_Status InstallableAppIntegrating st1) =
        (Err e, st2) ∧
      r = Err e ∧ st' = ticker_Stop st2 ∧
      Status (self st') = InstallableAppIntegrating ∧
      Forall (λ ev, is_install_call ev = true) (m1 ++ m2) ∧
      trace (world st') =
        trace (world st) ++ EvTickerStart i :: m1 ++
          EvStatus i InstallableAppIntegrating :: m2 ++ [EvTickerStop i]) ∨
   (∃ st1 st2 st3 m1 m2 m3,
      Download env revision (StartStatusTicker st) = (Ok tt, st1) ∧
      Integrate env (assign_Status InstallableAppIntegrating st1) =
        (Ok tt, st2) ∧
      SaveConfig env st2 = (r, st3) ∧ st' = ticker_Stop st3 ∧
      Status (self st') = InstallableAppIntegrating ∧
      Forall (λ ev, is_install_call ev = true) (m1 ++ m2) ∧
      Forall (λ ev, is_call ev = true) m3 ∧
      trace (world st') =
        trace (world st) ++ EvTickerStart i :: m1 ++
          EvStatus i InstallableAppIntegrating :: m2 ++ m3 ++
          [EvTickerStop i])).
Proof.
  intros i. subst i. rewrite Install_eq.
  destruct (Download env revision (StartStatusTicker st)) as [[[]|e] st1] eqn:ED.
  2:{ intros [= <- <-].
      destruct (Download_stage _ _ _ _ _ ED) as (Hs & Hj & m1 & Ht & Hm).
      apply same_but_Progress_fields in Hs as (HA & HI & HS & _).
      simpl in *. repeat split; try done. left.
      exists e, st1, m1. repeat split; try done.
      rewrite Ht, ?HI, <- ?app_assoc. simpl. by rewrite <- ?app_assoc. }
  destruct (Download_stage _ _ _ _ _ ED) as (Hs & Hj & m1 & Ht & Hm).
  apply same_but_Progress_fields in Hs as (HA & HI & HS & _).
  destruct (Integrate env (assign_Status InstallableAppIntegrating st1))
    as [[[]|e] st2] eqn:EI.
  2:{ intros [= <- <-].
      destruct (Integrate_stage _ _ _ _ EI) as (Hs2 & Hj2 & m2 & Ht2 & Hm2).
      apply same_but_Progress_fields in Hs2 as (HA2 & HI2 & HS2 & _).
      simpl in *. repeat split; try congruence. right. left.
      exists e, st1, st2, m1, m2. repeat split; try done.
      - by apply Forall_app.
      - rewrite Ht2, Ht, ?HI2, ?HI, <- ?app_assoc. simpl.
        by rewrite <- ?app_assoc. }
  destruct (Integrate_stage _ _ _ _ EI) as (Hs2 & Hj2 & m2 & Ht2 & Hm2).
  apply same_but_Progress_fields in Hs2 as (HA2 & HI2 & HS2 & _).
  destruct (SaveConfig env st2) as [r3 st3] eqn:ES. intros [= <- <-].
  destruct (SaveConfig_stage _ _ _ _ ES) as (Hs3 & Hj3 & m3 & Ht3 & Hm3).
  apply same_but_Progress_fields in Hs3 as (HA3 & HI3 & HS3 & _).
  simpl in *. repeat split; try congruence. right. right.
  exists st1, st2, st3, m1, m2, m3. repeat split; try done.
  - congruence.
  - by apply Forall_app.
  - rewrite Ht3, Ht2, Ht, ?HI3, ?HI2, ?HI, <- ?app_assoc. simpl.
    by rewrite <- ?app_assoc.
Qed.

Lemma PrintStatus_eq env st :
  PrintStatus env st =
  on_world (logs (print_events env st))
    (on_self (set_PrintCycle (wrap64 (PrintCycle (self st) + 1))) st).
Proof.
  unfold PrintStatus, print_events, utils_TimeNowSeconds, now, on_world, logs.
  destruct (decide (PrintCycle (self st) > 0)); simpl; unfold log; simpl.
  - by rewrite <- !app_assoc.
  - by rewrite app_nil_r.
Qed.

(** One turn of the loop, by the result of [x.Install()]. *)
Lemma iteration_cases env revision i count x w :
  let st0 := prelude env i count {| self := x; world := w |} in
  ∃ r st1 shown,
    Install env revision st0 = (r, st1) ∧
    Forall (λ e, is_display e = true) shown ∧
    match r with
    | Ok _ =>
        let j := delete (app_id x) (journal (world st1)) in
        ∃ x' w',
          iteration env revision i count x w = (true, x', w') ∧
          App x' = App x ∧ Index x' = i ∧
          Status x' = InstallableAppInstalled ∧
          journal w' = j ∧ observed w' = observed (world st1) ∧
          trace w' =
            trace (world st1) ++ EvStatus i InstallableAppInstalled ::
              shown ++ [EvUpdateTransactions j]
    | Err e =>
        ∃ x' w',
          iteration env revision i count x w = (false, x', w') ∧
          App x' = App x ∧ Index x' = i ∧
          Status x' = InstallableAppFailed ∧
          journal w' = journal (world st1) ∧
          observed w' = observed (world st1) ∧
          trace w' =
            trace (world st1) ++ EvStatus i InstallableAppFailed ::
              shown ++ [EvLogError e]
    end.
Proof.
  intros st0.
  destruct (prelude_spec env i count x w) as (HA0 & HI0 & _).
  fold st0 in HA0, HI0.
  destruct (Install env revision st0) as [r st1] eqn:EI.
  destruct (Install_cases _ _ _ _ _ EI) as (HA & HI & _).
  unfold iteration. fold st0. rewrite EI.
  destruct r as [[]|e].
  - exists (Ok tt), st1,
      (print_events env (assign_Status InstallableAppInstalled st1)).
    split; [done |]. split; [apply print_events_display |].
    rewrite PrintStatus_eq. eexists _, _. split; [reflexivity |].
    unfold app_id. simpl. rewrite HA, HA0, HI, HI0.
    repeat split. by rewrite <- !app_assoc.
  - exists (Err e), st1,
      (print_events env (assign_Status InstallableAppFailed st1)).
    split; [done |]. split; [apply print_events_display |].
    rewrite PrintStatus_eq. eexists _, _. split; [reflexivity |].
    simpl. rewrite HA, HA0, HI, HI0.
    repeat split. by rewrite <- !app_assoc.
Qed.

(** * The batch *)

(** The loop over requests that all succeed, followed by [tail]. *)
Lemma loop_served env revision count served : ∀ i s w served' wk tail,
  run_successes env revision count i served w = Some (served', wk) →
  loop env revision count i s (served ++ tail) w =
  let '(r, tail', w') :=
    loop env revision count (i + Z.of_nat (length served))
      (s + Z.of_nat (length served)) tail wk in
  (r, served' ++ tail', w').
Proof.
  induction served as [|x rest IH]; intros i s w served' wk tail H.
  - injection H as <- <-. simpl. rewrite !Z.add_0_r.
    by destruct (loop env revision count i s tail w) as [[r t'] w'].
  - simpl in H. simpl.
    destruct (iteration env revision i count x w) as [[[] x'] w']; [| done].
    destruct (run_successes env revision count (i + 1) rest w')
      as [[rest' w'']|] eqn:E; [| done].
    injection H as <- <-.
    rewrite (IH _ (s + 1) _ _ _ tail E).
    replace (i + 1 + Z.of_nat (length rest))
      with (i + Z.of_nat (S (length rest))) by lia.
    replace (s + 1 + Z.of_nat (length rest))
      with (s + Z.of_nat (S (length rest))) by lia.
    by destruct (loop env revision count _ _ tail w'') as [[r t'] wf].
Qed.

(** The turn goes on to the next request exactly when [x.Install()] returns
    no error. *)
Lemma iteration_continue env revision i count x w :
  (iteration env revision i count x w).1.1 =
  is_ok (Install env revision
           (prelude env i count {| self := x; world := w |})).1.
Proof.
  unfold iteration.
  by destruct (Install env revision _) as [[[]|e] st1].
Qed.

Lemma status_writes_app i t1 t2 :
  status_writes i (t1 ++ t2) = status_writes i t1 ++ status_writes i t2.
Proof. apply omap_app. Qed.

Lemma status_writes_none i (P : Event → bool) t :
  (∀ j s, P (EvStatus j s) = false) →
  Forall (λ e, P e = true) t → status_writes i t = [].
Proof.
  intros HP. induction 1 as [|e t He _ IH]; [done |].
  change (status_writes i (e :: t))
    with (match status_written i e with
          | Some s => s :: status_writes i t
          | None => status_writes i t
          end).
  rewrite IH. destruct e; try done. by rewrite HP in He.
Qed.

Lemma status_writes_cons i e t :
  status_writes i (e :: t) =
  match status_written i e with
  | Some s => s :: status_writes i t
  | None => status_writes i t
  end.
Proof. done. Qed.

Lemma status_writes_display i t :
  Forall (λ e, is_display e = true) t → status_writes i t = [].
Proof. by apply status_writes_none. Qed.

Lemma status_writes_install_call i t :
  Forall (λ e, is_install_call e = true) t → status_writes i t = [].
Proof. by apply status_writes_none. Qed.

Lemma status_writes_call i t :
  Forall (λ e, is_call e = true) t → status_writes i t = [].
Proof. by apply status_writes_none. Qed.

(** Rewrites the status assignments of a trace given piece by piece. *)
Ltac status_writes_norm :=
  repeat (rewrite status_writes_app || rewrite status_writes_cons);
  repeat match goal with
    | H : Forall (λ e, is_display e = true) ?t |- _ =>
        rewrite (status_writes_display _ t H)
    | H : Forall (λ e, is_install_call e = true) ?t |- _ =>
        rewrite (status_writes_install_call _ t H)
    | H : Forall (λ e, is_call e = true) ?t |- _ =>
        rewrite (status_writes_call _ t H)
    end;
  cbn [status_written status_writes omap list_omap app].

(** The assignments to [x.Status] in one turn of the loop. *)
Lemma iteration_status_writes env revision i count x w b x' w' :
  iteration env revision i count x w = (b, x', w') →
  ∃ new, trace w' = trace w ++ new ∧
    (∀ j, j ≠ i → status_writes j new = []) ∧
    (status_writes i new =
       [InstallableAppDownloading; InstallableAppIntegrating;
        InstallableAppInstalled] ∧ Status x' = InstallableAppInstalled ∨
     status_writes i new =
       [InstallableAppDownloading; InstallableAppFailed] ∧
       Status x' = InstallableAppFailed ∨
     status_writes i new =
       [InstallableAppDownloading; InstallableAppIntegrating;
        InstallableAppFailed] ∧ Status x' = InstallableAppFailed).
Proof.
  intros H.
  destruct (prelude_spec env i count x w)
    as (_ & HI0 & _ & _ & _ & _ & shown0 & Hd0 & Ht0).
  destruct (iteration_cases env revision i count x w)
    as (r & st1 & shown & EI & Hd & Hr).
  destruct (Install_cases _ _ _ _ _ EI) as (_ & _ & _ & Hcases).
  rewrite HI0 in Hcases.
  destruct Hcases as [(e & s1 & m1 & _ & -> & _ & _ & Hm1 & Ht)
                     |[(e & s1 & s2 & m1 & m2 & _ & _ & -> & _ & _ & Hm & Ht)
                      |(s1 & s2 & s3 & m1 & m2 & m3 & _ & _ & _ & _ & _ & Hm
                          & Hm3 & Ht)]].
  - destruct Hr as (x1 & w1 & E & _ & _ & HS & _ & _ & Htr).
    rewrite E in H. injection H as <- <- <-.
    eexists. split; [rewrite Htr, Ht, Ht0, <- !app_assoc; reflexivity |].
    split.
    + intros j Hj. status_writes_norm.
      by rewrite ?decide_False by congruence.
    + right. left. split; [| done]. status_writes_norm.
      by rewrite ?decide_True by done.
  - destruct Hr as (x1 & w1 & E & _ & _ & HS & _ & _ & Htr).
    rewrite E in H. injection H as <- <- <-.
    apply Forall_app in Hm as [Hm1 Hm2].
    eexists. split; [rewrite Htr, Ht, Ht0, <- !app_assoc; reflexivity |].
    split.
    + intros j Hj. status_writes_norm.
      by rewrite ?decide_False by congruence.
    + right. right. split; [| done]. status_writes_norm.
      by rewrite ?decide_True by done.
  - apply Forall_app in Hm as [Hm1 Hm2]. destruct r as [[]|e].
    + destruct Hr as (x1 & w1 & E & _ & _ & HS & _ & _ & Htr).
      rewrite E in H. injection H as <- <- <-.
      eexists. split; [rewrite Htr, Ht, Ht0, <- !app_assoc; reflexivity |].
      split.
      * intros j Hj. status_writes_norm.
        by rewrite ?decide_False by congruence.
      * left. split; [| done]. status_writes_norm.
        by rewrite ?decide_True by done.
    + destruct Hr as (x1 & w1 & E & _ & _ & HS & _ & _ & Htr).
      rewrite E in H. injection H as <- <- <-.
      eexists. split; [rewrite Htr, Ht, Ht0, <- !app_assoc; reflexivity |].
      split.
      * intros j Hj. status_writes_norm.
        by rewrite ?decide_False by congruence.
      * right. right. split; [| done]. status_writes_norm.
        by rewrite ?decide_True by done.
Qed.

Lemma loop_status env revision count : ∀ apps i s w r apps' w',
  loop env revision count i s apps w = (r, apps', w') →
  ∃ new, trace w' = trace w ++ new ∧
    (∀ j, j < i ∨ i + Z.of_nat (length apps) <= j →
          status_writes j new = []) ∧
    ∀ (k : nat) x, apps !! k = Some x →
      ∃ x', apps' !! k = Some x' ∧
            status_course (status_writes (i + Z.of_nat k) new) x x'.
Proof.
  induction apps as [|x rest IH]; intros i s w r apps' w' H; simpl in H.
  - injection H as <- <- <-. exists []. rewrite app_nil_r.
    repeat split; [done..|]. intros k x Hk. by rewrite lookup_nil in Hk.
  - destruct (iteration env revision i count x w) as [[b x1] w1] eqn:E.
    destruct (iteration_status_writes _ _ _ _ _ _ _ _ _ E)
      as (new1 & Ht1 & Hother & Hmine).
    destruct b.
    + destruct (loop env revision count (i + 1) (s + 1) rest w1)
        as [[r2 rest2] w2] eqn:EL.
      injection H as <- <- <-.
      destruct (IH _ _ _ _ _ _ EL) as (new2 & Ht2 & Hrange & Hk).
      exists (new1 ++ new2). split; [by rewrite Ht2, Ht1, app_assoc |].
      split.
      * intros j Hj. rewrite status_writes_app, Hother, Hrange; [done | |].
        -- simpl length in Hj. lia.
        -- simpl length in Hj. lia.
      * intros [|k] y Hy; simpl in Hy.
        -- injection Hy as <-. exists x1. split; [done |].
           rewrite Z.add_0_r, status_writes_app, (Hrange i), app_nil_r by lia.
           right. destruct Hmine as [?|[?|?]]; auto.
        -- destruct (Hk k y Hy) as (y' & Hy' & Hc). exists y'.
           split; [done |].
           rewrite status_writes_app, Hother, app_nil_l by lia.
           by replace (i + Z.of_nat (S k)) with (i + 1 + Z.of_nat k) by lia.
    + injection H as <- <- <-. exists new1. split; [done |]. split.
      * intros j Hj. apply Hother. simpl length in Hj. lia.
      * intros [|k] y Hy; simpl in Hy.
        -- injection Hy as <-. exists x1. split; [done |].
           rewrite Z.add_0_r. right. destruct Hmine as [?|[?|?]]; auto.
        -- exists y. split; [done |]. left. split; [| done].
           apply Hother. lia.
Qed.

(** The requests behind the one that failed are returned as they were. *)
Lemma loop_untouched env revision count : ∀ apps i s w r apps' w',
  loop env revision count i s apps w = (r, apps', w') →
  s <= r ∧ ∀ k : nat, r - s < Z.of_nat k → apps' !! k = apps !! k.
Proof.
  induction apps as [|x rest IH]; intros i s w r apps' w' H; simpl in H.
  - injection H as <- <- <-. split; [lia | done].
  - destruct (iteration env revision i count x w) as [[[] x1] w1].
    + destruct (loop env revision count (i + 1) (s + 1) rest w1)
        as [[r2 rest2] w2] eqn:EL.
      injection H as <- <- <-. destruct (IH _ _ _ _ _ _ EL) as [Hle Hk].
      split; [lia |]. intros [|k] Hlt; [lia |]. simpl. apply Hk. lia.
    + injection H as <- <- <-. split; [lia |].
      intros [|k] Hlt; [lia | done].
Qed.

(** ** Events that keep the journal entry *)

Lemma keeps_pending_display registered t :
  Forall (λ e, is_display e = true) t → Forall (keeps_pending registered) t.
Proof. intros H. eapply Forall_impl; [exact H |]. by intros []. Qed.

Lemma keeps_pending_install_call registered t :
  Forall (λ e, is_install_call e = true) t →
  Forall (keeps_pending registered) t.
Proof.
  intros Ht. eapply Forall_impl; [exact Ht |]. intros [] H; try done.
  simpl in H. split; [| done]. simpl. by destruct (is_config_op op).
Qed.

Lemma StartStatusTicker_self st : self (StartStatusTicker st) = self st.
Proof. done. Qed.

(** * The claims *)

(** C1, in-place revision.  The revision of [Download] that calls
    [os.Create] on the bundle path shows a partial bundle there: in the run
    below the download succeeds with a bundle of three bytes, and one of
    the states on the way has a file of two bytes at the bundle path. *)
Theorem Download_in_place_exposes_partial_bundle :
  let st := {| self := sample_request "foo" 3; world := empty_world |} in
  let final := core.AppImage (paths (self st)) in
  let r := Download quiet InPlace st in
  r.1 = Ok tt ∧
  files (fs (world r.2)) !! final =
    Some {| data := [x01; x02; x03]; perm := 493 |} ∧
  ∃ (i : nat) s,
    observed (world r.2) !! i = Some s ∧
    files s !! final = Some {| data := [x01; x02]; perm := 438 |}.
Proof.
  split; [by vm_compute |]. split; [by vm_compute |].
  exists 2%nat. eexists. split; vm_compute; reflexivity.
Qed.

(** The staged revision does what C1 asks for.  When nothing is at the
    bundle path before [Download], every state of the file system during
    [Download] has nothing there or the complete bundle: no file smaller
    than the final one is ever at the bundle path. *)
Theorem Download_staged_never_partial env st r st' :
  let final := core.AppImage (paths (self st)) in
  let D := concat (produced env (now st + 3)%nat
                     (OpAssetDownload (Asset (self st)))) in
  Download env Staged st = (r, st') →
  files (fs (world st)) !! final = None →
  ∃ news, observed (world st') = news ++ observed (world st) ∧
    Forall (λ s, files s !! final = None ∨
                 ∃ f, files s !! final = Some f ∧ data f = D) news ∧
    (r = Ok tt →
     files (fs (world st')) !! final = Some {| data := D; perm := 493 |}).
Proof.
  intros final D H Hnone.
  destruct (Download_staged_spec _ _ _ _ H) as [(news & Ho & Hn) Hok].
  exists news. split; [done |]. split.
  - eapply Forall_impl; [exact Hn |]. intros s [Hs|Hs]; [left | by right].
    exact (eq_trans Hs Hnone).
  - intros Hr. by destruct (Hok Hr).
Qed.

(** C2, where the code departs from it.  [Integrate] registers the removal
    of the scratch directory only after the check of the error of
    [core.DeflateAppImage]: when that call is what fails, [Integrate]
    returns its error and the scratch directory it made is still there. *)
Theorem Integrate_deflate_error_keeps_scratch env st st' :
  Integrate env st =
    (Err (OpDeflateAppImage (core.AppImage (paths (self st)))
            (scratch_dir (self st))), st') →
  is_dir (fs (world st')) (scratch_dir (self st)) = true.
Proof.
  intros H. apply Integrate_cases in H as [[? _]|[[_ ->]|(st2 & H & ->)]].
  - discriminate.
  - simpl. apply is_dir_add_dir.
  - exfalso.
    apply bind_inv in H as [(? & s1 & H1 & H)|(e & H1 & ?)].
    + apply bind_inv in H as [(? & s2 & H2 & H)|(e & H2 & ?)].
      * unfold InstallDesktopFile in H.
        apply call_inv in H as [(? & _)|(? & _)]; discriminate.
      * unfold CopyIconFile in H2.
        apply call_inv in H2 as [(? & _)|(? & _)]; congruence.
    + unfold ExtractMetadata in H1.
      apply call_ret_inv in H1 as [(? & _)|(? & _)]; congruence.
Qed.

Lemma Integrate_deflate_error_keeps_scratch_witness :
  let env := deflate_fails (core.AppImage (sample_paths "bar")) in
  let st := {| self := sample_request "bar" 3; world := empty_world |} in
  is_dir (fs (world (Integrate env st).2)) "apps/bar/temp" = true.
Proof.
  intros env st.
  apply (Integrate_deflate_error_keeps_scratch env st (Integrate env st).2).
  vm_compute. reflexivity.
Defined.

(** C3.  When [x.Install()] returns no error, the turn of the loop goes on
    to [core.UpdateTransactions] with the deleting mutator: the journal it
    leaves has no entry for the app id, and that update is the last event
    of the turn, after everything [Install] did. *)
Theorem successful_install_clears_journal env revision i count x w st1 :
  Install env revision (prelude env i count {| self := x; world := w |}) =
    (Ok tt, st1) →
  ∃ x' w' between,
    iteration env revision i count x w = (true, x', w') ∧
    journal w' = delete (app_id x) (journal (world st1)) ∧
    journal w' !! app_id x = None ∧
    trace w' =
      trace (world st1) ++ between ++ [EvUpdateTransactions (journal w')].
Proof.
  intros H.
  destruct (iteration_cases env revision i count x w)
    as (r & st & shown & EI & _ & Hr).
  rewrite H in EI. injection EI as <- <-.
  destruct Hr as (x' & w' & E & _ & _ & _ & Hj & _ & Ht).
  exists x', w', (EvStatus i InstallableAppInstalled :: shown).
  split; [done |]. split; [done |]. split.
  - rewrite Hj. apply lookup_delete_eq.
  - rewrite Ht, Hj. done.
Qed.

Lemma successful_install_clears_journal_witness :
  ∃ x' w' between,
    iteration quiet Staged 0 1 (sample_request "foo" 3) empty_world =
      (true, x', w') ∧
    journal w' =
      delete "foo"
        (journal (world (Install quiet Staged
           (prelude quiet 0 1
              {| self := sample_request "foo" 3; world := empty_world |})).2)) ∧
    journal w' !! "foo" = None ∧
    trace w' =
      trace (world (Install quiet Staged
        (prelude quiet 0 1
           {| self := sample_request "foo" 3; world := empty_world |})).2) ++
      between ++ [EvUpdateTransactions (journal w')].
Proof.
  apply (successful_install_clears_journal quiet Staged 0 1
           (sample_request "foo" 3) empty_world).
  vm_compute. reflexivity.
Defined.

(** C4.  When [Download] fails, or [Download] succeeds and [Integrate]
    fails, the turn ends in [break] with the status [Failed]; the journal
    still has the entry registered for the app id, and between the start
    and the end of the turn no call of the configuration store is made
    ([SaveConfig] is not invoked) and the journal is updated only by the
    registration (the delete is not executed).  The bundle file a completed
    [Download] wrote is still there at the end of the turn, given that the
    icon path and the scratch directory are not the bundle path itself. *)
Theorem failed_install_keeps_journal_entry env revision i count x w e st_end :
  let st0 :=
    StartStatusTicker (prelude env i count {| self := x; world := w |}) in
  let registered := <[app_id x := pending_of x]> (journal w) in
  (Download env revision st0 = (Err e, st_end) ∨
   ∃ st1, Download env revision st0 = (Ok tt, st1) ∧
          Integrate env (assign_Status InstallableAppIntegrating st1) =
            (Err e, st_end)) →
  ∃ x' w' new,
    iteration env revision i count x w = (false, x', w') ∧
    Status x' = InstallableAppFailed ∧
    journal w' = registered ∧
    journal w' !! app_id x = Some (pending_of x) ∧
    trace w' = trace w ++ new ∧
    Forall (keeps_pending registered) new ∧
    ∀ st1,
      Download env revision st0 = (Ok tt, st1) →
      core.Icon (paths x) ≠ core.AppImage (paths x) →
      under (scratch_dir x) (core.AppImage (paths x)) = false →
      ∃ D, files (fs (world st1)) !! core.AppImage (paths x) =
             Some {| data := D; perm := 493 |} ∧
           files (fs w') !! core.AppImage (paths x) =
             Some {| data := D; perm := 493 |}.
Proof.
  intros st0 registered Hfail.
  destruct (prelude_spec env i count x w)
    as (HA0 & HI0 & _ & _ & Hj0 & _ & shown0 & Hd0 & Ht0).
  destruct (iteration_cases env revision i count x w)
    as (r & st1' & shown & EI & Hd & Hr).
  destruct (Install_cases _ _ _ _ _ EI) as (_ & _ & Hj & Hcases).
  rewrite HI0 in Hcases.
  rewrite Hj0 in Ht0, Hj. fold registered in Ht0, Hj.
  subst st0.
  remember (prelude env i count {| self := x; world := w |}) as pr eqn:Epr.
  clear Epr EI.
  assert (Hreg : Forall (keeps_pending registered)
                   (EvStatus i InstallableAppDownloading :: shown0 ++
                      [EvUpdateTransactions registered])).
  { constructor; [done |]. apply Forall_app. split.
    - by apply keeps_pending_display.
    - repeat constructor. by intros j [= <-]. }
  destruct Hcases as [(e1 & s1 & m1 & ED & -> & Hst & _ & Hm1 & Ht)
                     |[(e1 & s1 & s2 & m1 & m2 & ED & EG & -> & Hst & _ & Hm
                          & Ht)
                      |(s1 & s2 & s3 & m1 & m2 & m3 & ED & EG & _)]].
  - destruct Hr as (x' & w' & E & _ & _ & HS & Hjw & Ho & Htr).
    exists x', w',
      ((EvStatus i InstallableAppDownloading :: shown0 ++
          [EvUpdateTransactions registered]) ++
       (EvTickerStart i :: m1 ++ [EvTickerStop i]) ++
       (EvStatus i InstallableAppFailed :: shown ++ [EvLogError e1])).
    split; [done |]. split; [done |].
    split; [congruence |]. split.
    { rewrite Hjw, Hj. apply lookup_insert_eq. }
    split.
    { rewrite Htr, Ht, Ht0. by rewrite <- !app_assoc. }
    split.
    { apply Forall_app. split; [exact Hreg |]. apply Forall_app. split.
      - constructor; [done |]. apply Forall_app. split.
        + by apply keeps_pending_install_call.
        + by repeat constructor.
      - constructor; [done |]. apply Forall_app.
        split; [by apply keeps_pending_display | by repeat constructor]. }
    intros st1 ED'. rewrite ED in ED'. discriminate.
  - destruct Hr as (x' & w' & E & _ & _ & HS & Hjw & Ho & Htr).
    apply Forall_app in Hm as [Hm1 Hm2].
    exists x', w',
      ((EvStatus i InstallableAppDownloading :: shown0 ++
          [EvUpdateTransactions registered]) ++
       (EvTickerStart i :: m1 ++
          EvStatus i InstallableAppIntegrating :: m2 ++ [EvTickerStop i]) ++
       (EvStatus i InstallableAppFailed :: shown ++ [EvLogError e1])).
    split; [done |]. split; [done |].
    split; [congruence |]. split.
    { rewrite Hjw, Hj. apply lookup_insert_eq. }
    split.
    { rewrite Htr, Ht, Ht0. by rewrite <- !app_assoc. }
    split.
    { apply Forall_app. split; [exact Hreg |]. apply Forall_app. split.
      - constructor; [done |]. apply Forall_app. split.
        + by apply keeps_pending_install_call.
        + constructor; [done |]. apply Forall_app. split.
          * by apply keeps_pending_install_call.
          * by repeat constructor.
      - constructor; [done |]. apply Forall_app.
        split; [by apply keeps_pending_display | by repeat constructor]. }
    intros st1 ED' Hicon Hunder. rewrite ED in ED'. injection ED' as <-.
    destruct (Download_ok _ _ _ _ ED) as (D & HD & _).
    destruct (Download_stage _ _ _ _ _ ED) as (Hs & _).
    apply same_but_Progress_fields in Hs as (HA & _).
    rewrite StartStatusTicker_self in HA.
    assert (HAx : App (self s1) = App x) by (by rewrite HA).
    assert (Hp : paths (self (assign_Status InstallableAppIntegrating s1)) =
                 paths x).
    { unfold paths. simpl. by rewrite HAx. }
    assert (Hp0 : paths (self (StartStatusTicker pr)) = paths x).
    { rewrite StartStatusTicker_self. unfold paths. by rewrite HA0. }
    rewrite Hp0 in HD. exists D. split; [exact HD |].
    pose proof (Integrate_error_keeps_bundle env _ _ _
                  ltac:(by rewrite Hp)
                  ltac:(by unfold scratch_dir; rewrite Hp) EG) as Hk.
    rewrite Hp in Hk. simpl in Hk.
    assert (Hfs : fs w' = fs (world s2)).
    { unfold observed in Ho. injection Ho as -> _. by rewrite Hst. }
    by rewrite Hfs, Hk.
  - exfalso. destruct Hfail as [Hf|(st1 & Hf & Hg)].
    + rewrite ED in Hf. discriminate.
    + rewrite ED in Hf. injection Hf as <-. rewrite EG in Hg. discriminate.
Qed.

Lemma failed_install_keeps_journal_entry_witness :
  let env := deflate_fails (core.AppImage (sample_paths "bar")) in
  let x := sample_request "bar" 3 in
  ∃ x' w',
    iteration env Staged 0 1 x empty_world = (false, x', w') ∧
    Status x' = InstallableAppFailed ∧
    journal w' !! "bar" = Some (pending_of x) ∧
    ∃ D, files (fs w') !! core.AppImage (paths x) =
           Some {| data := D; perm := 493 |}.
Proof.
  intros env x.
  pose (st0 := StartStatusTicker
                 (prelude env 0 1 {| self := x; world := empty_world |})).
  pose (st1 := (Download env Staged st0).2).
  pose (st2 := (Integrate env
                  (assign_Status InstallableAppIntegrating st1)).2).
  destruct (failed_install_keeps_journal_entry env Staged 0 1 x empty_world
              (OpDeflateAppImage (core.AppImage (paths x)) (scratch_dir x))
              st2)
    as (x' & w' & new & E & HS & _ & Hj & _ & _ & Hb).
  { right. exists st1. split; vm_compute; reflexivity. }
  destruct (Hb st1) as (D & _ & HD).
  - vm_compute. reflexivity.
  - vm_compute. discriminate.
  - vm_compute. reflexivity.
  - exists x', w'. eauto.
Defined.

(** C5.  In every turn of the loop the journal update that registers the
    request comes before every call of the pipeline: ahead of it the turn
    assigns the status and shows a line, and makes no call and no change
    to the file system.  The entry is keyed by the app id and lists the app
    directory and the desktop-entry file. *)
Theorem pending_entry_precedes_pipeline env revision i count x w :
  let registered := <[app_id x := pending_of x]> (journal w) in
  ∃ continue x' w' before after,
    iteration env revision i count x w = (continue, x', w') ∧
    trace w' =
      trace w ++ before ++ EvUpdateTransactions registered :: after ∧
    Forall (λ e, is_call e = false) before ∧
    observed (world (prelude env i count {| self := x; world := w |})) =
      observed w ∧
    registered !! app_id x =
      Some {| core.InvolvedDirs := [core.Dir (paths x)];
              core.InvolvedFiles := [core.Desktop (paths x)] |}.
Proof.
  intros registered.
  destruct (prelude_spec env i count x w)
    as (_ & _ & _ & _ & Hj0 & Ho0 & shown0 & Hd0 & Ht0).
  destruct (iteration_cases env revision i count x w)
    as (r & st1 & shown & EI & _ & Hr).
  destruct (Install_cases _ _ _ _ _ EI) as (_ & _ & _ & Hcases).
  assert (Hext : ∃ m, trace (world st1) =
            trace (world (prelude env i count {| self := x; world := w |}))
            ++ m).
  { destruct Hcases as [(? & ? & ? & _ & _ & _ & _ & _ & ->)
                       |[(? & ? & ? & ? & ? & _ & _ & _ & _ & _ & _ & ->)
                        |(? & ? & ? & ? & ? & ? & _ & _ & _ & _ & _ & _ & _
                            & ->)]]; eauto. }
  destruct Hext as (m & Hm).
  assert (Hbefore : Forall (λ e, is_call e = false)
                      (EvStatus i InstallableAppDownloading :: shown0)).
  { constructor; [done |]. eapply Forall_impl; [exact Hd0 |].
    by intros []. }
  rewrite Hj0 in Ht0. fold registered in Ht0.
  destruct r as [[]|e]; destruct Hr as (x' & w' & E & _ & _ & _ & _ & _ & Ht).
  - exists true, x', w', (EvStatus i InstallableAppDownloading :: shown0).
    eexists. split; [done |]. split; [| split; [done | split; [done |]]].
    + rewrite Ht, Hm, Ht0, <- !app_assoc. simpl. rewrite <- !app_assoc.
      reflexivity.
    + apply lookup_insert_eq.
  - exists false, x', w', (EvStatus i InstallableAppDownloading :: shown0).
    eexists. split; [done |]. split; [| split; [done | split; [done |]]].
    + rewrite Ht, Hm, Ht0, <- !app_assoc. simpl. rewrite <- !app_assoc.
      reflexivity.
    + apply lookup_insert_eq.
Qed.

(** C6.  When every request succeeds, [InstallApps] returns (N, 0).  When
    the requests before request k succeed and request k fails, it returns
    (k-1, N-(k-1)) and stops there: the world it returns is the one the
    turn of request k left, and the requests behind k come back as they
    were.  Here k-1 is the number of requests in [served]. *)
Theorem InstallApps_counts env revision :
  (∀ apps w apps' w',
     run_successes env revision (Z.of_nat (length apps)) 0 apps w =
       Some (apps', w') →
     InstallApps env revision apps w =
       ((Z.of_nat (length apps), 0), apps', w')) ∧
  (∀ served x rest w served' wk x' w',
     let N := Z.of_nat (length (served ++ x :: rest)) in
     let k := Z.of_nat (length served) + 1 in
     run_successes env revision N 0 served w = Some (served', wk) →
     iteration env revision (k - 1) N x wk = (false, x', w') →
     InstallApps env revision (served ++ x :: rest) w =
       ((k - 1, N - (k - 1)), served' ++ x' :: rest, w')).
Proof.
  split.
  - intros apps w apps' w' H. unfold InstallApps.
    pose proof (loop_served env revision _ apps 0 0 w apps' w' [] H) as HL.
    rewrite app_nil_r in HL. rewrite HL. simpl.
    rewrite app_nil_r. do 2 f_equal. f_equal; lia.
  - intros served x rest w served' wk x' w' N k H Hx. unfold InstallApps.
    fold N.
    rewrite (loop_served env revision N served 0 0 w served' wk (x :: rest) H).
    simpl. replace (0 + Z.of_nat (length served)) with (k - 1) by lia.
    rewrite Hx. done.
Qed.

Lemma InstallApps_counts_witness :
  InstallApps quiet Staged
    [sample_request "foo" 3; sample_request "bar" 3] empty_world =
    ((2, 0),
     (InstallApps quiet Staged
        [sample_request "foo" 3; sample_request "bar" 3] empty_world).1.2,
     (InstallApps quiet Staged
        [sample_request "foo" 3; sample_request "bar" 3] empty_world).2) ∧
  (InstallApps (deflate_fails (core.AppImage (sample_paths "bar"))) Staged
     ([sample_request "foo" 3] ++
      sample_request "bar" 3 :: [sample_request "baz" 3])
     empty_world).1.1 = (1, 2).
Proof.
  split.
  - apply (proj1 (InstallApps_counts quiet Staged)
             [sample_request "foo" 3; sample_request "bar" 3] empty_world).
    vm_compute. reflexivity.
  - set (env := deflate_fails (core.AppImage (sample_paths "bar"))).
    pose (first := iteration env Staged 0 3 (sample_request "foo" 3)
                     empty_world).
    pose (second := iteration env Staged 1 3 (sample_request "bar" 3) first.2).
    rewrite (proj2 (InstallApps_counts env Staged)
               [sample_request "foo" 3] (sample_request "bar" 3)
               [sample_request "baz" 3] empty_world
               [first.1.2] first.2 second.1.2 second.2).
    + reflexivity.
    + vm_compute. reflexivity.
    + vm_compute. reflexivity.
Defined.

(** C7, as the code has it.  After a successful [Download] the bundle path
    holds the bytes the stream delivered, and the counter, an [int64], has
    grown by their number; it equals [Asset.Size] when it started at 0 and
    the stream delivered exactly [Size] bytes.  [Write] adds the length of
    the chunk it is given, and the stages after [Download] leave the
    receiver, and so the counter, as it is. *)
Theorem Download_Progress_counts_bytes env revision st st' :
  Download env revision st = (Ok tt, st') →
  - 2 ^ 63 <= Progress (self st) < 2 ^ 63 →
  (∃ D, files (fs (world st')) !! core.AppImage (paths (self st)) =
          Some {| data := D; perm := 493 |} ∧
        Progress (self st') =
          wrap64 (Progress (self st) + Z.of_nat (length D)) ∧
        (Progress (self st) = 0 →
         Z.of_nat (length D) = core.Size (Asset (self st)) →
         core.Size (Asset (self st)) < 2 ^ 63 →
         Progress (self st') = core.Size (Asset (self st)))) ∧
  (∀ chunk s,
     Write chunk s =
       (Ok (Z.of_nat (length chunk)),
        on_self (λ x, set_Progress
                   (wrap64 (Progress x + Z.of_nat (length chunk))) x) s)) ∧
  (∀ s r s', Integrate env s = (r, s') → Progress (self s') = Progress (self s)) ∧
  (∀ s r s', SaveConfig env s = (r, s') → Progress (self s') = Progress (self s)).
Proof.
  intros H Hrange. split; [| split; [done | split]].
  - destruct (Download_ok _ _ _ _ H) as (D & HD & HP).
    exists D. split; [done |]. split; [by apply HP |].
    intros H0 Hlen Hsize. rewrite (HP Hrange), H0, Z.add_0_l, Hlen.
    apply wrap64_small. lia.
  - intros s r s' HI. by rewrite (Integrate_self _ _ _ _ HI).
  - intros s r s' HS. by rewrite (SaveConfig_self _ _ _ _ HS).
Qed.

Lemma Download_Progress_counts_bytes_witness :
  let st := {| self := sample_request "foo" 3; world := empty_world |} in
  ∃ D, files (fs (world (Download quiet Staged st).2)) !!
         core.AppImage (paths (self st)) =
         Some {| data := D; perm := 493 |} ∧
       Progress (self (Download quiet Staged st).2) = 3.
Proof.
  intros st.
  destruct (Download_Progress_counts_bytes quiet Staged st
              (Download quiet Staged st).2)
    as ((D & HD & HP & Hsize) & _).
  - vm_compute. reflexivity.
  - vm_compute. split; [discriminate | reflexivity].
  - exists D. split; [exact HD |]. apply Hsize.
    + reflexivity.
    + clear Hsize HP. revert HD. vm_compute. intros [= <-]. reflexivity.
    + reflexivity.
Defined.

(** C7, as it is written, fails: an asset that declares 10 bytes and whose
    stream delivers 3 is downloaded without error, and the counter is 3. *)
Lemma Progress_differs_from_declared_Size :
  let st := {| self := sample_request "foo" 10; world := empty_world |} in
  (Download quiet Staged st).1 = Ok tt ∧
  Progress (self (Download quiet Staged st).2) = 3 ∧
  core.Size (Asset (self (Download quiet Staged st).2)) = 10 ∧
  Progress (self (Download quiet Staged st).2) ≠
    core.Size (Asset (self (Download quiet Staged st).2)).
Proof. vm_compute. repeat split; discriminate. Qed.

(** C8, as the code has it.  Over a batch, the assignments to the [Status]
    of a request are none (the request was not reached and is returned as
    it was) or start with [Downloading], which replaces whatever status the
    request had, proceed by allowed transitions only, and end with
    [Installed] or [Failed], which is the status the request has when the
    batch returns: nothing is assigned after it. *)
Theorem Status_follows_transitions env revision apps w counts apps' w' :
  InstallApps env revision apps w = (counts, apps', w') →
  ∃ new, trace w' = trace w ++ new ∧
    ∀ (k : nat) x, apps !! k = Some x →
      ∃ x', apps' !! k = Some x' ∧
        status_course (status_writes (Z.of_nat k) new) x x' ∧
        follows_transitions (status_writes (Z.of_nat k) new) = true.
Proof.
  unfold InstallApps.
  destruct (loop env revision _ 0 0 apps w) as [[r a'] wf] eqn:E.
  intros [= _ <- <-].
  destruct (loop_status _ _ _ _ _ _ _ _ _ _ E) as (new & Ht & _ & Hk).
  exists new. split; [done |]. intros k x Hx.
  destruct (Hk k x Hx) as (x' & Hx' & Hc). rewrite Z.add_0_l in Hc.
  exists x'. split; [done |]. split; [done |].
  destruct Hc as [[-> _]|[[-> _]|[[-> _]|[-> _]]]]; done.
Qed.

Lemma Status_follows_transitions_witness :
  let x := sample_request "foo" 3 in
  let r := InstallApps quiet Staged [x] empty_world in
  ∃ x', r.1.2 !! 0%nat = Some x' ∧
        status_writes 0 (trace r.2) =
          [InstallableAppDownloading; InstallableAppIntegrating;
           InstallableAppInstalled] ∧
        Status x' = InstallableAppInstalled.
Proof.
  intros x r.
  destruct (Status_follows_transitions quiet Staged [x] empty_world
              r.1.1 r.1.2 r.2) as (new & Ht & Hk).
  { vm_compute. reflexivity. }
  destruct (Hk 0%nat x eq_refl) as (x' & Hx' & _ & _).
  exists x'. split; [exact Hx' |]. split.
  - vm_compute. reflexivity.
  - revert Hx'. vm_compute. intros [= <-]. reflexivity.
Defined.

(** C8, as it is written, fails: a fresh request has the status [Failed],
    and the batch runner changes it, to [Downloading]; the course of its
    status over the batch starts with a transition out of [Failed]. *)
Lemma Status_leaves_Failed :
  let x := sample_request "foo" 3 in
  let r := InstallApps quiet Staged [x] empty_world in
  Status x = InstallableAppFailed ∧
  status_writes 0 (trace r.2) =
    [InstallableAppDownloading; InstallableAppIntegrating;
     InstallableAppInstalled] ∧
  allowed_transition (Status x) InstallableAppDownloading = false ∧
  follows_transitions (Status x :: status_writes 0 (trace r.2)) = false.
Proof. vm_compute. done. Qed.

(** C9.  [InstallableAppFailed] is the first constant of the [iota] block,
    so it is the integer 0, the zero value of the type; a request built by
    a composite literal reads [Failed]; the batch runner assigns
    [Downloading] in the statements before [x.Install()]; and the requests
    behind the first failure come back as they were, so a fresh one among
    them still reads [Failed]. *)
Theorem zero_status_is_Failed :
  status_code InstallableAppFailed = 0 ∧
  zero_status = InstallableAppFailed ∧
  (∀ app src asset,
     Status (new_InstallableApp app src asset) = InstallableAppFailed) ∧
  (∀ env i count x w,
     Status (self (prelude env i count {| self := x; world := w |})) =
       InstallableAppDownloading) ∧
  (∀ env revision apps w (k : nat) app src asset,
     let '((success, _), apps', _) := InstallApps env revision apps w in
     success < Z.of_nat k →
     apps !! k = Some (new_InstallableApp app src asset) →
     ∃ x', apps' !! k = Some x' ∧ Status x' = InstallableAppFailed).
Proof.
  split; [done |]. split; [done |]. split; [done |]. split.
  - intros env i count x w.
    by destruct (prelude_spec env i count x w) as (_ & _ & ? & _).
  - intros env revision apps w k app src asset. unfold InstallApps.
    destruct (loop env revision _ 0 0 apps w) as [[r apps'] w'] eqn:E.
    intros Hk Hfresh. destruct (loop_untouched _ _ _ _ _ _ _ _ _ _ E) as [_ H].
    exists (new_InstallableApp app src asset).
    rewrite H by lia. done.
Qed.

Lemma zero_status_is_Failed_witness :
  ∃ x',
    (InstallApps (deflate_fails (core.AppImage (sample_paths "bar"))) Staged
       [sample_request "foo" 3; sample_request "bar" 3;
        sample_request "baz" 3] empty_world).1.2 !! 2%nat = Some x' ∧
    Status x' = InstallableAppFailed.
Proof.
  pose proof (proj2 (proj2 (proj2 (proj2 zero_status_is_Failed)))) as H.
  specialize (H (deflate_fails (core.AppImage (sample_paths "bar"))) Staged
                [sample_request "foo" 3; sample_request "bar" 3;
                 sample_request "baz" 3] empty_world 2%nat
                {| core.Id := "baz"; core.Name := "baz"; core.Version := "v1";
                   core.Source := "http"; core.Paths := sample_paths "baz" |}
                (core.HttpSource "http://host/baz")
                {| core.AssetName := "baz.AppImage";
                   core.DownloadUrl := "http://host/baz"; core.Size := 3 |}).
  destruct (InstallApps _ Staged _ empty_world) as [[[s f] apps'] w'] eqn:E.
  apply H; [| reflexivity].
  apply (f_equal (λ r, r.1.1.1)) in E. vm_compute in E. by subst s.
Defined.

(** C10.  [InstallApps] on an empty slice returns (0, 0) and leaves the
    world as it is: the journal, the file system and the trace (so nothing
    is printed and no stage runs). *)
Theorem InstallApps_nil env revision w :
  InstallApps env revision [] w = ((0, 0), [], w).
Proof. reflexivity. Qed.

(** * Further properties of the pipeline *)

(** ** Frames *)

Global Instance keeps_preorder {A} (f : World → A) : PreOrder (keeps f).
Proof.
  split; [by intros st | intros a b c; unfold keeps; congruence].
Qed.

Lemma keeps_call {A} (f : World → A) env op pre eff :
  (∀ e w, f (log e w) = f w) → (∀ w, f (eff w) = f w) →
  respects (keeps f) (call env op pre eff).
Proof.
  intros Hl He. apply respects_call; intros st; unfold keeps; simpl;
    by rewrite ?He, Hl.
Qed.

Lemma keeps_call_ {A} (f : World → A) env op pre eff st :
  (∀ e w, f (log e w) = f w) → (∀ w, f (eff w) = f w) →
  keeps f st (call_ env op pre eff st).
Proof.
  intros Hl He. unfold call_.
  destruct (call env op pre eff st) as [r st'] eqn:E.
  exact (keeps_call f env op pre eff Hl He _ _ _ E).
Qed.

Lemma keeps_Write {A} (f : World → A) data : respects (keeps f) (Write data).
Proof. by intros st r st' [= _ <-]. Qed.

(** Decomposes a goal [respects (keeps f) m] along the structure of [m]. *)
Ltac keeps_step :=
  lazymatch goal with
  | |- respects _ (mret _) => apply respects_ret; apply _
  | |- respects _ (mbind _ _) => apply respects_bind; [apply _ | | intros ?]
  | |- respects _ (deferring _ _) =>
      apply respects_deferring; [apply _ | intros ? |]
  | |- respects _ (lift _) => apply respects_lift; intros ?
  | |- respects (keeps _) (call _ _ _ _) => apply keeps_call; done
  | |- respects (keeps _) (Write _) => apply keeps_Write
  | |- keeps _ _ (call_ _ _ _ _ _) => apply keeps_call_; done
  | |- respects _ (match ?r with Staged => _ | InPlace => _ end) => destruct r
  | |- respects _ (if ?b then _ else _) => destruct b
  | |- respects ?R (λ st, _) =>
      let st0 := fresh "st" in
      let r0 := fresh "r" in
      let st1 := fresh "st" in
      let H := fresh "H" in
      intros st0 r0 st1 H; cbv beta zeta in H; revert r0 st1 H;
      lazymatch goal with
      | |- ∀ r st', ?m st0 = (r, st') → _ =>
          refine ((_ : respects R m) st0)
      end
  end.

Ltac keeps_all := repeat keeps_step.

Lemma io_Copy_keeps {A} (f : World → A) env file src chunks :
  (∀ e w, f (log e w) = f w) → (∀ g w, f (upd_fs g w) = f w) →
  respects (keeps f) (io_Copy env (MultiWriter_Write env file) src chunks).
Proof.
  intros Hl Hu. induction chunks as [|c rest IH]; simpl.
  - by apply keeps_call.
  - apply respects_bind; [apply _ | | intros ?; exact IH].
    destruct (decide (c = [])); unfold MultiWriter_Write, file_Write.
    + apply respects_ret; apply _.
    + apply respects_bind; [apply _ | | intros ?].
      * by apply keeps_call.
      * apply respects_bind; [apply _ | apply keeps_Write | intros ?].
        apply respects_ret; apply _.
Qed.

Lemma Download_keeps {A} (f : World → A) env revision :
  (∀ e w, f (log e w) = f w) → (∀ g w, f (upd_fs g w) = f w) →
  respects (keeps f) (Download env revision).
Proof.
  intros Hl Hu.
  unfold Download, os_MkdirAll, utils_CreateTempFile, os_Create,
    Asset_Download, os_Rename, os_Chmod, close.
  keeps_all; by apply io_Copy_keeps.
Qed.

Lemma Integrate_keeps {A} (f : World → A) env :
  (∀ e w, f (log e w) = f w) → (∀ g w, f (upd_fs g w) = f w) →
  respects (keeps f) (Integrate env).
Proof.
  intros Hl Hu.
  unfold Integrate, os_Mkdir, core_DeflateAppImage, ExtractMetadata,
    CopyIconFile, InstallDesktopFile, os_RemoveAll.
  keeps_all.
Qed.

(** X1.  [Download] and [Integrate] write neither the configuration
    store (the per-app config files and the registry) nor the journal,
    however they end; [Integrate] does not write the receiver either.  So
    of the three stages only [SaveConfig] writes the store. *)
Theorem only_SaveConfig_writes_the_store env revision st :
  let downloaded := (Download env revision st).2 in
  let integrated := (Integrate env st).2 in
  (config_store (world downloaded) = config_store (world st) ∧
   journal (world downloaded) = journal (world st)) ∧
  (config_store (world integrated) = config_store (world st) ∧
   journal (world integrated) = journal (world st) ∧
   self integrated = self st).
Proof.
  simpl. split.
  - destruct (Download env revision st) as [r st'] eqn:H. split.
    + exact (Download_keeps config_store env revision
               ltac:(done) ltac:(done) _ _ _ H).
    + exact (Download_keeps journal env revision
               ltac:(done) ltac:(done) _ _ _ H).
  - destruct (Integrate env st) as [r st'] eqn:H. split; [| split].
    + exact (Integrate_keeps config_store env ltac:(done) ltac:(done) _ _ _ H).
    + exact (Integrate_keeps journal env ltac:(done) ltac:(done) _ _ _ H).
    + exact (Integrate_self env _ _ _ H).
Qed.

(** ** [SaveConfig] *)

(** Where [SaveConfig] ends, by the call that stopped it. *)
Lemma SaveConfig_cases env st r st' :
  let x := self st in
  let p := paths x in
  let w := world st in
  let w1 := set_app_configs (<[core.Config p := App x]> (app_configs w))
              (log (EvCall (OpSaveAppConfig (core.Config p)) true) w) in
  let w2 := set_source_configs
              (<[core.SourceConfig p := Source x]> (source_configs w1))
              (log (EvCall (OpSaveSourceConfig (core.SourceConfig p)) true)
                 w1) in
  let w3 := log (EvCall OpReadConfig true) w2 in
  SaveConfig env st = (r, st') →
  self st' = x ∧
  ((r = Err (OpSaveAppConfig (core.Config p)) ∧
    world st' = log (EvCall (OpSaveAppConfig (core.Config p)) false) w) ∨
   (r = Err (OpSaveSourceConfig (core.SourceConfig p)) ∧
    world st' =
      log (EvCall (OpSaveSourceConfig (core.SourceConfig p)) false) w1) ∨
   (r = Err OpReadConfig ∧ world st' = log (EvCall OpReadConfig false) w2) ∨
   (r = Err OpSaveConfig ∧ world st' = log (EvCall OpSaveConfig false) w3) ∨
   (r = Ok tt ∧
    world st' =
      set_installed (<[app_id x := core.Dir p]> (installed w))
        (log (EvCall OpSaveConfig true) w3))).
Proof.
  intros x p w w1 w2 w3 H. unfold SaveConfig in H.
  apply bind_inv in H as [([] & s1 & H1 & H)|(e & H1 & ->)]; cycle 1.
  { apply call_inv in H1 as [(? & _)|(E & ->)]; [discriminate |].
    injection E as ->. split; [done |]. by left. }
  apply call_inv in H1 as [(_ & _ & _ & ->)|(? & _)]; [| discriminate].
  apply bind_inv in H as [([] & s2 & H2 & H)|(e & H2 & ->)]; cycle 1.
  { apply call_inv in H2 as [(? & _)|(E & ->)]; [discriminate |].
    injection E as ->. split; [done |]. right. by left. }
  apply call_inv in H2 as [(_ & _ & _ & ->)|(? & _)]; [| discriminate].
  apply bind_inv in H as [(config & s3 & H3 & H)|(e & H3 & ->)]; cycle 1.
  { unfold core_ReadConfig in H3.
    apply call_ret_inv in H3 as [(? & _)|(E & ->)]; [discriminate |].
    injection E as ->. split; [done |]. right. right. by left. }
  unfold core_ReadConfig in H3.
  apply call_ret_inv in H3 as [(E & _ & _ & ->)|(? & _)]; [| discriminate].
  injection E as E. subst config.
  apply call_inv in H as [(-> & _ & _ & ->)|(-> & ->)]; (split; [done |]).
  - do 4 right. done.
  - do 3 right. by left.
Qed.

(** X2.  When [SaveConfig] returns no error, the app config is stored at
    its config path, the source descriptor at its source-config path, and
    the registry is the one read plus the entry from the app id to the app
    directory: the entries of other ids are as they were, an older entry of
    this id is replaced.  The file system, the journal and the receiver are
    not written. *)
Theorem SaveConfig_commits env st st' :
  let x := self st in
  let p := paths x in
  SaveConfig env st = (Ok tt, st') →
  app_configs (world st') =
    <[core.Config p := App x]> (app_configs (world st)) ∧
  source_configs (world st') =
    <[core.SourceConfig p := Source x]> (source_configs (world st)) ∧
  installed (world st') =
    <[app_id x := core.Dir p]> (installed (world st)) ∧
  installed (world st') !! app_id x = Some (core.Dir p) ∧
  (∀ id, id ≠ app_id x →
     installed (world st') !! id = installed (world st) !! id) ∧
  observed (world st') = observed (world st) ∧
  journal (world st') = journal (world st) ∧
  self st' = x.
Proof.
  intros x p H.
  apply SaveConfig_cases in H
    as (Hs & [[? _]|[[? _]|[[? _]|[[? _]|[_ Hw]]]]]); try discriminate.
  rewrite Hw. simpl. repeat split; try done.
  - apply lookup_insert_eq.
  - intros id Hid. by rewrite lookup_insert_ne.
Qed.

Lemma SaveConfig_commits_witness :
  let st := {| self := sample_request "foo" 3; world := empty_world |} in
  installed (world (SaveConfig quiet st).2) !! "foo" = Some "apps/foo".
Proof.
  intros st.
  destruct (SaveConfig_commits quiet st (SaveConfig quiet st).2)
    as (_ & _ & _ & H & _).
  - vm_compute. reflexivity.
  - exact H.
Defined.

(** X3.  [SaveConfig] is not all or nothing.  When it returns an error the
    registry is not written; but when the error comes from reading or
    writing the registry, the app config and the source descriptor are
    already stored at their paths, and when it comes from storing the
    source descriptor, the app config is. *)
Theorem SaveConfig_error_is_partial env st e st' :
  let x := self st in
  let p := paths x in
  SaveConfig env st = (Err e, st') →
  is_config_op e = true ∧
  installed (world st') = installed (world st) ∧
  (e = OpSaveAppConfig (core.Config p) →
   app_configs (world st') = app_configs (world st) ∧
   source_configs (world st') = source_configs (world st)) ∧
  (e = OpSaveSourceConfig (core.SourceConfig p) →
   app_configs (world st') !! core.Config p = Some (App x) ∧
   source_configs (world st') = source_configs (world st)) ∧
  (e = OpReadConfig ∨ e = OpSaveConfig →
   app_configs (world st') !! core.Config p = Some (App x) ∧
   source_configs (world st') !! core.SourceConfig p = Some (Source x)).
Proof.
  intros x p H.
  apply SaveConfig_cases in H
    as (Hs & [[E Hw]|[[E Hw]|[[E Hw]|[[E Hw]|[? _]]]]]); try discriminate;
    injection E as ->; rewrite Hw; simpl;
    (split; [done |]); (split; [done |]); (split; [| split]);
    try (intros Heq; discriminate Heq);
    try (intros [Heq|Heq]; discriminate Heq).
  - done.
  - intros _. split; [apply lookup_insert_eq | done].
  - intros _. split; apply lookup_insert_eq.
  - intros _. split; apply lookup_insert_eq.
Qed.

Lemma SaveConfig_error_is_partial_witness :
  let st := {| self := sample_request "foo" 3; world := empty_world |} in
  let st' := (SaveConfig registry_write_fails st).2 in
  installed (world st') = ∅ ∧
  app_configs (world st') !! "apps/foo/config.json" = Some (App (self st)).
Proof.
  intros st st'.
  destruct (SaveConfig_error_is_partial registry_write_fails st OpSaveConfig
              st') as (_ & Hi & _ & _ & Hp).
  - vm_compute. reflexivity.
  - split; [exact Hi |]. by destruct Hp as [Hp _]; [right |].
Defined.

(** ** [Integrate], on the ways out with an error *)

(** X4.  While the scratch directory exists, [Integrate] cannot run: it
    fails in [os.Mkdir] and changes nothing.  Since an [Integrate] that
    fails in [core.DeflateAppImage] leaves the scratch directory behind,
    every later [Integrate] of the same request fails, in every
    environment, until something else removes the directory. *)
Theorem Integrate_blocked_by_scratch_directory env st :
  let tempDir := scratch_dir (self st) in
  (exists_at (fs (world st)) tempDir = true →
   Integrate env st =
     (Err (OpMkdir tempDir),
      on_world (log (EvCall (OpMkdir tempDir) false)) st)) ∧
  (∀ st1,
     Integrate env st =
       (Err (OpDeflateAppImage (core.AppImage (paths (self st))) tempDir),
        st1) →
     ∀ env2, (Integrate env2 st1).1 = Err (OpMkdir tempDir)).
Proof.
  intros tempDir.
  assert (H1 : ∀ e s, exists_at (fs (world s)) (scratch_dir (self s)) = true →
            Integrate e s =
              (Err (OpMkdir (scratch_dir (self s))),
               on_world (log (EvCall (OpMkdir (scratch_dir (self s))) false))
                 s)).
  { intros e s Hex. unfold Integrate, os_Mkdir, mbind, M_bind, call.
    fold (scratch_dir (self s)). rewrite Hex, andb_false_r. done. }
  split; [apply H1 |]. intros st1 H env2.
  pose proof (Integrate_self _ _ _ _ H) as Hs. unfold self_rel in Hs.
  apply Integrate_cases in H as [[? _]|[[_ ->]|(st2 & H2 & _)]];
    [discriminate | |].
  - rewrite H1; [done |]. cbn [self on_world world fs log upd_fs].
    unfold exists_at. by rewrite is_dir_add_dir, orb_true_r.
  - exfalso.
    apply bind_inv in H2 as [(? & s1 & H3 & H2)|(e1 & H3 & E)].
    + unfold ExtractMetadata in H3.
      apply call_ret_inv in H3 as [(_ & _ & _ & ->)|(? & _)]; [| discriminate].
      apply bind_inv in H2 as [([] & s2 & H4 & H2)|(e2 & H4 & E)].
      * unfold InstallDesktopFile in H2.
        by apply call_inv in H2 as [(? & _)|(? & _)].
      * unfold CopyIconFile in H4.
        apply call_inv in H4 as [(? & _)|(E' & _)]; [discriminate |].
        congruence.
    + unfold ExtractMetadata in H3.
      apply call_ret_inv in H3 as [(? & _)|(E' & _)]; [discriminate |].
      congruence.
Qed.

Lemma Integrate_blocked_by_scratch_directory_witness :
  let st := {| self := sample_request "foo" 3;
               world := world_with_bundle "foo" [x09] |} in
  let st1 := (Integrate (deflate_fails "apps/foo/foo.AppImage") st).2 in
  (Integrate quiet st1).1 = Err (OpMkdir "apps/foo/temp").
Proof.
  intros st st1.
  destruct (Integrate_blocked_by_scratch_directory
              (deflate_fails "apps/foo/foo.AppImage") st) as [_ H].
  apply (H st1). vm_compute. reflexivity.
Defined.

(** X5.  [Integrate] is not all or nothing.  When it fails in
    [InstallDesktopFile], the icon has been written and stays (unless its
    path lies in the scratch directory); on every way out with an error,
    the files outside the scratch directory other than the icon are as
    they were. *)
Theorem Integrate_error_is_partial env st e st' :
  let p := paths (self st) in
  let tempDir := scratch_dir (self st) in
  Integrate env st = (Err e, st') →
  (e = OpInstallDesktopFile (core.Desktop p) →
   under tempDir (core.Icon p) = false →
   is_file (fs (world st')) (core.Icon p) = true) ∧
  (∀ q, under tempDir q = false → q ≠ core.Icon p →
        files (fs (world st')) !! q = files (fs (world st)) !! q).
Proof.
  intros p tempDir H.
  apply Integrate_cases in H as [[E ->]|[[E ->]|(st2 & H & ->)]].
  - injection E as ->. split; [discriminate | done].
  - injection E as ->. split; [discriminate | done].
  - apply bind_inv in H as [(? & s1 & H1 & H)|(e1 & H1 & E)].
    + unfold ExtractMetadata in H1.
      apply call_ret_inv in H1 as [(_ & _ & _ & ->)|(? & _)]; [| discriminate].
      apply bind_inv in H as [([] & s2 & H2 & H)|(e2 & H2 & E)].
      * unfold CopyIconFile in H2.
        apply call_inv in H2 as [(_ & _ & _ & ->)|(? & _)]; [| discriminate].
        unfold InstallDesktopFile in H.
        apply call_inv in H as [(? & _)|(E & ->)]; [discriminate |].
        injection E as ->. split.
        -- intros _ Hu. unfold is_file. apply bool_decide_eq_true.
           rewrite files_os_RemoveAll by done. simpl.
           rewrite lookup_insert_eq. eauto.
        -- intros q Hu Hq. rewrite files_os_RemoveAll by done. simpl.
           by rewrite lookup_insert_ne.
      * unfold CopyIconFile in H2.
        apply call_inv in H2 as [(? & _)|(E' & ->)]; [discriminate |].
        injection E as ->. injection E' as ->. split; [discriminate |].
        intros q Hu Hq. by rewrite files_os_RemoveAll.
    + unfold ExtractMetadata in H1.
      apply call_ret_inv in H1 as [(? & _)|(E' & ->)]; [discriminate |].
      injection E as ->. injection E' as ->. split; [discriminate |].
      intros q Hu Hq. by rewrite files_os_RemoveAll.
Qed.

Lemma Integrate_error_is_partial_witness :
  let st := {| self := sample_request "foo" 3;
               world := world_with_bundle "foo" [x09] |} in
  is_file (fs (world (Integrate (failing is_desktop_install) st).2))
    "apps/foo/foo.png" = true.
Proof.
  intros st.
  destruct (Integrate_error_is_partial (failing is_desktop_install) st
              (OpInstallDesktopFile "applications/foo.desktop")
              (Integrate (failing is_desktop_install) st).2) as [H _].
  - vm_compute. reflexivity.
  - apply H; reflexivity.
Defined.

(** ** [Install] and the turns of the loop *)

(** X6.  [Install] starts the ticker before anything else and stops it as
    the last thing it does, on every way out; nothing in between starts or
    stops a ticker. *)
Theorem Install_brackets_ticker env revision st :
  let i := Index (self st) in
  ∃ mid,
    trace (world (Install env revision st).2) =
      trace (world st) ++ EvTickerStart i :: mid ++ [EvTickerStop i] ∧
    Forall (λ e, is_ticker e = false) mid.
Proof.
  intros i. destruct (Install env revision st) as [r st'] eqn:E.
  assert (Hc : ∀ t, Forall (λ e, is_install_call e = true) t →
                    Forall (λ e, is_ticker e = false) t).
  { intros t Ht. eapply Forall_impl; [exact Ht |]. by intros []. }
  assert (Hc' : ∀ t, Forall (λ e, is_call e = true) t →
                     Forall (λ e, is_ticker e = false) t).
  { intros t Ht. eapply Forall_impl; [exact Ht |]. by intros []. }
  destruct (Install_cases _ _ _ _ _ E) as (_ & _ & _ & Hcases). simpl.
  destruct Hcases as [(e & s1 & m1 & _ & _ & _ & _ & Hm1 & Ht)
                     |[(e & s1 & s2 & m1 & m2 & _ & _ & _ & _ & _ & Hm & Ht)
                      |(s1 & s2 & s3 & m1 & m2 & m3 & _ & _ & _ & _ & _ & Hm
                          & Hm3 & Ht)]].
  - exists m1. split; [exact Ht | by apply Hc].
  - apply Forall_app in Hm as [Hm1 Hm2].
    exists (m1 ++ EvStatus i InstallableAppIntegrating :: m2).
    split; [rewrite Ht; by repeat (progress (rewrite <- ?app_assoc; simpl)) |].
    apply Forall_app. split; [by apply Hc |].
    constructor; [done | by apply Hc].
  - apply Forall_app in Hm as [Hm1 Hm2].
    exists (m1 ++ EvStatus i InstallableAppIntegrating :: m2 ++ m3).
    split; [rewrite Ht; by repeat (progress (rewrite <- ?app_assoc; simpl)) |].
    apply Forall_app. split; [by apply Hc |].
    constructor; [done |]. apply Forall_app. split; [by apply Hc |].
    by apply Hc'.
Qed.

Lemma set_Progress_same x : set_Progress (Progress x) x = x.
Proof. by destruct x. Qed.

(** [Install] writes the counter and the status of the receiver, nothing
    else of it. *)
Lemma Install_self env revision st r st' :
  Install env revision st = (r, st') →
  ∃ p s, self st' = set_Progress p (set_Status s (self st)).
Proof.
  rewrite Install_eq.
  destruct (Download env revision (StartStatusTicker st)) as [[[]|e] st1] eqn:ED;
    destruct (Download_stage _ _ _ _ _ ED) as (Hs & _);
    unfold same_but_Progress in Hs; rewrite StartStatusTicker_self in Hs.
  2:{ intros [= <- <-]. exists (Progress (self st1)), (Status (self st)).
      simpl. rewrite Hs at 1. by destruct (self st). }
  destruct (Integrate env (assign_Status InstallableAppIntegrating st1))
    as [[[]|e] st2] eqn:EI; pose proof (Integrate_self _ _ _ _ EI) as Hi;
    unfold self_rel in Hi; simpl in Hi.
  2:{ intros [= <- <-]. exists (Progress (self st1)), InstallableAppIntegrating.
      simpl. rewrite Hi, Hs. by destruct (self st). }
  destruct (SaveConfig env st2) as [r3 st3] eqn:ES. intros [= <- <-].
  pose proof (SaveConfig_self _ _ _ _ ES) as Hc. unfold self_rel in Hc.
  exists (Progress (self st1)), InstallableAppIntegrating.
  simpl. rewrite Hc, Hi, Hs. by destruct (self st).
Qed.

(** The receiver and the world when the loop body calls [x.Install()]. *)
Lemma prelude_eq env i count x w :
  prelude env i count {| self := x; world := w |} =
  let x1 := set_Status InstallableAppDownloading
              (set_StartedAt (clock env (length (trace w)))
                 (set_Count count (set_Index i x))) in
  let st1 := {| self := x1;
                world := log (EvStatus i InstallableAppDownloading) w |} in
  let x2 := set_PrintCycle (wrap64 (PrintCycle x + 1)) x1 in
  let w2 := logs (print_events env st1) (world st1) in
  {| self := x2;
     world := log (EvUpdateTransactions
                     (<[app_id x := pending_of x]> (journal w)))
                (set_journal (<[app_id x := pending_of x]> (journal w)) w2) |}.
Proof.
  unfold prelude. rewrite PrintStatus_eq. reflexivity.
Qed.

(** One turn of the loop, field by field: the request keeps what
    identifies it, gets its index and the size of the batch, and ends
    [Installed] or [Failed]; the journal loses the entry of the app id when
    the turn succeeds and has the pending entry when it fails, whatever
    stage failed. *)
Lemma iteration_fields env revision i count x w b x' w' :
  iteration env revision i count x w = (b, x', w') →
  App x' = App x ∧ Source x' = Source x ∧ Asset x' = Asset x ∧
  Index x' = i ∧ Count x' = count ∧
  Status x' = (if b then InstallableAppInstalled else InstallableAppFailed) ∧
  journal w' =
    (if b then delete (app_id x) (journal w)
     else <[app_id x := pending_of x]> (journal w)).
Proof.
  intros H.
  destruct (iteration_cases env revision i count x w)
    as (r & st1 & shown & EI & _ & Hr).
  destruct (Install_self _ _ _ _ _ EI) as (p & s & Hs).
  destruct (Install_cases _ _ _ _ _ EI) as (_ & _ & Hj & _).
  rewrite prelude_eq in Hs, Hj. simpl in Hs, Hj.
  unfold iteration in H. rewrite EI in H.
  destruct r as [[]|e]; rewrite PrintStatus_eq in H; simpl in H;
    injection H as <- <- <-; unfold app_id; simpl; rewrite ?Hs, ?Hj; simpl;
    repeat split.
  apply delete_insert_eq.
Qed.

(** ** The batch as a whole *)

(** X7.  A turn of the loop leaves the journal as it found it, except at
    the app id of its request: there the entry is gone when the turn
    succeeded, and is the pending entry when it failed, whichever stage
    failed, [SaveConfig] included. *)
Theorem turn_journal env revision i count x w :
  let '(continue, _, w') := iteration env revision i count x w in
  journal w' =
    (if continue then delete (app_id x) (journal w)
     else <[app_id x := pending_of x]> (journal w)).
Proof.
  destruct (iteration env revision i count x w) as [[b x'] w'] eqn:E.
  by destruct (iteration_fields _ _ _ _ _ _ _ _ _ E) as (_ & _ & _ & _ & _ & _ & ?).
Qed.

Lemma loop_outcome env revision count : ∀ apps i s w r apps' w',
  loop env revision count i s apps w = (r, apps', w') →
  (s <= r <= s + Z.of_nat (length apps)) ∧
  length apps' = length apps ∧
  (∀ (k : nat) x, apps !! k = Some x →
     ∃ x', apps' !! k = Some x' ∧
       App x' = App x ∧ Source x' = Source x ∧ Asset x' = Asset x ∧
       (Z.of_nat k < r - s →
        Status x' = InstallableAppInstalled ∧
        Index x' = i + Z.of_nat k ∧ Count x' = count) ∧
       (Z.of_nat k = r - s →
        Status x' = InstallableAppFailed ∧
        Index x' = i + Z.of_nat k ∧ Count x' = count) ∧
       (r - s < Z.of_nat k → x' = x)) ∧
  (∀ id, (∀ x, x ∈ apps → app_id x ≠ id) →
         journal w' !! id = journal w !! id) ∧
  (r - s = Z.of_nat (length apps) →
   ∀ id, journal w !! id = None ∨ (∃ x, x ∈ apps ∧ app_id x = id) →
         journal w' !! id = None).
Proof.
  induction apps as [|x rest IH]; intros i s w r apps' w' H; simpl in H.
  - injection H as <- <- <-. simpl. split; [lia |]. split; [done |].
    split; [intros k x Hk; by rewrite lookup_nil in Hk |].
    split; [done |]. intros _ id [Hid|(x & Hx & _)]; [done |].
    by apply elem_of_nil in Hx.
  - destruct (iteration env revision i count x w) as [[b x1] w1] eqn:E.
    destruct (iteration_fields _ _ _ _ _ _ _ _ _ E)
      as (HA & HS & HAs & HI & HC & HSt & Hj).
    destruct b.
    + destruct (loop env revision count (i + 1) (s + 1) rest w1)
        as [[r2 rest2] w2] eqn:EL.
      injection H as <- <- <-.
      destruct (IH _ _ _ _ _ _ EL) as (Hb & Hlen & Hk & Hother & Hall).
      split; [simpl length; lia |]. split; [simpl; by rewrite Hlen |].
      split; [| split].
      * intros [|k] y Hy; simpl in Hy.
        -- injection Hy as <-. exists x1.
           split; [done |]. split; [done |]. split; [done |]. split; [done |].
           split; [| split].
           ++ intros _. split; [exact HSt |]. split; [lia | done].
           ++ intros ?. lia.
           ++ intros ?. lia.
        -- destruct (Hk k y Hy) as (y' & Hy' & ? & ? & ? & H1 & H2 & H3).
           exists y'.
           split; [done |]. split; [done |]. split; [done |]. split; [done |].
           split; [| split].
           ++ intros ?. destruct H1 as (? & ? & ?); [lia |].
              split; [done |]. split; [lia | done].
           ++ intros ?. destruct H2 as (? & ? & ?); [lia |].
              split; [done |]. split; [lia | done].
           ++ intros ?. apply H3. lia.
      * intros id Hid. rewrite Hother.
        -- rewrite Hj. apply lookup_delete_ne. apply Hid. by left.
        -- intros y Hy. apply Hid. by right.
      * intros Hr id Hid. apply Hall; [simpl length in Hr; lia |].
        destruct (decide (app_id x = id)) as [<-|Hne].
        -- left. rewrite Hj. apply lookup_delete_eq.
        -- destruct Hid as [Hid|(y & Hy & Hy')].
           ++ left. rewrite Hj, lookup_delete_ne; done.
           ++ apply elem_of_cons in Hy as [->|Hy]; [done |]. right. eauto.
    + injection H as <- <- <-.
      split; [simpl length; lia |]. split; [done |]. split; [| split].
      * intros [|k] y Hy; simpl in Hy.
        -- injection Hy as <-. exists x1.
           split; [done |]. split; [done |]. split; [done |]. split; [done |].
           split; [| split].
           ++ intros ?. lia.
           ++ intros _. split; [exact HSt |]. split; [lia | done].
           ++ intros ?. lia.
        -- exists y.
           split; [done |]. split; [done |]. split; [done |]. split; [done |].
           split; [| split]; [intros ?; lia | intros ?; lia | done].
      * intros id Hid. rewrite Hj. apply lookup_insert_ne. apply Hid. by left.
      * simpl length. lia.
Qed.

(** X8.  The two counts [InstallApps] returns add up to the number of
    requests, neither is negative, and the slice has the length it had. *)
Theorem InstallApps_sum_of_counts env revision apps w :
  let '((success, failed), apps', _) := InstallApps env revision apps w in
  0 <= success ∧ 0 <= failed ∧
  success + failed = Z.of_nat (length apps) ∧
  length apps' = length apps.
Proof.
  unfold InstallApps.
  destruct (loop env revision _ 0 0 apps w) as [[r apps'] w'] eqn:E.
  destruct (loop_outcome _ _ _ _ _ _ _ _ _ _ E) as (Hb & Hl & _). lia.
Qed.

(** X9.  The slice [InstallApps] returns tells the outcome of every
    request: with [success] the first count, a request before position
    [success] is [Installed], the one at that position, if there is one,
    is [Failed], and the ones behind it are as they were passed in.  A
    request that was served carries its position as [Index] and the size
    of the batch as [Count], and no request has its [App], [Source] or
    [Asset] changed. *)
Theorem InstallApps_outcome_per_request env revision apps w (k : nat) x :
  apps !! k = Some x →
  let res := InstallApps env revision apps w in
  let success := res.1.1.1 in
  ∃ x', res.1.2 !! k = Some x' ∧
    App x' = App x ∧ Source x' = Source x ∧ Asset x' = Asset x ∧
    (Z.of_nat k < success →
     Status x' = InstallableAppInstalled ∧
     Index x' = Z.of_nat k ∧ Count x' = Z.of_nat (length apps)) ∧
    (Z.of_nat k = success →
     Status x' = InstallableAppFailed ∧
     Index x' = Z.of_nat k ∧ Count x' = Z.of_nat (length apps)) ∧
    (success < Z.of_nat k → x' = x).
Proof.
  intros Hx. unfold InstallApps.
  destruct (loop env revision _ 0 0 apps w) as [[r apps'] w'] eqn:E.
  destruct (loop_outcome _ _ _ _ _ _ _ _ _ _ E) as (_ & _ & Hk & _).
  destruct (Hk k x Hx) as (x' & Hx' & ? & ? & ? & H1 & H2 & H3).
  rewrite Z.sub_0_r, Z.add_0_l in *. simpl. exists x'. repeat split; try done.
  all: first [by apply H1 | by apply H2 | by apply H3].
Qed.

Lemma InstallApps_outcome_per_request_witness :
  let apps := [sample_request "foo" 3; sample_request "bar" 3] in
  let env := deflate_fails "apps/bar/bar.AppImage" in
  ∃ x', (InstallApps env Staged apps empty_world).1.2 !! 1%nat = Some x' ∧
        Status x' = InstallableAppFailed ∧ Index x' = 1 ∧ Count x' = 2.
Proof.
  intros apps env.
  destruct (InstallApps_outcome_per_request env Staged apps empty_world 1
              (sample_request "bar" 3) eq_refl)
    as (x' & Hx' & _ & _ & _ & _ & H2 & _).
  exists x'. split; [exact Hx' |]. apply H2. vm_compute. reflexivity.
Defined.

(** X10.  [InstallApps] reads and writes the journal only at the app ids of
    its requests: an id that none of them has keeps its entry, or stays
    without one. *)
Theorem InstallApps_keeps_other_journal_entries env revision apps w id :
  (∀ x, x ∈ apps → app_id x ≠ id) →
  journal (InstallApps env revision apps w).2 !! id = journal w !! id.
Proof.
  intros Hid. unfold InstallApps.
  destruct (loop env revision _ 0 0 apps w) as [[r apps'] w'] eqn:E.
  destruct (loop_outcome _ _ _ _ _ _ _ _ _ _ E) as (_ & _ & _ & Ho & _).
  by apply Ho.
Qed.

Lemma InstallApps_keeps_other_journal_entries_witness :
  journal (InstallApps quiet Staged [sample_request "foo" 3]
             (set_journal {["old" := pending_of (sample_request "old" 3)]}
                empty_world)).2 !! "old" =
  Some (pending_of (sample_request "old" 3)).
Proof.
  rewrite (InstallApps_keeps_other_journal_entries quiet Staged
             [sample_request "foo" 3] _ "old").
  - reflexivity.
  - intros x Hx. apply list_elem_of_singleton in Hx as ->. discriminate.
Defined.

(** X11.  When [InstallApps] reports no failure, the journal it leaves has
    no entry for any of the requests' app ids, also where an entry was
    there before the batch (left by an interrupted run). *)
Theorem InstallApps_all_ok_clears_journal env revision apps w success apps' w' :
  InstallApps env revision apps w = ((success, 0), apps', w') →
  ∀ x, x ∈ apps → journal w' !! app_id x = None.
Proof.
  unfold InstallApps.
  destruct (loop env revision _ 0 0 apps w) as [[r a'] wf] eqn:E.
  intros [= <- Hf <- <-] x Hx.
  destruct (loop_outcome _ _ _ _ _ _ _ _ _ _ E) as (_ & _ & _ & _ & Hall).
  apply Hall; [lia |]. right. eauto.
Qed.

Lemma InstallApps_all_ok_clears_journal_witness :
  journal (InstallApps quiet Staged [sample_request "foo" 3]
             (set_journal {["foo" := pending_of (sample_request "foo" 3)]}
                empty_world)).2 !! "foo" = None.
Proof.
  pose (w := set_journal {["foo" := pending_of (sample_request "foo" 3)]}
               empty_world).
  pose (r := InstallApps quiet Staged [sample_request "foo" 3] w).
  assert (E : InstallApps quiet Staged [sample_request "foo" 3] w
              = ((1, 0), r.1.2, r.2)) by (vm_compute; reflexivity).
  apply (InstallApps_all_ok_clears_journal quiet Staged
           [sample_request "foo" 3] w 1 r.1.2 r.2 E (sample_request "foo" 3)).
  by left.
Defined.

(** ** [io.Copy] and [Download], on every way out *)

Lemma fs_close env what s : fs (world (close env what s)) = fs (world s).
Proof.
  unfold close.
  by destruct (call__cases env (OpClose what) (λ _, true) id s) as [-> | ->].
Qed.

Lemma self_close env what s : self (close env what s) = self s.
Proof.
  unfold close.
  by destruct (call__cases env (OpClose what) (λ _, true) id s) as [-> | ->].
Qed.

Lemma set_Progress_twice a b x :
  set_Progress a (set_Progress b x) = set_Progress a x.
Proof. done. Qed.

(** [io.Copy] into the fan-out writer of file [t], however it ends: the
    file has grown by the first [k] chunks, the counter by their length,
    and nothing else of the file system or of the receiver has changed. *)
Lemma io_Copy_run env t src : ∀ chunks st f0 r st',
  files (fs (world st)) !! t = Some f0 →
  io_Copy env (MultiWriter_Write env t) src chunks st = (r, st') →
  ∃ k, (k ≤ length chunks)%nat ∧
    files (fs (world st')) !! t =
      Some {| data := data f0 ++ concat (take k chunks); perm := perm f0 |} ∧
    (∀ q, q ≠ t → files (fs (world st')) !! q = files (fs (world st)) !! q) ∧
    dirs (fs (world st')) = dirs (fs (world st)) ∧
    (- 2 ^ 63 <= Progress (self st) < 2 ^ 63 →
     self st' =
       set_Progress
         (wrap64 (Progress (self st) +
                  Z.of_nat (length (concat (take k chunks))))) (self st)) ∧
    (r = Ok tt → k = length chunks) ∧
    (∀ e, r = Err e → e = OpRead src ∨ ∃ n, e = OpWrite t n).
Proof.
  assert (Zero : ∀ st : Run, - 2 ^ 63 <= Progress (self st) < 2 ^ 63 →
            self st = set_Progress (wrap64 (Progress (self st) + 0)) (self st)).
  { intros st Hp. by rewrite Z.add_0_r, wrap64_small, set_Progress_same. }
  induction chunks as [|c rest IH]; intros st f0 r st' Hf H; simpl in H.
  - exists 0%nat. simpl. rewrite app_nil_r.
    apply call_inv in H as [(-> & _ & _ & ->)|(-> & ->)]; simpl;
      (split; [lia |]); (split; [by destruct f0 |]);
      (split; [done |]); (split; [done |]); (split; [apply Zero |]);
      (split; [done |]).
    + discriminate.
    + intros e [= <-]. by left.
  - apply bind_inv in H as [(a & st1 & H1 & H2)|(e & H1 & ->)].
    + destruct (decide (c = [])) as [->|Hc].
      * apply ret_inv in H1 as [_ ->].
        destruct (IH _ _ _ _ Hf H2)
          as (k & Hk & Ht & Hq & Hd & Hs & Hok & Herr).
        exists (S k). simpl. split; [lia |].
        split; [done |]. split; [done |]. split; [done |]. split; [done |].
        split; [intros Hr; f_equal; by apply Hok | exact Herr].
      * unfold MultiWriter_Write in H1.
        apply bind_inv in H1 as [([] & st2 & W1 & W2)|(e & W1 & ?)];
          [| discriminate].
        apply call_inv in W1 as [(_ & _ & _ & ->)|(? & _)]; [| discriminate].
        simpl in W2. destruct a. injection W2 as <-.
        set (st1 := on_self _ _) in H2.
        assert (Hf1 : files (fs (world st1)) !! t =
                      Some {| data := data f0 ++ c; perm := perm f0 |}).
        { subst st1. simpl. rewrite lookup_alter, decide_True by done.
          by rewrite Hf. }
        assert (Hp1 : - 2 ^ 63 <= Progress (self st1) < 2 ^ 63)
          by apply wrap64_range.
        destruct (IH _ _ _ _ Hf1 H2)
          as (k & Hk & Ht & Hq & Hd & Hs & Hok & Herr).
        specialize (Hs Hp1).
        exists (S k). simpl. split; [lia |].
        split; [rewrite Ht; simpl; by rewrite <- app_assoc |].
        split; [intros q Hq'; rewrite (Hq q Hq'); subst st1; simpl;
                by apply lookup_alter_ne |].
        split; [by rewrite Hd |].
        split; [| split; [intros Hr; f_equal; by apply Hok | exact Herr]].
        intros _. rewrite Hs. subst st1. simpl.
        rewrite wrap64_add_l, length_app.
        unfold set_Progress. simpl. do 2 f_equal. lia.
    + destruct (decide (c = [])) as [->|Hc]; [discriminate |].
      unfold MultiWriter_Write in H1.
      apply bind_inv in H1 as [([] & st2 & W1 & W2)|(e' & W1 & E)];
        [discriminate |].
      injection E as <-.
      apply call_inv in W1 as [(? & _)|(E & ->)]; [discriminate |].
      injection E as ->.
      exists 0%nat. simpl. rewrite app_nil_r.
      split; [lia |]. split; [by destruct f0 |].
      split; [done |]. split; [done |]. split; [apply Zero |].
      split; [done |]. intros e [= <-]. right. eauto.
Qed.

(** The part of the staged [Download] after the temporary file [t]
    exists, on every way out. *)
Lemma staged_tail_run env t final asset url m st r st' :
  let chunks := produced env (now st) (OpAssetDownload asset) in
  let P := Progress (self st) in
  files (fs (world st)) !! t = Some {| data := []; perm := m |} →
  t ≠ final →
  (Asset_Download env asset ≫= λ data,
     deferring (close env url)
       (io_Copy env (MultiWriter_Write env t) asset data ;;
        os_Rename env t final ;;
        os_Chmod env final 493)) st = (r, st') →
  dirs (fs (world st')) = dirs (fs (world st)) ∧
  (∀ q, q ≠ t → q ≠ final →
        files (fs (world st')) !! q = files (fs (world st)) !! q) ∧
  ((∃ e k, r = Err e ∧
      (e = OpAssetDownload asset ∨ e = OpRead asset ∨
       (∃ n, e = OpWrite t n) ∨ e = OpRename t final) ∧
      files (fs (world st')) !! final = files (fs (world st)) !! final ∧
      files (fs (world st')) !! t =
        Some {| data := concat (take k chunks); perm := m |} ∧
      (- 2 ^ 63 <= P < 2 ^ 63 →
       self st' =
         set_Progress
           (wrap64 (P + Z.of_nat (length (concat (take k chunks)))))
           (self st))) ∨
   ((r = Err (OpChmod final 493) ∧
     files (fs (world st')) !! final =
       Some {| data := concat chunks; perm := m |} ∨
     r = Ok tt ∧
     files (fs (world st')) !! final =
       Some {| data := concat chunks; perm := 493 |}) ∧
    files (fs (world st')) !! t = None ∧
    (- 2 ^ 63 <= P < 2 ^ 63 →
     self st' =
       set_Progress (wrap64 (P + Z.of_nat (length (concat chunks))))
         (self st)))).
Proof.
  intros chunks P Ht Hne H.
  assert (Zero : - 2 ^ 63 <= P < 2 ^ 63 → self st = set_Progress
            (wrap64 (P + Z.of_nat (length (concat (take 0 chunks))))) (self st)).
  { intros Hp. simpl. subst P.
    by rewrite Z.add_0_r, wrap64_small, set_Progress_same. }
  apply bind_inv in H as [(data & st1 & H1 & H)|(e & H1 & ->)]; cycle 1.
  { unfold Asset_Download in H1.
    apply call_ret_inv in H1 as [(? & _)|(E & ->)]; [discriminate |].
    injection E as ->. split; [done |]. split; [done |]. left.
    exists (OpAssetDownload asset), 0%nat. simpl.
    split; [done |]. split; [by left |]. split; [done |]. split; [done |].
    exact Zero. }
  unfold Asset_Download in H1.
  apply call_ret_inv in H1 as [(E & _ & _ & ->)|(? & _)]; [| discriminate].
  injection E as E. fold chunks in E. subst data.
  apply deferring_inv in H as (st2 & H & ->).
  rewrite fs_close, self_close.
  set (sa := on_world _ st) in H.
  assert (Hta : files (fs (world sa)) !! t = Some {| data := []; perm := m |})
    by exact Ht.
  apply bind_inv in H as [([] & st3 & H3 & H)|(e & H3 & ->)]; cycle 1.
  { destruct (io_Copy_run _ _ _ _ _ _ _ _ Hta H3)
      as (k & _ & Hf & Hq & Hd & Hs & _ & Herr).
    split; [exact Hd |]. split; [intros q Hq1 _; by apply Hq |]. left.
    exists e, k. split; [done |].
    split; [destruct (Herr e eq_refl) as [->|[n ->]]; eauto |].
    split; [by apply Hq |]. split; [exact Hf | exact Hs]. }
  destruct (io_Copy_run _ _ _ _ _ _ _ _ Hta H3)
    as (k & _ & Hf & Hq & Hd & Hs & Hok & _).
  rewrite (Hok eq_refl), firstn_all in Hf, Hs. simpl in Hf, Hs, Hq, Hd.
  apply bind_inv in H as [([] & st4 & H4 & H)|(e & H4 & ->)]; cycle 1.
  { apply call_inv in H4 as [(? & _)|(E & ->)]; [discriminate |].
    injection E as ->. simpl.
    split; [exact Hd |]. split; [intros q Hq1 _; by apply Hq |]. left.
    exists (OpRename t final), (length chunks). rewrite firstn_all.
    split; [done |]. split; [auto |].
    split; [by apply Hq |]. split; [exact Hf | exact Hs]. }
  apply call_inv in H4 as [(_ & _ & _ & ->)|(? & _)]; [| discriminate].
  set (moved := move_file t final (fs (world st3))).
  assert (Hm : files moved = <[final := {| data := concat chunks; perm := m |}]>
                               (delete t (files (fs (world st3))))).
  { unfold moved, move_file. by rewrite Hf. }
  assert (Hmd : dirs moved = dirs (fs (world st3))).
  { unfold moved, move_file. by rewrite Hf. }
  assert (Hmq : ∀ q, q ≠ t → q ≠ final →
            files moved !! q = files (fs (world st)) !! q).
  { intros q Hq1 Hq2. rewrite Hm, lookup_insert_ne, lookup_delete_ne by done.
    by apply Hq. }
  assert (Hmt : files moved !! t = None).
  { by rewrite Hm, lookup_insert_ne, lookup_delete_eq. }
  apply call_inv in H as [(-> & _ & _ & ->)|(-> & ->)]; simpl; fold moved.
  - split; [by rewrite Hmd |].
    split; [intros q Hq1 Hq2; rewrite lookup_alter_ne by done; by apply Hmq |].
    right. split; [| split; [by rewrite lookup_alter_ne | exact Hs]].
    right. split; [done |].
    by rewrite lookup_alter, decide_True, Hm, lookup_insert_eq.
  - split; [by rewrite Hmd |]. split; [exact Hmq |].
    right. split; [| split; [exact Hmt | exact Hs]].
    left. split; [done |]. by rewrite Hm, lookup_insert_eq.
Qed.

(** The staged [Download], on every way out.  [t] is the name the system
    gives the temporary file. *)
Lemma Download_staged_run env st r st' :
  let final := core.AppImage (paths (self st)) in
  let asset := Asset (self st) in
  let t := temp_name env (now st + 2)%nat final in
  let chunks := produced env (now st + 3)%nat (OpAssetDownload asset) in
  let P := Progress (self st) in
  Download env Staged st = (r, st') →
  dirs (fs (world st)) ⊆ dirs (fs (world st')) ∧
  (((∃ p, r = Err (OpMkdirAll p)) ∨ r = Err (OpCreateTemp final)) ∧
   files (fs (world st')) = files (fs (world st)) ∧ self st' = self st ∨
   files (fs (world st)) !! t = None ∧ t ≠ final ∧
   (∀ q, q ≠ t → q ≠ final →
         files (fs (world st')) !! q = files (fs (world st)) !! q) ∧
   ((∃ e k, r = Err e ∧
       (e = OpAssetDownload asset ∨ e = OpRead asset ∨
        (∃ n, e = OpWrite t n) ∨ e = OpRename t final) ∧
       files (fs (world st')) !! final = files (fs (world st)) !! final ∧
       files (fs (world st')) !! t =
         Some {| data := concat (take k chunks); perm := 384 |} ∧
       (- 2 ^ 63 <= P < 2 ^ 63 →
        self st' =
          set_Progress
            (wrap64 (P + Z.of_nat (length (concat (take k chunks)))))
            (self st))) ∨
    ((r = Err (OpChmod final 493) ∧
      files (fs (world st')) !! final =
        Some {| data := concat chunks; perm := 384 |} ∨
      r = Ok tt ∧
      files (fs (world st')) !! final =
        Some {| data := concat chunks; perm := 493 |}) ∧
     files (fs (world st')) !! t = None ∧
     (- 2 ^ 63 <= P < 2 ^ 63 →
      self st' =
        set_Progress (wrap64 (P + Z.of_nat (length (concat chunks))))
          (self st))))).
Proof.
  intros final asset t chunks P H. unfold Download in H.
  apply bind_inv in H as [([] & st1 & H1 & H)|(e & H1 & ->)]; cycle 1.
  { apply call_inv in H1 as [(? & _)|(E & ->)]; [discriminate |].
    injection E as ->. split; [done |]. left. eauto. }
  apply call_inv in H1 as [(_ & _ & _ & ->)|(? & _)]; [| discriminate].
  apply bind_inv in H as [([] & st2 & H2 & H)|(e & H2 & ->)]; cycle 1.
  { apply call_inv in H2 as [(? & _)|(E & ->)]; [discriminate |].
    injection E as ->.
    split; [simpl; intros q Hq; by apply elem_of_union_r |]. left. eauto. }
  apply call_inv in H2 as [(_ & _ & _ & ->)|(? & _)]; [| discriminate].
  set (st2 := on_world _ (on_world _ st)) in H.
  assert (F2 : files (fs (world st2)) = files (fs (world st))) by done.
  assert (D2 : dirs (fs (world st)) ⊆ dirs (fs (world st2)))
    by (subst st2; simpl; intros q Hq; by do 2 apply elem_of_union_r).
  assert (N2 : now st2 = (now st + 2)%nat).
  { subst st2. unfold now. simpl. rewrite !length_app. simpl. lia. }
  assert (S2 : self st2 = self st) by done.
  clearbody st2.
  apply bind_inv in H as [(t' & st3 & H3 & H)|(e & H3 & ->)]; cycle 1.
  { unfold utils_CreateTempFile in H3.
    apply call_ret_inv in H3 as [(? & _)|(E & ->)]; [discriminate |].
    injection E as ->. split; [exact D2 |]. left.
    split; [by right |]. by split. }
  unfold utils_CreateTempFile in H3.
  apply call_ret_inv in H3 as [(E & _ & Hpre & ->)|(? & _)]; [| discriminate].
  injection E as E. rewrite N2 in E, Hpre, H. fold final t in E, Hpre, H.
  subst t'.
  apply andb_true_iff in Hpre as [Hne Hfresh].
  apply negb_true_iff, String.eqb_neq in Hne.
  apply negb_true_iff, orb_false_iff in Hfresh as [Hfresh _].
  apply bool_decide_eq_false in Hfresh. rewrite F2 in Hfresh.
  assert (Hnone : files (fs (world st)) !! t = None).
  { destruct (files (fs (world st)) !! t) eqn:E; [| done].
    destruct Hfresh. eauto. }
  apply deferring_inv in H as (st4 & H & ->).
  rewrite fs_close, self_close.
  set (created := on_world _ st2) in H.
  assert (Ht : files (fs (world created)) !! t =
               Some {| data := []; perm := 384 |}).
  { subst created. simpl. by rewrite lookup_insert_eq. }
  assert (N3 : now created = (now st + 3)%nat).
  { subst created. unfold now in *. simpl. rewrite length_app. simpl. lia. }
  assert (S3 : self created = self st) by exact S2.
  assert (F3 : ∀ q, q ≠ t →
            files (fs (world created)) !! q = files (fs (world st)) !! q).
  { intros q Hq. subst created. simpl. by rewrite lookup_insert_ne, F2. }
  assert (D3 : dirs (fs (world created)) = dirs (fs (world st2))) by done.
  destruct (staged_tail_run _ _ _ _ _ _ _ _ _ Ht Hne H)
    as (Hd & Hq & Hcases).
  rewrite N3, S3 in Hcases. fold asset chunks P in Hcases.
  rewrite F3 in Hcases by done.
  split; [by rewrite Hd, D3 |]. right.
  split; [exact Hnone |]. split; [exact Hne |].
  split; [intros q Hq1 Hq2; rewrite Hq, F3; done |].
  exact Hcases.
Qed.

(** The part of the in-place [Download] after [os.Create], on every way
    out. *)
Lemma inplace_tail_run env final asset url m st r st' :
  let chunks := produced env (now st) (OpAssetDownload asset) in
  let P := Progress (self st) in
  files (fs (world st)) !! final = Some {| data := []; perm := m |} →
  (Asset_Download env asset ≫= λ data,
     deferring (close env url)
       (io_Copy env (MultiWriter_Write env final) asset data ;;
        os_Chmod env final 493)) st = (r, st') →
  dirs (fs (world st')) = dirs (fs (world st)) ∧
  (∀ q, q ≠ final →
        files (fs (world st')) !! q = files (fs (world st)) !! q) ∧
  ∃ k,
    files (fs (world st')) !! final =
      Some {| data := concat (take k chunks);
              perm := if is_ok r then 493 else m |} ∧
    (- 2 ^ 63 <= P < 2 ^ 63 →
     self st' =
       set_Progress
         (wrap64 (P + Z.of_nat (length (concat (take k chunks)))))
         (self st)) ∧
    (r = Ok tt ∨ r = Err (OpChmod final 493) → k = length chunks) ∧
    (∀ e, r = Err e →
       e = OpAssetDownload asset ∨ e = OpRead asset ∨
       (∃ n, e = OpWrite final n) ∨ e = OpChmod final 493).
Proof.
  intros chunks P Ht H.
  apply bind_inv in H as [(data & st1 & H1 & H)|(e & H1 & ->)]; cycle 1.
  { unfold Asset_Download in H1.
    apply call_ret_inv in H1 as [(? & _)|(E & ->)]; [discriminate |].
    injection E as ->. split; [done |]. split; [done |].
    exists 0%nat. simpl. split; [exact Ht |].
    split; [intros Hp; subst P;
            by rewrite Z.add_0_r, wrap64_small, set_Progress_same |].
    split; [intros [?|?]; discriminate |]. intros e [= <-]. by left. }
  unfold Asset_Download in H1.
  apply call_ret_inv in H1 as [(E & _ & _ & ->)|(? & _)]; [| discriminate].
  injection E as E. fold chunks in E. subst data.
  apply deferring_inv in H as (st2 & H & ->).
  rewrite fs_close, self_close.
  set (sa := on_world _ st) in H.
  assert (Hta : files (fs (world sa)) !! final =
                Some {| data := []; perm := m |}) by exact Ht.
  apply bind_inv in H as [([] & st3 & H3 & H)|(e & H3 & ->)]; cycle 1.
  { destruct (io_Copy_run _ _ _ _ _ _ _ _ Hta H3)
      as (k & _ & Hf & Hq & Hd & Hs & _ & Herr).
    split; [exact Hd |]. split; [exact Hq |].
    exists k. split; [exact Hf |]. split; [exact Hs |].
    destruct (Herr e eq_refl) as [->|[n ->]].
    - split; [intros [?|?]; discriminate |]. intros e [= <-]. auto.
    - split; [intros [?|?]; discriminate |]. intros e [= <-]. eauto. }
  destruct (io_Copy_run _ _ _ _ _ _ _ _ Hta H3)
    as (k & _ & Hf & Hq & Hd & Hs & Hok & _).
  rewrite (Hok eq_refl) in Hf, Hs. simpl in Hf, Hs, Hq, Hd.
  apply call_inv in H as [(-> & _ & _ & ->)|(-> & ->)]; simpl.
  - split; [exact Hd |].
    split; [intros q Hq'; rewrite lookup_alter_ne by done; by apply Hq |].
    exists (length chunks).
    split; [by rewrite lookup_alter, decide_True, Hf |].
    split; [exact Hs |]. split; [done |]. discriminate.
  - split; [exact Hd |]. split; [exact Hq |].
    exists (length chunks). split; [exact Hf |]. split; [exact Hs |].
    split; [done |]. intros e [= <-]. auto.
Qed.

(** The in-place [Download], on every way out. *)
Lemma Download_inplace_run env st r st' :
  let final := core.AppImage (paths (self st)) in
  let asset := Asset (self st) in
  let chunks := produced env (now st + 3)%nat (OpAssetDownload asset) in
  let P := Progress (self st) in
  let m := match files (fs (world st)) !! final with
           | Some f => perm f
           | None => 438
           end in
  Download env InPlace st = (r, st') →
  dirs (fs (world st)) ⊆ dirs (fs (world st')) ∧
  (∀ q, q ≠ final →
        files (fs (world st')) !! q = files (fs (world st)) !! q) ∧
  (((∃ p, r = Err (OpMkdirAll p)) ∨ r = Err (OpCreate final)) ∧
   files (fs (world st')) = files (fs (world st)) ∧ self st' = self st ∨
   ∃ k,
     files (fs (world st')) !! final =
       Some {| data := concat (take k chunks);
               perm := if is_ok r then 493 else m |} ∧
     (- 2 ^ 63 <= P < 2 ^ 63 →
      self st' =
        set_Progress
          (wrap64 (P + Z.of_nat (length (concat (take k chunks)))))
          (self st)) ∧
     (r = Ok tt ∨ r = Err (OpChmod final 493) → k = length chunks) ∧
     (∀ e, r = Err e →
        e = OpAssetDownload asset ∨ e = OpRead asset ∨
        (∃ n, e = OpWrite final n) ∨ e = OpChmod final 493)).
Proof.
  intros final asset chunks P m H. unfold Download in H.
  apply bind_inv in H as [([] & st1 & H1 & H)|(e & H1 & ->)]; cycle 1.
  { apply call_inv in H1 as [(? & _)|(E & ->)]; [discriminate |].
    injection E as ->. split; [done |]. split; [done |]. left. eauto. }
  apply call_inv in H1 as [(_ & _ & _ & ->)|(? & _)]; [| discriminate].
  apply bind_inv in H as [([] & st2 & H2 & H)|(e & H2 & ->)]; cycle 1.
  { apply call_inv in H2 as [(? & _)|(E & ->)]; [discriminate |].
    injection E as ->.
    split; [simpl; intros q Hq; by apply elem_of_union_r |].
    split; [done |]. left. eauto. }
  apply call_inv in H2 as [(_ & _ & _ & ->)|(? & _)]; [| discriminate].
  set (st2 := on_world _ (on_world _ st)) in H.
  assert (F2 : files (fs (world st2)) = files (fs (world st))) by done.
  assert (D2 : dirs (fs (world st)) ⊆ dirs (fs (world st2)))
    by (subst st2; simpl; intros q Hq; by do 2 apply elem_of_union_r).
  assert (N2 : now st2 = (now st + 2)%nat).
  { subst st2. unfold now. simpl. rewrite !length_app. simpl. lia. }
  assert (S2 : self st2 = self st) by done.
  clearbody st2.
  apply bind_inv in H as [(f & st3 & H3 & H)|(e & H3 & ->)]; cycle 1.
  { unfold os_Create in H3.
    apply call_ret_inv in H3 as [(? & _)|(E & ->)]; [discriminate |].
    injection E as ->. split; [exact D2 |]. split; [by rewrite <- F2 |].
    left. split; [by right |]. by split. }
  unfold os_Create in H3.
  apply call_ret_inv in H3 as [(E & _ & _ & ->)|(? & _)]; [| discriminate].
  injection E as E. fold final in E, H. subst f.
  apply deferring_inv in H as (st4 & H & ->).
  rewrite fs_close, self_close.
  set (created := on_world _ st2) in H.
  assert (Ht : files (fs (world created)) !! final =
               Some {| data := []; perm := m |}).
  { subst created. simpl. rewrite lookup_insert_eq. by rewrite F2. }
  assert (N3 : now created = (now st + 3)%nat).
  { subst created. unfold now in *. simpl. rewrite length_app. simpl. lia. }
  assert (S3 : self created = self st) by exact S2.
  assert (F3 : ∀ q, q ≠ final →
            files (fs (world created)) !! q = files (fs (world st)) !! q).
  { intros q Hq. subst created. simpl. by rewrite lookup_insert_ne, F2. }
  assert (D3 : dirs (fs (world created)) = dirs (fs (world st2))) by done.
  destruct (inplace_tail_run _ _ _ _ _ _ _ _ Ht H) as (Hd & Hq & Hk).
  rewrite N3, S3 in Hk. fold asset chunks P in Hk.
  split; [by rewrite Hd, D3 |].
  split; [intros q Hq1; rewrite Hq, F3; done |].
  right. exact Hk.
Qed.

Lemma concat_take_prefix {A} k (l : list (list A)) :
  concat (take k l) `prefix_of` concat l.
Proof.
  exists (concat (drop k l)). by rewrite <- concat_app, take_drop.
Qed.


(** X13.  What a failing [Download] of the staged revision leaves at the
    bundle path: what was there before, unless the call that failed is the
    final [os.Chmod]; then the new bundle is in place, complete, with the
    mode 0600 of the temporary file, and the error is reported all the
    same. *)
Theorem Download_staged_failure_at_bundle_path env st e st' :
  let final := core.AppImage (paths (self st)) in
  let D := concat (produced env (now st + 3)%nat
                     (OpAssetDownload (Asset (self st)))) in
  Download env Staged st = (Err e, st') →
  (e ≠ OpChmod final 493 →
   files (fs (world st')) !! final = files (fs (world st)) !! final) ∧
  (e = OpChmod final 493 →
   files (fs (world st')) !! final = Some {| data := D; perm := 384 |}).
Proof.
  intros final D H.
  destruct (Download_staged_run _ _ _ _ H)
    as (_ & [([[p E]|E] & Hf & _)
            |(_ & _ & _ & [(e' & k & E & He & Hsame & _)
                          |([[E Hd]|[E _]] & _)])]);
    try discriminate E; injection E as ->.
  - rewrite Hf. split; [done | discriminate].
  - rewrite Hf. split; [done | discriminate].
  - split; [done |]. intros ->. by destruct He as [?|[?|[[n ?]|?]]].
  - split; [done |]. intros _. exact Hd.
Qed.

Lemma Download_staged_failure_at_bundle_path_witness :
  let st := {| self := sample_request "foo" 3;
               world := world_with_bundle "foo" [x09] |} in
  files (fs (world (Download (failing is_chmod) Staged st).2))
    !! "apps/foo/foo.AppImage" =
  Some {| data := [x01; x02; x03]; perm := 384 |}.
Proof.
  intros st.
  destruct (Download_staged_failure_at_bundle_path (failing is_chmod) st
              (OpChmod "apps/foo/foo.AppImage" 493)
              (Download (failing is_chmod) Staged st).2) as [_ H].
  - vm_compute. reflexivity.
  - exact (H eq_refl).
Defined.






(** X16.  [Download] removes nothing and writes no file but its own: a
    directory that was there is there afterwards, and a file that was there
    at another path than the bundle path is as it was, in both revisions
    and however [Download] ends. *)
Theorem Download_removes_nothing env revision st q :
  let st' := (Download env revision st).2 in
  (q ∈ dirs (fs (world st)) → q ∈ dirs (fs (world st'))) ∧
  (q ≠ core.AppImage (paths (self st)) →
   is_Some (files (fs (world st)) !! q) →
   files (fs (world st')) !! q = files (fs (world st)) !! q).
Proof.
  intros st'. subst st'.
  destruct (Download env revision st) as [r st'] eqn:H. simpl.
  destruct revision.
  - destruct (Download_staged_run _ _ _ _ H)
      as (Hd & [(_ & Hf & _)|(Hnone & _ & Hq & _)]).
    + split; [apply Hd | by rewrite Hf].
    + split; [apply Hd |]. intros Hne [f Hf]. apply Hq; [| done].
      intros ->. by rewrite Hnone in Hf.
  - destruct (Download_inplace_run _ _ _ _ H) as (Hd & Hq & _).
    split; [apply Hd |]. intros Hne _. by apply Hq.
Qed.

Lemma Download_removes_nothing_witness :
  let st := {| self := sample_request "foo" 3;
               world := world_with_bundle "bar" [x09] |} in
  files (fs (world (Download quiet Staged st).2)) !! "apps/bar/bar.AppImage" =
  Some {| data := [x09]; perm := 493 |}.
Proof.
  intros st.
  destruct (Download_removes_nothing quiet Staged st "apps/bar/bar.AppImage")
    as [_ H].
  rewrite H; [reflexivity | discriminate | by eexists].
Defined.

(** ** Handles *)

Lemma open_handles_app a b :
  open_handles (a ++ b) = open_handles a + open_handles b.
Proof.
  unfold open_handles. induction a as [|e a IH]; simpl; [done |].
  rewrite IH. lia.
Qed.

Lemma open_handles_snoc t e :
  open_handles (t ++ [e]) = open_handles t + handle_delta e.
Proof. rewrite open_handles_app. unfold open_handles. cbn [foldr]. lia. Qed.

(** A call that is neither an open nor a close. *)
Lemma handles_call env op pre eff :
  handle_delta (EvCall op true) = 0 → handle_delta (EvCall op false) = 0 →
  (∀ w, trace (eff w) = trace w) →
  respects (keeps (λ w, open_handles (trace w))) (call env op pre eff).
Proof.
  intros Ht Hf He. apply respects_call; intros st; unfold keeps;
    cbn [world on_world]; rewrite ?He; cbn [trace log];
    rewrite open_handles_snoc, ?Ht, ?Hf; lia.
Qed.

Lemma handles_close env what st :
  open_handles (trace (world (close env what st))) =
  open_handles (trace (world st)) - 1.
Proof.
  unfold close.
  destruct (call__cases env (OpClose what) (λ _, true) id st) as [-> | ->];
    cbn [world on_world id trace log]; rewrite open_handles_snoc;
    cbn [handle_delta]; lia.
Qed.

(** A call that opens a handle when it succeeds, followed by the deferred
    [Close] of the handle and a body that leaves no handle open. *)
Lemma handles_bracket {A B} env (opener : M A) (handle : A → string)
    (body : A → M B) :
  (∀ st r st', opener st = (r, st') →
     open_handles (trace (world st')) =
     open_handles (trace (world st)) + (if is_ok r then 1 else 0)) →
  (∀ a, respects (keeps (λ w, open_handles (trace w))) (body a)) →
  respects (keeps (λ w, open_handles (trace w)))
    (opener ≫= λ a, deferring (close env (handle a)) (body a)).
Proof.
  intros Ho Hb st r st' H. unfold keeps.
  apply bind_inv in H as [(a & st1 & H1 & H)|(e & H1 & ->)].
  - apply deferring_inv in H as (st2 & H & ->).
    rewrite handles_close, (Hb _ _ _ _ H), (Ho _ _ _ H1). simpl. lia.
  - rewrite (Ho _ _ _ H1). simpl. lia.
Qed.

Lemma handles_opener {A} env op pre eff (a : A) st r st' :
  handle_delta (EvCall op true) = 1 → handle_delta (EvCall op false) = 0 →
  (∀ w, trace (eff w) = trace w) →
  (call env op pre eff ;; mret a) st = (r, st') →
  open_handles (trace (world st')) =
  open_handles (trace (world st)) + (if is_ok r then 1 else 0).
Proof.
  intros Ht Hf He H.
  apply call_ret_inv in H as [(-> & _ & _ & ->)|(-> & ->)];
    cbn [world on_world is_ok]; rewrite ?He; cbn [trace log];
    rewrite open_handles_snoc, ?Ht, ?Hf; lia.
Qed.

Lemma io_Copy_handles env file src chunks :
  respects (keeps (λ w, open_handles (trace w)))
    (io_Copy env (MultiWriter_Write env file) src chunks).
Proof.
  induction chunks as [|c rest IH]; simpl.
  - by apply handles_call.
  - apply respects_bind; [apply _ | | intros ?; exact IH].
    destruct (decide (c = [])); unfold MultiWriter_Write, file_Write.
    + apply respects_ret; apply _.
    + apply respects_bind; [apply _ | | intros ?].
      * by apply handles_call.
      * apply respects_bind; [apply _ | apply keeps_Write | intros ?].
        apply respects_ret; apply _.
Qed.

Lemma Download_handles env revision :
  respects (keeps (λ w, open_handles (trace w))) (Download env revision).
Proof.
  intros st r st' H. unfold Download in H. revert r st' H.
  refine ((_ : respects _ _) st).
  apply respects_bind; [apply _ | by apply handles_call | intros ?].
  apply respects_bind; [apply _ | by apply handles_call | intros ?].
  destruct revision.
  - apply (handles_bracket env _ id).
    + intros s r s' H. unfold utils_CreateTempFile in H.
      by apply handles_opener in H.
    + intros t. apply (handles_bracket env _ (λ _, _)).
      * intros s r s' H. unfold Asset_Download in H.
        by apply handles_opener in H.
      * intros data.
        apply respects_bind; [apply _ | apply io_Copy_handles | intros ?].
        apply respects_bind; [apply _ | by apply handles_call | intros ?].
        by apply handles_call.
  - apply (handles_bracket env _ id).
    + intros s r s' H. unfold os_Create in H.
      by apply handles_opener in H.
    + intros t. apply (handles_bracket env _ (λ _, _)).
      * intros s r s' H. unfold Asset_Download in H.
        by apply handles_opener in H.
      * intros data.
        apply respects_bind; [apply _ | apply io_Copy_handles | intros ?].
        by apply handles_call.
Qed.

Lemma handles_call_ env op pre eff st :
  handle_delta (EvCall op true) = 0 → handle_delta (EvCall op false) = 0 →
  (∀ w, trace (eff w) = trace w) →
  keeps (λ w, open_handles (trace w)) st (call_ env op pre eff st).
Proof.
  intros Ht Hf He. unfold call_.
  destruct (call env op pre eff st) as [r st'] eqn:E.
  exact (handles_call env op pre eff Ht Hf He _ _ _ E).
Qed.

(** An event that is no call. *)
Lemma handles_event e st :
  handle_delta e = 0 →
  keeps (λ w, open_handles (trace w)) st (on_world (log e) st).
Proof.
  intros He. unfold keeps. cbn [world on_world trace log].
  rewrite open_handles_snoc. lia.
Qed.

Ltac handles_step :=
  lazymatch goal with
  | |- respects _ (mret _) => apply respects_ret; apply _
  | |- respects _ (mbind _ _) => apply respects_bind; [apply _ | | intros ?]
  | |- respects _ (deferring _ _) =>
      apply respects_deferring; [apply _ | intros ? |]
  | |- respects _ (lift _) => apply respects_lift; intros ?
  | |- respects _ (call _ _ _ _) => apply handles_call; done
  | |- keeps _ _ (call_ _ _ _ _ _) => apply handles_call_; done
  | |- respects ?R (λ st, _) =>
      let st0 := fresh "st" in
      let r0 := fresh "r" in
      let st1 := fresh "st" in
      let H := fresh "H" in
      intros st0 r0 st1 H; cbv beta zeta in H; revert r0 st1 H;
      lazymatch goal with
      | |- ∀ r st', ?m st0 = (r, st') → _ =>
          refine ((_ : respects R m) st0)
      end
  end.

Lemma Install_handles env revision :
  respects (keeps (λ w, open_handles (trace w))) (Install env revision).
Proof.
  unfold Install.
  apply respects_bind; [apply _ | | intros ?].
  { apply respects_lift. intros st. by apply handles_event. }
  apply respects_deferring; [apply _ | |].
  { intros st. by apply handles_event. }
  apply respects_bind; [apply _ | apply Download_handles | intros ?].
  apply respects_bind; [apply _ | | intros ?].
  { apply respects_lift. intros st. unfold assign_Status.
    etransitivity; [| by apply handles_event]. done. }
  apply respects_bind; [apply _ | | intros ?].
  - unfold Integrate, os_Mkdir, core_DeflateAppImage, ExtractMetadata,
      CopyIconFile, InstallDesktopFile, os_RemoveAll.
    repeat handles_step.
  - unfold SaveConfig, core_SaveAppConfig, core_SaveSourceConfig,
      core_ReadConfig, core_SaveConfig.
    repeat handles_step.
Qed.

(** X17.  [Download] closes what it opened, on every way out and in both
    revisions: counting a successful [utils.CreateTempFile], [os.Create]
    or [Asset.Download] as a handle opened and a [Close] as a handle given
    back, the number of open handles is the same before and after.  The
    other stages open none, so the same holds of [Install]. *)
Theorem Download_closes_what_it_opened env revision st :
  open_handles (trace (world (Download env revision st).2)) =
    open_handles (trace (world st)) ∧
  open_handles (trace (world (Install env revision st).2)) =
    open_handles (trace (world st)).
Proof.
  split.
  - destruct (Download env revision st) as [r st'] eqn:H.
    exact (Download_handles _ _ _ _ _ H).
  - destruct (Install env revision st) as [r st'] eqn:H.
    exact (Install_handles _ _ _ _ _ H).
Qed.

(** ** What a successful [Install] has put in place *)

Lemma dirs_os_RemoveAll env p st q :
  under p q = false → q ∈ dirs (fs (world st)) →
  q ∈ dirs (fs (world (os_RemoveAll env p st))).
Proof.
  intros Hq Hd. unfold os_RemoveAll.
  destruct (call__cases env (OpRemoveAll p) (λ _, true)
              (upd_fs (remove_all p)) st) as [-> | ->]; simpl; [| done].
  by apply elem_of_filter.
Qed.

(** [Integrate], when it returns no error: the icon and the desktop entry
    are written, and nothing else outside the scratch directory changes. *)
Lemma Integrate_ok env st st' :
  let p := paths (self st) in
  let tempDir := scratch_dir (self st) in
  Integrate env st = (Ok tt, st') →
  ∃ icon desktop,
    (∀ q, under tempDir q = false →
       files (fs (world st')) !! q =
       (<[core.Desktop p := desktop]>
          (<[core.Icon p := icon]> (files (fs (world st))))) !! q) ∧
    (∀ q, under tempDir q = false → q ∈ dirs (fs (world st)) →
       q ∈ dirs (fs (world st'))).
Proof.
  intros p tempDir H.
  apply Integrate_cases in H as [[? _]|[[? _]|(st2 & H & ->)]];
    [discriminate.. |].
  apply bind_inv in H as [(? & s1 & H1 & H)|(e1 & _ & ?)]; [| discriminate].
  unfold ExtractMetadata in H1.
  apply call_ret_inv in H1 as [(_ & _ & _ & ->)|(? & _)]; [| discriminate].
  apply bind_inv in H as [([] & s2 & H2 & H)|(e2 & _ & ?)]; [| discriminate].
  unfold CopyIconFile in H2.
  apply call_inv in H2 as [(_ & _ & _ & ->)|(? & _)]; [| discriminate].
  unfold InstallDesktopFile in H.
  apply call_inv in H as [(_ & _ & _ & ->)|(? & _)]; [| discriminate].
  eexists _, _. split.
  - intros q Hq. rewrite files_os_RemoveAll by done. simpl. reflexivity.
  - intros q Hq Hd. apply dirs_os_RemoveAll; [done |]. simpl.
    by apply elem_of_union_r.
Qed.

(** X18.  When [Install] returns no error, the installation is in place:
    the bundle is at the bundle path, executable (mode 0755); the icon and
    the desktop entry are at their paths; the app config and the source
    descriptor are stored at theirs; and the registry maps the app id to
    the app directory.  The paths must not lie in the scratch directory,
    which [Integrate] removes, and the bundle path must be neither the icon
    path nor the desktop-entry path. *)
Theorem Install_ok_is_installed env revision st st' :
  let x := self st in
  let p := paths x in
  Install env revision st = (Ok tt, st') →
  under (scratch_dir x) (core.AppImage p) = false →
  under (scratch_dir x) (core.Icon p) = false →
  under (scratch_dir x) (core.Desktop p) = false →
  core.Icon p ≠ core.AppImage p →
  core.Desktop p ≠ core.AppImage p →
  (∃ D, files (fs (world st')) !! core.AppImage p =
          Some {| data := D; perm := 493 |}) ∧
  is_file (fs (world st')) (core.Icon p) = true ∧
  is_file (fs (world st')) (core.Desktop p) = true ∧
  app_configs (world st') !! core.Config p = Some (App x) ∧
  source_configs (world st') !! core.SourceConfig p = Some (Source x) ∧
  installed (world st') !! app_id x = Some (core.Dir p).
Proof.
  intros x p H U1 U2 U3 N1 N2.
  destruct (Install_cases _ _ _ _ _ H)
    as (_ & _ & _ & [(e & ? & ? & _ & ? & _)
                    |[(e & ? & ? & ? & ? & _ & _ & ? & _)
                     |(st1 & st2 & st3 & _ & _ & _ & HD & HI & HS & -> & _)]]);
    [discriminate.. |].
  destruct (Download_stage _ _ _ _ _ HD) as (Hs1 & _).
  unfold same_but_Progress in Hs1. rewrite StartStatusTicker_self in Hs1.
  fold x in Hs1.
  destruct (Download_ok _ _ _ _ HD) as (D & HDf & _).
  rewrite StartStatusTicker_self in HDf. fold x p in HDf.
  pose proof (Integrate_self _ _ _ _ HI) as Hs2. unfold self_rel in Hs2.
  cbn [self assign_Status on_world on_self] in Hs2.
  assert (HA : App (self st2) = App x) by (by rewrite Hs2, Hs1).
  assert (HSo : Source (self st2) = Source x) by (by rewrite Hs2, Hs1).
  assert (Hsc : scratch_dir (self (assign_Status InstallableAppIntegrating st1))
                = scratch_dir x).
  { unfold scratch_dir, paths. cbn [self assign_Status on_world on_self].
    by rewrite Hs1. }
  assert (Hp : paths (self (assign_Status InstallableAppIntegrating st1)) = p).
  { unfold paths. cbn [self assign_Status on_world on_self]. by rewrite Hs1. }
  destruct (Integrate_ok _ _ _ HI) as (icon & desktop & Hf & _).
  rewrite Hsc, Hp in Hf. cbn [world fs assign_Status on_world on_self log]
    in Hf.
  apply SaveConfig_cases in HS
    as (_ & [[? _]|[[? _]|[[? _]|[[? _]|[_ Hw]]]]]); try discriminate.
  cbn [world ticker_Stop on_world]. rewrite Hw.
  cbn [fs log set_installed set_source_configs set_app_configs app_configs
       source_configs installed].
  unfold app_id, paths. rewrite HA. fold (paths x). fold p. rewrite HSo.
  split; [| split; [| split; [| split; [| split]]]].
  - exists D. rewrite (Hf _ U1), !lookup_insert_ne by done. exact HDf.
  - unfold is_file. apply bool_decide_eq_true. rewrite (Hf _ U2).
    destruct (decide (core.Desktop p = core.Icon p)) as [->|Hne].
    + rewrite lookup_insert_eq. eauto.
    + rewrite lookup_insert_ne, lookup_insert_eq by done. eauto.
  - unfold is_file. apply bool_decide_eq_true. rewrite (Hf _ U3).
    rewrite lookup_insert_eq. eauto.
  - cbn. destruct (decide (core.Config p = core.Config p)); [| done].
    apply lookup_insert_eq.
  - apply lookup_insert_eq.
  - apply lookup_insert_eq.
Qed.

Lemma Install_ok_is_installed_witness :
  let st := {| self := sample_request "foo" 3; world := empty_world |} in
  let st' := (Install quiet Staged st).2 in
  is_file (fs (world st')) "apps/foo/foo.png" = true ∧
  installed (world st') !! "foo" = Some "apps/foo".
Proof.
  intros st st'.
  destruct (Install_ok_is_installed quiet Staged st st')
    as (_ & Hicon & _ & _ & _ & Hi).
  - vm_compute. reflexivity.
  - reflexivity.
  - reflexivity.
  - reflexivity.
  - discriminate.
  - discriminate.
  - split; [exact Hicon | exact Hi].
Defined.

(** ** The registry over a batch *)

(** [Install] writes the registry exactly when it returns no error. *)
Lemma Install_installed env revision st r st' :
  Install env revision st = (r, st') →
  installed (world st') =
    if is_ok r
    then <[app_id (self st) := core.Dir (paths (self st))]>
           (installed (world st))
    else installed (world st).
Proof.
  rewrite Install_eq.
  destruct (Download env revision (StartStatusTicker st)) as [[[]|e] st1] eqn:ED;
    pose proof (Download_keeps installed env revision
                  ltac:(done) ltac:(done) _ _ _ ED) as K1;
    unfold keeps in K1; cbn [world StartStatusTicker on_world log installed]
      in K1.
  2:{ intros [= <- <-]. exact K1. }
  destruct (Download_stage _ _ _ _ _ ED) as (Hs1 & _).
  unfold same_but_Progress in Hs1. rewrite StartStatusTicker_self in Hs1.
  destruct (Integrate env (assign_Status InstallableAppIntegrating st1))
    as [[[]|e] st2] eqn:EI;
    pose proof (Integrate_keeps installed env
                  ltac:(done) ltac:(done) _ _ _ EI) as K2;
    unfold keeps in K2; cbn [world assign_Status on_world on_self log installed]
      in K2.
  2:{ intros [= <- <-]. cbn [world ticker_Stop on_world log installed is_ok].
      by rewrite K2. }
  pose proof (Integrate_self _ _ _ _ EI) as Hs2. unfold self_rel in Hs2.
  cbn [self assign_Status on_world on_self] in Hs2.
  destruct (SaveConfig env st2) as [r3 st3] eqn:ES. intros [= <- <-].
  cbn [world ticker_Stop on_world log installed].
  apply SaveConfig_cases in ES
    as (_ & [[-> ->]|[[-> ->]|[[-> ->]|[[-> ->]|[-> ->]]]]]);
    cbn [is_ok installed log set_installed set_source_configs set_app_configs];
    rewrite ?K2, ?K1; try done.
  unfold app_id, paths. by rewrite Hs2, Hs1.
Qed.

(** One turn of the loop writes the registry exactly when it succeeds. *)
Lemma iteration_installed env revision i count x w b x' w' :
  iteration env revision i count x w = (b, x', w') →
  installed w' =
    if b then <[app_id x := core.Dir (paths x)]> (installed w)
    else installed w.
Proof.
  intros H.
  destruct (iteration_cases env revision i count x w)
    as (r & st1 & shown & EI & _ & _).
  pose proof (Install_installed _ _ _ _ _ EI) as Hi.
  rewrite prelude_eq in Hi.
  cbn [self world installed log set_journal logs app_id paths App
       set_PrintCycle set_Status set_StartedAt set_Count set_Index] in Hi.
  unfold iteration in H. rewrite EI in H.
  destruct r as [[]|e]; rewrite PrintStatus_eq in H;
    cbn [world self on_world on_self assign_Status core_UpdateTransactions
         utils_LogError] in H;
    injection H as <- _ <-;
    cbn [installed log set_journal logs]; exact Hi.
Qed.

Lemma loop_installed env revision count : ∀ apps i s w r apps' w',
  loop env revision count i s apps w = (r, apps', w') →
  installed w' =
    foldl (λ m x, <[app_id x := core.Dir (paths x)]> m) (installed w)
      (take (Z.to_nat (r - s)) apps).
Proof.
  induction apps as [|x rest IH]; intros i s w r apps' w' H; simpl in H.
  - injection H as <- <- <-. by rewrite take_nil.
  - destruct (iteration env revision i count x w) as [[b x1] w1] eqn:E.
    pose proof (iteration_installed _ _ _ _ _ _ _ _ _ E) as Hi.
    destruct b.
    + destruct (loop env revision count (i + 1) (s + 1) rest w1)
        as [[r2 rest2] w2] eqn:EL.
      injection H as <- <- <-.
      destruct (loop_outcome _ _ _ _ _ _ _ _ _ _ EL) as (Hb & _).
      rewrite (IH _ _ _ _ _ _ EL), Hi.
      replace (Z.to_nat (r2 - s)) with (S (Z.to_nat (r2 - (s + 1)))) by lia.
      done.
    + injection H as <- <- <-. by rewrite Z.sub_diag, Hi.
Qed.

(** X19.  [InstallApps] adds to the registry the entries of the requests
    it has installed, in their order, and nothing else: with [success] the
    first count it returns, the registry afterwards is the one before with
    the app id of each of the first [success] requests mapped to its app
    directory.  The request that failed and the ones behind it leave no
    entry. *)
Theorem InstallApps_registers_the_installed env revision apps w :
  let '((success, _), _, w') := InstallApps env revision apps w in
  installed w' =
    foldl (λ m x, <[app_id x := core.Dir (paths x)]> m) (installed w)
      (take (Z.to_nat success) apps).
Proof.
  unfold InstallApps.
  destruct (loop env revision _ 0 0 apps w) as [[r apps'] w'] eqn:E.
  rewrite (loop_installed _ _ _ _ _ _ _ _ _ _ E). by rewrite Z.sub_0_r.
Qed.

(** * [SelfUpdateCommand] *)

(** ** The asset the loop selects *)

Lemma range_Assets_PerIteration arch : ∀ todo done asset x,
  match asset with
  | None =>
      filter (λ a, strings_HasSuffix (core.AssetName a) arch = true) done = []
  | Some (IterationVar i) =>
      is_Some (done !! i) ∧
      done !! i =
        last (filter (λ a, strings_HasSuffix (core.AssetName a) arch = true)
                done)
  | Some TheLoopVar => False
  end →
  let r := range_Assets PerIteration arch (length done) todo asset x in
  r.1 ≫= deref (done ++ todo) r.2 =
    last (filter (λ a, strings_HasSuffix (core.AssetName a) arch = true)
            (done ++ todo)).
Proof.
  induction todo as [|a rest IH]; intros done asset x Hinv; simpl.
  - rewrite app_nil_r. destruct asset as [[i|]|]; simpl; [| done |].
    + by destruct Hinv.
    + by rewrite Hinv.
  - replace (done ++ a :: rest) with ((done ++ [a]) ++ rest)
      by (by rewrite <- app_assoc).
    replace (S (length done)) with (length (done ++ [a]))
      by (rewrite length_app; simpl; lia).
    apply IH. rewrite filter_app, filter_cons, filter_nil.
    destruct (decide (strings_HasSuffix (core.AssetName a) arch = true))
      as [Ha|Ha].
    + rewrite Ha, last_snoc, list_lookup_middle by done. eauto.
    + rewrite app_nil_r. apply not_true_is_false in Ha. rewrite Ha.
      destruct asset as [[i|]|]; [| done | done].
      destruct Hinv as [Hi Hl]. apply lookup_lt_is_Some in Hi as Hlt.
      by rewrite lookup_app_l.
Qed.

Lemma range_Assets_PerLoop arch : ∀ todo i asset x,
  range_Assets PerLoop arch i todo asset x =
  (if existsb (λ a, strings_HasSuffix (core.AssetName a) arch) todo
   then Some TheLoopVar else asset,
   from_option Some x (last todo)).
Proof.
  induction todo as [|a rest IH]; intros i asset x; simpl; [done |].
  rewrite IH.
  assert (Hl : from_option Some (Some a) (last rest) =
               from_option Some x (last (a :: rest))).
  { destruct rest as [|b l]; [done |]. rewrite last_cons_cons.
    destruct (last (b :: l)) eqn:E; [done |]. by apply last_None in E. }
  rewrite Hl.
  destruct (strings_HasSuffix (core.AssetName a) arch); simpl;
    by destruct (existsb _ rest).
Qed.

(** X20.  The asset [SelfUpdateCommand] goes on with.  Under the loop
    semantics of Go 1.22 it is the last asset of the release whose name
    ends with the architecture.  Under the older semantics it is the last
    asset of the release whenever some asset's name ends with the
    architecture, whether or not its own name does.  Under both, the
    pointer is nil exactly when no name ends with the architecture. *)
Theorem selected_asset_by_semantics arch assets :
  let fits := λ a, strings_HasSuffix (core.AssetName a) arch in
  selected_asset PerIteration arch assets =
    last (filter (λ a, fits a = true) assets) ∧
  selected_asset PerLoop arch assets =
    (if existsb fits assets then last assets else None) ∧
  ∀ sem, selected_asset sem arch assets = None ↔ existsb fits assets = false.
Proof.
  intros fits.
  assert (H1 : selected_asset PerIteration arch assets =
               last (filter (λ a, fits a = true) assets)).
  { unfold selected_asset.
    pose proof (range_Assets_PerIteration arch assets [] None None eq_refl)
      as H. simpl in H.
    by destruct (range_Assets PerIteration arch 0 assets None None). }
  assert (H2 : selected_asset PerLoop arch assets =
               (if existsb fits assets then last assets else None)).
  { unfold selected_asset. rewrite range_Assets_PerLoop. fold fits.
    destruct (existsb fits assets); simpl; [| done].
    by destruct (last assets). }
  split; [exact H1 |]. split; [exact H2 |].
  assert (Hex : existsb fits assets = false ↔
                filter (λ a, fits a = true) assets = []).
  { clear H1 H2. induction assets as [|a l IH]; simpl; [done |].
    rewrite filter_cons. destruct (decide (fits a = true)) as [Ha|Ha].
    - rewrite Ha. simpl. split; discriminate.
    - apply not_true_is_false in Ha. rewrite Ha. simpl. exact IH. }
  intros [].
  - rewrite H1, Hex. apply last_None.
  - rewrite H2. destruct (existsb fits assets) eqn:E.
    + split; [| discriminate]. rewrite last_None. intros ->. discriminate.
    + done.
Qed.

(** ** The binary *)

(** [io.Copy] into a file, however it ends. *)
Lemma io_Copy_file_run env t src : ∀ chunks st f0 r st',
  files (fs (world st)) !! t = Some f0 →
  io_Copy env (file_Write env t) src chunks st = (r, st') →
  ∃ k, (k ≤ length chunks)%nat ∧
    files (fs (world st')) !! t =
      Some {| data := data f0 ++ concat (take k chunks); perm := perm f0 |} ∧
    (∀ q, q ≠ t → files (fs (world st')) !! q = files (fs (world st)) !! q) ∧
    dirs (fs (world st')) = dirs (fs (world st)) ∧
    self st' = self st ∧
    (r = Ok tt → k = length chunks) ∧
    (∀ e, r = Err e → e = OpRead src ∨ ∃ n, e = OpWrite t n).
Proof.
  induction chunks as [|c rest IH]; intros st f0 r st' Hf H; simpl in H.
  - exists 0%nat. simpl. rewrite app_nil_r.
    apply call_inv in H as [(-> & _ & _ & ->)|(-> & ->)]; simpl;
      (split; [lia |]); (split; [by destruct f0 |]);
      (split; [done |]); (split; [done |]); (split; [done |]);
      (split; [done |]).
    + discriminate.
    + intros e [= <-]. by left.
  - apply bind_inv in H as [(a & st1 & H1 & H2)|(e & H1 & ->)].
    + destruct (decide (c = [])) as [->|Hc].
      * apply ret_inv in H1 as [_ ->].
        destruct (IH _ _ _ _ Hf H2)
          as (k & Hk & Ht & Hq & Hd & Hs & Hok & Herr).
        exists (S k). simpl. split; [lia |].
        split; [done |]. split; [done |]. split; [done |]. split; [done |].
        split; [intros Hr; f_equal; by apply Hok | exact Herr].
      * apply call_inv in H1 as [(_ & _ & _ & ->)|(? & _)]; [| discriminate].
        set (st1 := on_world _ st) in H2.
        assert (Hf1 : files (fs (world st1)) !! t =
                      Some {| data := data f0 ++ c; perm := perm f0 |}).
        { subst st1. simpl. rewrite lookup_alter, decide_True by done.
          by rewrite Hf. }
        destruct (IH _ _ _ _ Hf1 H2)
          as (k & Hk & Ht & Hq & Hd & Hs & Hok & Herr).
        exists (S k). simpl. split; [lia |].
        split; [rewrite Ht; simpl; by rewrite <- app_assoc |].
        split; [intros q Hq'; rewrite (Hq q Hq'); subst st1; simpl;
                by apply lookup_alter_ne |].
        split; [by rewrite Hd |]. split; [by rewrite Hs |].
        split; [intros Hr; f_equal; by apply Hok | exact Herr].
    + destruct (decide (c = [])) as [->|Hc]; [discriminate |].
      apply call_inv in H1 as [(? & _)|(E & ->)]; [discriminate |].
      injection E as ->.
      exists 0%nat. simpl. rewrite app_nil_r.
      split; [lia |]. split; [by destruct f0 |].
      split; [done |]. split; [done |]. split; [done |].
      split; [done |]. intros e [= <-]. right. eauto.
Qed.

(** The part of the action that acts on the world, on every way out. *)
Lemma replace_binary_run env asset argv0 st r st' :
  let chunks := produced env (now st) (OpAssetDownload asset) in
  let m := match files (fs (world st)) !! argv0 with
           | Some f => perm f
           | None => 438
           end in
  replace_binary env asset argv0 st = (r, st') →
  dirs (fs (world st')) = dirs (fs (world st)) ∧
  (∀ q, q ≠ argv0 →
        files (fs (world st')) !! q = files (fs (world st)) !! q) ∧
  self st' = self st ∧
  ((r = Err (OpAssetDownload asset) ∨ r = Err (OpCreate argv0)) ∧
   files (fs (world st')) = files (fs (world st)) ∨
   ∃ k,
     files (fs (world st')) !! argv0 =
       Some {| data := concat (take k chunks); perm := m |} ∧
     (r = Ok tt → k = length chunks) ∧
     (∀ e, r = Err e → e = OpRead asset ∨ ∃ n, e = OpWrite argv0 n)).
Proof.
  intros chunks m H. unfold replace_binary, http_Get in H.
  apply bind_inv in H as [(data & st1 & H1 & H)|(e & H1 & ->)]; cycle 1.
  { unfold Asset_Download in H1.
    apply call_ret_inv in H1 as [(? & _)|(E & ->)]; [discriminate |].
    injection E as ->. split; [done |]. split; [done |]. split; [done |].
    left. split; [by left | done]. }
  unfold Asset_Download in H1.
  apply call_ret_inv in H1 as [(E & _ & _ & ->)|(? & _)]; [| discriminate].
  injection E as E. fold chunks in E. subst data.
  apply deferring_inv in H as (st2 & H & ->).
  rewrite fs_close, self_close.
  apply bind_inv in H as [(f & st3 & H3 & H)|(e & H3 & ->)]; cycle 1.
  { unfold os_Create in H3.
    apply call_ret_inv in H3 as [(? & _)|(E & ->)]; [discriminate |].
    injection E as ->. split; [done |]. split; [done |]. split; [done |].
    left. split; [by right | done]. }
  unfold os_Create in H3.
  apply call_ret_inv in H3 as [(E & _ & _ & ->)|(? & _)]; [| discriminate].
  injection E as E. subst f.
  apply deferring_inv in H as (st4 & H & ->).
  rewrite fs_close, self_close.
  set (created := on_world _ (on_world _ st)) in H.
  assert (Ht : files (fs (world created)) !! argv0 =
               Some {| data := []; perm := m |}).
  { subst created. simpl. by rewrite lookup_insert_eq. }
  destruct (io_Copy_file_run _ _ _ _ _ _ _ _ Ht H)
    as (k & _ & Hf & Hq & Hd & Hs & Hok & Herr).
  split; [exact Hd |].
  split; [intros q Hq'; rewrite (Hq q Hq'); subst created; simpl;
          by rewrite lookup_insert_ne |].
  split; [exact Hs |]. right. exists k. by split.
Qed.

Lemma io_Copy_file_handles env file src chunks :
  respects (keeps (λ w, open_handles (trace w)))
    (io_Copy env (file_Write env file) src chunks).
Proof.
  induction chunks as [|c rest IH]; simpl.
  - by apply handles_call.
  - apply respects_bind; [apply _ | | intros ?; exact IH].
    destruct (decide (c = [])); unfold file_Write.
    + apply respects_ret; apply _.
    + by apply handles_call.
Qed.

Lemma replace_binary_handles env asset argv0 :
  respects (keeps (λ w, open_handles (trace w)))
    (replace_binary env asset argv0).
Proof.
  unfold replace_binary, http_Get.
  apply (handles_bracket env _ (λ _, _)).
  - intros s r s' H. unfold Asset_Download in H.
    by apply handles_opener in H.
  - intros data. apply (handles_bracket env _ id).
    + intros s r s' H. unfold os_Create in H.
      by apply handles_opener in H.
    + intros file. apply io_Copy_file_handles.
Qed.

(** X21.  What a failing [SelfUpdateCommand] leaves of the binary.  The
    command writes the download straight into [os.Args[0]].  When it
    returns an error of a read from the body or of a write to the file, the
    file holds a prefix of the download, possibly empty: the binary that
    was there is lost.  With every other error, the files are as they
    were. *)
Theorem SelfUpdate_failure env sem cyan tick latest arch argv0 st err out st' :
  let m := match files (fs (world st)) !! argv0 with
           | Some f => perm f
           | None => 438
           end in
  SelfUpdateCommand_Action env sem cyan tick latest arch argv0 st =
    (Some err, out, st') →
  ((∀ a, err ≠ ErrCall (OpRead a)) → (∀ n, err ≠ ErrCall (OpWrite argv0 n)) →
   files (fs (world st')) = files (fs (world st))) ∧
  ((∃ a, err = ErrCall (OpRead a)) ∨ (∃ n, err = ErrCall (OpWrite argv0 n)) →
   ∃ release asset written,
     latest = inl release ∧
     selected_asset sem arch (Assets release) = Some asset ∧
     written `prefix_of`
       concat (produced env (now st) (OpAssetDownload asset)) ∧
     files (fs (world st')) !! argv0 =
       Some {| data := written; perm := m |}).
Proof.
  intros m H. unfold SelfUpdateCommand_Action in H.
  destruct latest as [release|e0].
  2:{ injection H as <- _ <-. split; [done |].
      intros [[a ?]|[n ?]]; discriminate. }
  destruct (selected_asset sem arch (Assets release)) as [asset|] eqn:Esel.
  2:{ injection H as <- _ <-. split; [done |].
      intros [[a ?]|[n ?]]; discriminate. }
  destruct (replace_binary env asset argv0 st) as [[[]|op] st1] eqn:E;
    [discriminate |].
  injection H as <- _ <-.
  destruct (replace_binary_run _ _ _ _ _ _ E)
    as (_ & _ & _ & [([E1|E1] & Hf)|(k & Hf & _ & Herr)]).
  - injection E1 as ->. split; [done |].
    intros [[a ?]|[n ?]]; discriminate.
  - injection E1 as ->. split; [done |].
    intros [[a ?]|[n ?]]; discriminate.
  - split.
    + intros N1 N2. destruct (Herr op eq_refl) as [->|[n ->]].
      * by destruct (N1 asset).
      * by destruct (N2 n).
    + intros _. exists release, asset. eexists.
      split; [done |]. split; [done |].
      split; [apply concat_take_prefix | exact Hf].
Qed.

Lemma SelfUpdate_failure_witness :
  let st := {| self := sample_request "foo" 3;
               world := world_with_bundle "foo" [x09] |} in
  let latest := inl sample_release in
  let r := SelfUpdateCommand_Action (failing is_read) PerIteration id "ok"
             latest "amd64" "apps/foo/foo.AppImage" st in
  ∃ written,
    written `prefix_of` [x01; x02; x03] ∧
    files (fs (world r.2)) !! "apps/foo/foo.AppImage" =
      Some {| data := written; perm := 493 |}.
Proof.
  intros st latest r.
  destruct (SelfUpdate_failure (failing is_read) PerIteration id "ok" latest
              "amd64" "apps/foo/foo.AppImage" st
              (ErrCall (OpRead (sample_binary "pho-amd64")))
              r.1.2 r.2) as [_ H].
  - vm_compute. reflexivity.
  - destruct H as (release & asset & written & E1 & E2 & Hp & Hf);
      [left; eauto |].
    injection E1 as <-. vm_compute in E2. injection E2 as <-.
    exists written. by split.
Defined.



(** X23.  [SelfUpdateCommand] closes what it opened on every way out, the
    body of the response and the file, and leaves the receiver component
    of the state alone. *)
Theorem SelfUpdate_closes_what_it_opened
    env sem cyan tick latest arch argv0 st :
  let st' := (SelfUpdateCommand_Action env sem cyan tick latest arch argv0
                st).2 in
  open_handles (trace (world st')) = open_handles (trace (world st)) ∧
  self st' = self st.
Proof.
  unfold SelfUpdateCommand_Action.
  destruct latest as [release|e0]; [| done].
  destruct (selected_asset sem arch (Assets release)) as [asset|]; [| done].
  destruct (replace_binary env asset argv0 st) as [[[]|op] st1] eqn:E;
    simpl;
    (split; [exact (replace_binary_handles _ _ _ _ _ _ E) |]);
    by destruct (replace_binary_run _ _ _ _ _ _ E) as (_ & _ & ? & _).
Qed.

(** * [InstallGithubCommand] *)

(** The ways through the action, by what they leave. *)
Lemma Action_facts env revision c args flags stdin w r out stdin' w' :
  InstallGithubCommand_Action env revision c args flags stdin w =
    (r, out, stdin', w') →
  (r ≠ None → w' = (core_GetConfig c w).2) ∧
  (flag_assume_yes flags = true → stdin' = stdin) ∧
  (flag_assume_yes flags = false →
   (∀ s q, (utils_PromptYesNoInput c s q).1 ≠ inl true) →
   w' = (core_GetConfig c w).2 ∧
   (r = None → last out = Some (LogWarning "aborted..."))).
Proof.
  intros H.
  unfold InstallGithubCommand_Action, install_confirmed, confirm in H.
  repeat case_match; simplify_eq;
    (split; [done |]); (split; [done |]); intros Hno Hall;
    try (split; [done |]; intros _; by rewrite ?last_snoc);
    try done;
    match goal with
    | Hp : utils_PromptYesNoInput _ ?s ?q = (inl true, _) |- _ =>
        destruct (Hall s q); by rewrite Hp
    end.
Qed.

(** X24.  The action returns an error only when nothing was installed:
    then the world is the one [core.GetConfig] left.  Once [InstallApps]
    runs, the action returns nil whatever comes of it; in particular, when
    the installation fails and its error is logged, the action does not
    return it. *)
Theorem Action_error_only_before_install
    env revision c args flags stdin w r out stdin' w' :
  InstallGithubCommand_Action env revision c args flags stdin w =
    (r, out, stdin', w') →
  (r ≠ None → w' = (core_GetConfig c w).2) ∧
  (∀ e, EvLogError e ∈ trace w' →
        EvLogError e ∉ trace (core_GetConfig c w).2 → r = None).
Proof.
  intros H. destruct (Action_facts _ _ _ _ _ _ _ _ _ _ _ H) as (H1 & _).
  split; [exact H1 |]. intros e Hin Hnot.
  destruct r as [err|]; [| done].
  rewrite H1 in Hin by done. done.
Qed.

(** X25.  With [--assume-yes] the action asks nothing: the reader on the
    standard input is left as it was, on every way out. *)
Theorem Action_assume_yes_asks_nothing
    env revision c args flags stdin w r out stdin' w' :
  flag_assume_yes flags = true →
  InstallGithubCommand_Action env revision c args flags stdin w =
    (r, out, stdin', w') →
  stdin' = stdin.
Proof.
  intros Hy H. destruct (Action_facts _ _ _ _ _ _ _ _ _ _ _ H) as (_ & H2 & _).
  by apply H2.
Qed.

(** X26.  Without [--assume-yes], when the user never answers yes, nothing
    is installed: the world is the one [core.GetConfig] left, and when the
    action returns nil its last message is the warning that it was
    aborted. *)
Theorem Action_declined_installs_nothing
    env revision c args flags stdin w r out stdin' w' :
  flag_assume_yes flags = false →
  (∀ s q, (utils_PromptYesNoInput c s q).1 ≠ inl true) →
  InstallGithubCommand_Action env revision c args flags stdin w =
    (r, out, stdin', w') →
  w' = (core_GetConfig c w).2 ∧
  (r = None → last out = Some (LogWarning "aborted...")).
Proof.
  intros Hy Hall H.
  destruct (Action_facts _ _ _ _ _ _ _ _ _ _ _ H) as (_ & _ & H3).
  by apply H3.
Qed.

Lemma Action_error_only_before_install_witness :
  let res := InstallGithubCommand_Action
               (deflate_fails "apps/foo/foo.AppImage") InPlace
               (sample_collaborators true) ["https://github.com/owner/foo"]
               no_flags 0%nat empty_world in
  res.1.1.1 = None.
Proof.
  intros res.
  destruct (Action_error_only_before_install
              (deflate_fails "apps/foo/foo.AppImage") InPlace
              (sample_collaborators true) ["https://github.com/owner/foo"]
              no_flags 0%nat empty_world
              res.1.1.1 res.1.1.2 res.1.2 res.2) as [_ H].
  - vm_compute. reflexivity.
  - apply (H (OpDeflateAppImage "apps/foo/foo.AppImage" "apps/foo/temp")).
    + vm_compute.
      repeat first [apply list_elem_of_here | apply list_elem_of_further].
    + vm_compute. apply not_elem_of_nil.
Defined.

Lemma Action_assume_yes_asks_nothing_witness :
  let res := InstallGithubCommand_Action quiet InPlace
               (sample_collaborators true) ["https://github.com/owner/foo"]
               yes_flags 0%nat empty_world in
  res.1.2 = 0%nat.
Proof.
  intros res.
  apply (Action_assume_yes_asks_nothing quiet InPlace
           (sample_collaborators true) ["https://github.com/owner/foo"]
           yes_flags 0%nat empty_world res.1.1.1 res.1.1.2 res.1.2 res.2).
  - reflexivity.
  - vm_compute. reflexivity.
Defined.

Lemma Action_declined_installs_nothing_witness :
  let res := InstallGithubCommand_Action quiet InPlace
               (sample_collaborators false) ["https://github.com/owner/foo"]
               no_flags 0%nat empty_world in
  res.2 = empty_world.
Proof.
  intros res.
  destruct (Action_declined_installs_nothing quiet InPlace
              (sample_collaborators false) ["https://github.com/owner/foo"]
              no_flags 0%nat empty_world res.1.1.1 res.1.1.2 res.1.2 res.2)
    as [H _].
  - reflexivity.
  - intros s q. discriminate.
  - vm_compute. reflexivity.
  - exact H.
Defined.
